(** * Contiguous frame pool (cont_frame_pool.C): model and verification

    The allocator of [MP2_Sources/cont_frame_pool.C] keeps two bits of state
    per physical frame in a packed bitmap and serves requests for runs of
    contiguous frames.  This file embeds the C++ code function by function
    and proves the properties the specification states about it.

    Conventions of the embedding:
    - a C unsigned integer is a [Z] and every arithmetic result is reduced
      modulo the width of its C type ([to_uint], [to_ulong], [to_uchar]);
      the widths of [unsigned int] and [unsigned long] are parameters
      ([int_bits], [long_bits]), so that the results hold on ILP32 as well
      as on LP64 targets;
    - the fields of the class are declared in [cont_frame_pool.H], which is
      not part of the sources at hand; they are taken to be
      [unsigned long], the type of the constructor arguments they are
      initialised from;
    - the bitmap is a pointer into raw memory: it is modelled as the
      function from byte offsets (relative to the bitmap pointer) to the
      byte stored there, so that accesses behind the last bitmap byte are
      plain memory accesses, as in the kernel;
    - [frame_pools] holds pointers to pool objects; the model keeps the
      registered pools by value in registration order, and an operation on
      a registered pool replaces its entry;
    - a [for] loop with a fixed bound is a recursion on the number of
      iterations left; the loop variable is carried along;
    - of the console output only the diagnostics of the fatal paths are
      kept (the status line of the constructor is dropped). *)

From Stdlib Require Import ZArith List Lia Bool String.
Import ListNotations.
Local Open Scope Z_scope.

(** ** Frame states *)

Inductive FrameState : Type :=
| Free
| Used
| HoS
| Reserved.

Definition FrameState_eqb (a b : FrameState) : bool :=
  match a, b with
  | Free, Free | Used, Used | HoS, HoS | Reserved, Reserved => true
  | _, _ => false
  end.

(** The two-bit code [set_state] stores for a state. *)
Definition state_code (s : FrameState) : Z :=
  match s with
  | Free => 0
  | Used => 1
  | HoS => 2
  | Reserved => 3
  end.

(** The [switch] of [get_state]. *)
Definition state_of_code (state_bits : Z) : FrameState :=
  match state_bits with
  | 0 => Free
  | 1 => Used
  | 2 => HoS
  | 3 => Reserved
  | _ => Free
  end.

(** [unsigned char] wrap-around. *)
Definition to_uchar (x : Z) : Z := x mod 256.

(** Result of a call that may fail to return. *)
Inductive result (A : Type) : Type :=
| Returns (a : A)
| Diverges.
Arguments Returns {A} a.
Arguments Diverges {A}.

Section Machine.

(** Widths of [unsigned int] and [unsigned long].  The C standard gives
    [16 <= int_bits <= long_bits]. *)
Variables int_bits long_bits : Z.
Hypothesis int_bits_min : 16 <= int_bits.
Hypothesis long_bits_min : int_bits <= long_bits.

(** [FRAME_SIZE] is declared in the header, which is not at hand: it is a
    parameter of the model (4096 in the kernel this allocator belongs to). *)
Variable FRAME_SIZE : Z.
Hypothesis FRAME_SIZE_pos : 0 < FRAME_SIZE.

(** [frame_pools[Max_pools]; // Max 10 pools] *)
Definition Max_pools : Z := 10.

Definition UINT_MOD : Z := 2 ^ int_bits.
Definition ULONG_MOD : Z := 2 ^ long_bits.
Definition ULONG_MAX : Z := ULONG_MOD - 1.

Definition to_uint (x : Z) : Z := x mod UINT_MOD.
Definition to_ulong (x : Z) : Z := x mod ULONG_MOD.

(** ** The pool object *)

Record ContFramePool : Type := mkPool {
  base_frame_no : Z;
  nframes : Z;
  nFreeFrames : Z;
  info_frame_no : Z;
  bitmap : Z -> Z
}.

(** ** Helper functions of the class *)

Definition get_state (bitmap : Z -> Z) (frame_no : Z) : FrameState :=
  let bitmap_index := to_uint (to_ulong (frame_no * 2) / 8) in
  let bit_offset := to_uint (to_ulong (frame_no * 2) mod 8) in
  let mask := to_uchar (Z.shiftl 3 bit_offset) in
  let state_bits :=
    to_uchar (Z.shiftr (Z.land (bitmap bitmap_index) mask) bit_offset) in
  state_of_code state_bits.

Definition set_state (bitmap : Z -> Z) (frame_no : Z) (state : FrameState)
  : Z -> Z :=
  let bitmap_index := to_uint (to_ulong (frame_no * 2) / 8) in
  let bit_offset := to_uint (to_ulong (frame_no * 2) mod 8) in
  let mask := to_uchar (Z.shiftl 3 bit_offset) in
  let state_bits := state_code state in
  let cleared := to_uchar (Z.land (bitmap bitmap_index) (Z.lnot mask)) in
  let stored := to_uchar (Z.lor cleared (Z.shiftl state_bits bit_offset)) in
  fun a => if a =? bitmap_index then stored else bitmap a.

(** ** Constructor *)

(** [for (fno = 0; fno < _n_frames; fno++) set_state(fno, Free)]: the
    remaining [count] iterations, the next one at [fno]. *)
Fixpoint init_free (bitmap : Z -> Z) (fno : Z) (count : nat) : Z -> Z :=
  match count with
  | O => bitmap
  | S count' => init_free (set_state bitmap fno Free) (fno + 1) count'
  end.

(** [memory] is what the bytes at the bitmap pointer hold when the
    constructor starts; the result is the new pool and the registry after
    the constructor. *)
Definition ContFramePool_new (memory : Z -> Z)
    (frame_pools : list ContFramePool)
    (_base_frame_no _n_frames _info_frame_no : Z)
  : ContFramePool * list ContFramePool :=
  let bitmap0 := init_free memory 0 (Z.to_nat _n_frames) in
  let pool :=
    if _info_frame_no =? 0
    then mkPool _base_frame_no _n_frames (to_ulong (_n_frames - 1))
                _info_frame_no (set_state bitmap0 0 Used)
    else mkPool _base_frame_no _n_frames _n_frames _info_frame_no bitmap0 in
  (pool,
   if Z.of_nat (List.length frame_pools) <? Max_pools
   then frame_pools ++ [pool]
   else frame_pools).

(** ** get_frames *)

(** [for (i = ...; i < _n_frames; i++)] testing [start_frame + i]: the
    remaining [count] iterations, the next one at [i]. *)
Fixpoint sequence_is_free (bitmap : Z -> Z) (start_frame i : Z) (count : nat)
  : bool :=
  match count with
  | O => true
  | S count' =>
      match get_state bitmap (to_ulong (start_frame + i)) with
      | Free => sequence_is_free bitmap start_frame (i + 1) count'
      | _ => false
      end
  end.

(** The outer loop over [start_frame]: the remaining [count] candidates,
    the next one [start_frame]. *)
Fixpoint find_sequence (bitmap : Z -> Z) (_n_frames start_frame : Z)
    (count : nat) : option Z :=
  match count with
  | O => None
  | S count' =>
      if sequence_is_free bitmap start_frame 0 (Z.to_nat _n_frames)
      then Some start_frame
      else find_sequence bitmap _n_frames (start_frame + 1) count'
  end.

(** [for (i = 1; i < _n_frames; i++) set_state(first + i, state)], shared
    by [get_frames] ([Used]) and [mark_inaccessible] ([Reserved]). *)
Fixpoint mark_rest (bitmap : Z -> Z) (first : Z) (state : FrameState)
    (i : Z) (count : nat) : Z -> Z :=
  match count with
  | O => bitmap
  | S count' =>
      mark_rest (set_state bitmap (to_ulong (first + i)) state)
                first state (i + 1) count'
  end.

(** The outer loop runs for [start_frame = 0 .. nframes - _n_frames], the
    bound computed in [unsigned long].  When the bound is [ULONG_MAX] the
    loop test never fails, [start_frame] wraps to 0 and the same candidates
    are tried again: the call does not return. *)
Definition get_frames (pool : ContFramePool) (_n_frames : Z)
  : result (ContFramePool * Z) :=
  if nFreeFrames pool <? _n_frames then Returns (pool, 0)
  else
    let last_start := to_ulong (nframes pool - _n_frames) in
    match find_sequence (bitmap pool) _n_frames 0
                        (Z.to_nat (last_start + 1)) with
    | Some start_frame =>
        let bitmap1 := set_state (bitmap pool) start_frame HoS in
        let bitmap2 :=
          mark_rest bitmap1 start_frame Used 1 (Z.to_nat (_n_frames - 1)) in
        Returns
          (mkPool (base_frame_no pool) (nframes pool)
                  (to_ulong (nFreeFrames pool - _n_frames))
                  (info_frame_no pool) bitmap2,
           to_ulong (base_frame_no pool + start_frame))
    | None =>
        if last_start =? ULONG_MAX then Diverges else Returns (pool, 0)
    end.

(** ** mark_inaccessible *)

Definition mark_inaccessible (pool : ContFramePool)
    (_base_frame_no _n_frames : Z) : ContFramePool :=
  let relative_base := to_ulong (_base_frame_no - base_frame_no pool) in
  if (relative_base >=? nframes pool)
     || (to_ulong (relative_base + _n_frames) >? nframes pool)
  then pool
  else
    let bitmap1 := set_state (bitmap pool) relative_base HoS in
    let bitmap2 :=
      mark_rest bitmap1 relative_base Reserved 1 (Z.to_nat (_n_frames - 1)) in
    mkPool (base_frame_no pool) (nframes pool)
           (to_ulong (nFreeFrames pool - _n_frames))
           (info_frame_no pool) bitmap2.

(** ** release_frames *)

(** [set_state(current_frame, Free); nFreeFrames++;] *)
Definition free_frame (pool : ContFramePool) (current_frame : Z)
  : ContFramePool :=
  mkPool (base_frame_no pool) (nframes pool)
         (to_ulong (nFreeFrames pool + 1))
         (info_frame_no pool)
         (set_state (bitmap pool) current_frame Free).

(** [while (current_frame < nframes)]: at most [count] more frames, the
    walk stops at the first frame that is not [Used]. *)
Fixpoint release_rest (pool : ContFramePool) (current_frame : Z)
    (count : nat) : ContFramePool :=
  match count with
  | O => pool
  | S count' =>
      match get_state (bitmap pool) current_frame with
      | Used => release_rest (free_frame pool current_frame)
                             (current_frame + 1) count'
      | _ => pool
      end
  end.

Definition release_sequence (pool : ContFramePool) (relative_frame : Z)
  : ContFramePool :=
  let pool1 := free_frame pool relative_frame in
  let current_frame := to_ulong (relative_frame + 1) in
  release_rest pool1 current_frame
               (Z.to_nat (nframes pool1 - current_frame)).

(** Modelled from the spec: [assert(false)] (assert.H is not at hand) is
    the fatal-abort primitive; the diagnostic printed just before it is
    kept, with the registry as it is when execution stops. *)
Inductive outcome : Type :=
| Done (frame_pools : list ContFramePool)
| Fatal (diagnostic : string) (frame_pools : list ContFramePool).

Definition msg_not_head : string :=
  "ERROR: Trying to release frame that is not Head-of-Sequence!".
Definition msg_not_found : string :=
  "ERROR: Frame not found in any pool!".

(** [for (i = 0; i < num_pools; i++)] over the registered pools. *)
Fixpoint release_frames (frame_pools : list ContFramePool)
    (_first_frame_no : Z) : outcome :=
  match frame_pools with
  | [] => Fatal msg_not_found []
  | pool :: rest =>
      if (_first_frame_no >=? base_frame_no pool)
         && (_first_frame_no <? to_ulong (base_frame_no pool + nframes pool))
      then
        let relative_frame :=
          to_ulong (_first_frame_no - base_frame_no pool) in
        match get_state (bitmap pool) relative_frame with
        | HoS => Done (release_sequence pool relative_frame :: rest)
        | _ => Fatal msg_not_head (pool :: rest)
        end
      else
        match release_frames rest _first_frame_no with
        | Done rest' => Done (pool :: rest')
        | Fatal diagnostic rest' => Fatal diagnostic (pool :: rest')
        end
  end.

(** ** needed_info_frames *)

Definition needed_info_frames (_n_frames : Z) : Z :=
  let bitmap_size_bytes := to_ulong (to_ulong (_n_frames * 2) + 7) / 8 in
  let frames_needed :=
    to_ulong (to_ulong (bitmap_size_bytes + FRAME_SIZE) - 1) / FRAME_SIZE in
  frames_needed.

(** ** Notions the specification uses *)

(** Exact ceiling of [a / b]. *)
Definition ceil_div (a b : Z) : Z := - ((- a) / b).

(** Frame numbers whose bitmap slot is computed without wrap-around or
    truncation. *)
Definition addressable (frame_no : Z) : Prop :=
  0 <= frame_no /\ frame_no * 2 < ULONG_MOD /\ frame_no * 2 / 8 < UINT_MOD.

(** A pool whose fields fit their type, whose frame numbers do not wrap
    and whose frames all have a bitmap slot of their own. *)
Definition pool_wf (pool : ContFramePool) : Prop :=
  0 <= base_frame_no pool /\
  0 <= nframes pool /\
  base_frame_no pool + nframes pool < ULONG_MOD /\
  nframes pool * 2 <= ULONG_MOD /\
  nframes pool <= 4 * UINT_MOD /\
  0 <= nFreeFrames pool < ULONG_MOD.

(** [_n_frames] consecutive frames from [start_frame] on are [Free]. *)
Definition run_free (bitmap : Z -> Z) (start_frame _n_frames : Z) : Prop :=
  forall i, start_frame <= i < start_frame + _n_frames ->
            get_state bitmap i = Free.

(** Number of [Free] frames among the frames [0 .. k-1]. *)
Fixpoint count_free (bitmap : Z -> Z) (k : nat) : Z :=
  match k with
  | O => 0
  | S k' =>
      count_free bitmap k'
      + (if FrameState_eqb (get_state bitmap (Z.of_nat k')) Free
         then 1 else 0)
  end.

Definition free_count_consistent (pool : ContFramePool) : Prop :=
  nFreeFrames pool = count_free (bitmap pool) (Z.to_nat (nframes pool)).

(** The frame number lies in the range the pool manages. *)
Definition owns (pool : ContFramePool) (frame_no : Z) : Prop :=
  base_frame_no pool <= frame_no < base_frame_no pool + nframes pool.

(** A [Used] frame never directly follows a [Free] frame (every [Used]
    frame continues the run of the frame before it). *)
Definition used_continues_run (pool : ContFramePool) : Prop :=
  forall i, 0 <= i -> i + 1 < nframes pool ->
            get_state (bitmap pool) i = Free ->
            get_state (bitmap pool) (i + 1) <> Used.

(** Two pools that differ at most in their bitmap bytes, and there agree
    on the state of every frame with a slot of its own. *)
Definition same_frames (p q : ContFramePool) : Prop :=
  base_frame_no p = base_frame_no q /\
  nframes p = nframes q /\
  nFreeFrames p = nFreeFrames q /\
  forall f, addressable f -> get_state (bitmap p) f = get_state (bitmap q) f.

(** The fields hold values of their type, [unsigned long]. *)
Definition fields_in_range (pool : ContFramePool) : Prop :=
  0 <= base_frame_no pool < ULONG_MOD /\
  0 <= nframes pool < ULONG_MOD /\
  0 <= nFreeFrames pool < ULONG_MOD.

(** The registry a call of [release_frames] leaves behind. *)
Definition outcome_pools (o : outcome) : list ContFramePool :=
  match o with
  | Done frame_pools => frame_pools
  | Fatal _ frame_pools => frame_pools
  end.

(** The bitmap byte and the bit offset [get_state] and [set_state]
    compute for a frame number, and whether two frame numbers share them. *)
Definition slot_index (frame_no : Z) : Z :=
  to_uint (to_ulong (frame_no * 2) / 8).

Definition slot_offset (frame_no : Z) : Z :=
  to_uint (to_ulong (frame_no * 2) mod 8).

Definition same_slot (f g : Z) : bool :=
  (slot_index f =? slot_index g) && (slot_offset f =? slot_offset g).

(** ** Example pools *)

(** Frames 100 .. 109, all free, bitmap hosted in frame 5. *)
Definition all_free_pool : ContFramePool :=
  mkPool 100 10 10 5 (fun _ => 0).

(** Frames 100 .. 109 in the states
    [HoS Used Free HoS Free Free Free Free Free Free]. *)
Definition fragmented_pool : ContFramePool :=
  mkPool 100 10 7 5 (fun a => if a =? 0 then 134 else 0).

(** Frames 200 .. 207, all free. *)
Definition second_pool : ContFramePool :=
  mkPool 200 8 8 6 (fun _ => 0).

(** ** One bitmap byte

    The bit manipulation of [get_state] and [set_state] on the byte that
    holds the frame, for a bit offset [bit_offset] in that byte. *)

Definition byte_get (b bit_offset : Z) : Z :=
  let mask := to_uchar (Z.shiftl 3 bit_offset) in
  to_uchar (Z.shiftr (Z.land b mask) bit_offset).

Definition byte_set (b bit_offset state_bits : Z) : Z :=
  let mask := to_uchar (Z.shiftl 3 bit_offset) in
  let cleared := to_uchar (Z.land b (Z.lnot mask)) in
  to_uchar (Z.lor cleared (Z.shiftl state_bits bit_offset)).

Definition byte_values : list Z := map Z.of_nat (seq 0 256).
Definition bit_offsets : list Z := [0; 2; 4; 6].
Definition state_codes : list Z := [0; 1; 2; 3].

(** Reading a slot after writing it, and reading another slot of the
    byte, checked over all byte values. *)
Definition byte_slots_check : bool :=
  forallb (fun b =>
    forallb (fun off =>
      forallb (fun code =>
        (byte_get (byte_set b off code) off =? code)
        && forallb (fun off' =>
             (off' =? off)
             || (byte_get (byte_set b off code) off' =? byte_get b off'))
           bit_offsets)
      state_codes)
    bit_offsets)
  byte_values.

(** ** Further example pools *)

(** Ten frames whose counter says eleven and whose bitmap bytes, like all
    memory behind them, are [0xFF]: no slot reads [Free]. *)
Definition stuck_pool : ContFramePool :=
  mkPool 100 10 11 5 (fun _ => 255).

(** Ten registered pools, frames 1000 .. 1099: the registry is full. *)
Definition full_registry : list ContFramePool :=
  map (fun i => mkPool (1000 + 10 * Z.of_nat i) 10 10 7 (fun _ => 0))
      (seq 0 10).

(** ** Sequences of calls on one pool

    The pool a call of [get_frames] leaves behind (the pool itself when
    the call does not return), and the states a pool reaches through
    calls of [get_frames] for at least one frame, [mark_inaccessible] on
    free frames of the pool, and [release_frames] on a head of a run of
    the pool (for which [release_frames] runs [release_sequence] on the
    owning pool). *)
Definition pool_after_get_frames (pool : ContFramePool) (_n_frames : Z)
  : ContFramePool :=
  match get_frames pool _n_frames with
  | Returns (pool', _) => pool'
  | Diverges => pool
  end.

Inductive pool_step : ContFramePool -> ContFramePool -> Prop :=
| step_get_frames pool n :
    1 <= n -> pool_step pool (pool_after_get_frames pool n)
| step_mark_inaccessible pool b n :
    1 <= n -> base_frame_no pool <= b ->
    b - base_frame_no pool + n <= nframes pool ->
    run_free (bitmap pool) (b - base_frame_no pool) n ->
    pool_step pool (mark_inaccessible pool b n)
| step_release_frames pool f :
    owns pool f ->
    get_state (bitmap pool) (f - base_frame_no pool) = HoS ->
    pool_step pool (release_sequence pool (f - base_frame_no pool)).

Inductive pool_reachable (start : ContFramePool) : ContFramePool -> Prop :=
| reach_start : pool_reachable start start
| reach_step pool pool' :
    pool_reachable start pool -> pool_step pool pool' ->
    pool_reachable start pool'.

(** Ten frames, nothing marked, and a counter of twelve. *)
Definition overcounted_pool : ContFramePool :=
  mkPool 100 10 12 5 (fun _ => 0).

(** * Proofs *)

(** ** Machine arithmetic *)

Lemma UINT_MOD_ge : 65536 <= UINT_MOD.
Proof.
  unfold UINT_MOD. change 65536 with (2 ^ 16).
  apply Z.pow_le_mono_r; lia.
Qed.

Lemma ULONG_MOD_ge : UINT_MOD <= ULONG_MOD.
Proof.
  unfold UINT_MOD, ULONG_MOD. apply Z.pow_le_mono_r; lia.
Qed.

Lemma ULONG_MOD_even : ULONG_MOD = 2 * 2 ^ (long_bits - 1).
Proof.
  unfold ULONG_MOD. rewrite <- Z.pow_succ_r by lia. f_equal. lia.
Qed.

Lemma to_ulong_small x : 0 <= x < ULONG_MOD -> to_ulong x = x.
Proof. intros H. unfold to_ulong. apply Z.mod_small; exact H. Qed.

Lemma to_uint_small x : 0 <= x < UINT_MOD -> to_uint x = x.
Proof. intros H. unfold to_uint. apply Z.mod_small; exact H. Qed.

Lemma to_ulong_range x : 0 <= to_ulong x < ULONG_MOD.
Proof.
  unfold to_ulong. apply Z.mod_pos_bound.
  pose proof UINT_MOD_ge. pose proof ULONG_MOD_ge. lia.
Qed.

(** ** The bits of one byte *)

Lemma byte_values_In b : 0 <= b < 256 -> In b byte_values.
Proof.
  intros H. unfold byte_values.
  rewrite <- (Z2Nat.id b) by lia.
  apply in_map, in_seq. lia.
Qed.

Lemma byte_slots_check_true : byte_slots_check = true.
Proof. vm_compute. reflexivity. Qed.

Lemma land_low_byte b m : 0 <= m < 256 -> Z.land b m = Z.land (b mod 256) m.
Proof.
  intros Hm. change 256 with (2 ^ 8).
  rewrite <- Z.land_ones by lia.
  rewrite <- Z.land_assoc. f_equal.
  rewrite Z.land_comm, Z.land_ones by lia.
  symmetry. apply Z.mod_small. exact Hm.
Qed.

Lemma to_uchar_land_low b x :
  to_uchar (Z.land b x) = to_uchar (Z.land (b mod 256) x).
Proof.
  unfold to_uchar. change 256 with (2 ^ 8).
  rewrite <- !Z.land_ones by lia.
  rewrite <- (Z.land_assoc b (Z.ones 8) x), (Z.land_comm (Z.ones 8) x).
  rewrite Z.land_assoc, <- (Z.land_assoc (Z.land b x)), Z.land_diag.
  reflexivity.
Qed.

Lemma byte_get_low b off : byte_get b off = byte_get (b mod 256) off.
Proof.
  unfold byte_get. f_equal. f_equal.
  apply land_low_byte. unfold to_uchar. apply Z.mod_pos_bound. lia.
Qed.

Lemma byte_set_low b off code : byte_set b off code = byte_set (b mod 256) off code.
Proof.
  unfold byte_set. rewrite (to_uchar_land_low b). reflexivity.
Qed.

Lemma byte_slots b off code :
  In off bit_offsets -> In code state_codes ->
  byte_get (byte_set b off code) off = code /\
  forall off', In off' bit_offsets -> off' <> off ->
               byte_get (byte_set b off code) off' = byte_get b off'.
Proof.
  intros Hoff Hcode.
  pose proof byte_slots_check_true as H. unfold byte_slots_check in H.
  rewrite forallb_forall in H.
  assert (Hb : In (b mod 256) byte_values)
    by (apply byte_values_In, Z.mod_pos_bound; lia).
  specialize (H _ Hb). rewrite forallb_forall in H.
  specialize (H _ Hoff). rewrite forallb_forall in H.
  specialize (H _ Hcode). apply andb_true_iff in H. destruct H as [Hs Ho].
  rewrite byte_set_low. split.
  - apply Z.eqb_eq. exact Hs.
  - intros off' Hoff' Hne. rewrite forallb_forall in Ho.
    specialize (Ho _ Hoff'). apply orb_true_iff in Ho.
    destruct Ho as [Ho | Ho].
    + apply Z.eqb_eq in Ho. contradiction.
    + apply Z.eqb_eq in Ho. rewrite Ho. symmetry. apply byte_get_low.
Qed.

Lemma state_code_In s : In (state_code s) state_codes.
Proof. destruct s; simpl; auto. Qed.

Lemma state_of_code_code s : state_of_code (state_code s) = s.
Proof. destruct s; reflexivity. Qed.

(** ** Reading and writing frame states *)

Lemma slot_offset_In f : 0 <= f -> In (f * 2 mod 8) bit_offsets.
Proof.
  intros Hf. unfold bit_offsets. simpl.
  assert (H : f * 2 mod 8 = 0 \/ f * 2 mod 8 = 2 \/
              f * 2 mod 8 = 4 \/ f * 2 mod 8 = 6)
    by (Z.div_mod_to_equations; lia).
  intuition auto.
Qed.

Lemma addressable_slot f :
  addressable f ->
  to_uint (to_ulong (f * 2) / 8) = f * 2 / 8 /\
  to_uint (to_ulong (f * 2) mod 8) = f * 2 mod 8.
Proof.
  intros (H0 & H1 & H2). pose proof UINT_MOD_ge.
  rewrite (to_ulong_small (f * 2)) by lia.
  split; apply to_uint_small; Z.div_mod_to_equations; lia.
Qed.

Lemma get_state_slot bm f :
  addressable f ->
  get_state bm f = state_of_code (byte_get (bm (f * 2 / 8)) (f * 2 mod 8)).
Proof.
  intros Hf. destruct (addressable_slot f Hf) as [Hi Ho].
  unfold get_state. rewrite Hi, Ho. reflexivity.
Qed.

Lemma set_state_slot bm f s a :
  addressable f ->
  set_state bm f s a =
  if a =? f * 2 / 8
  then byte_set (bm (f * 2 / 8)) (f * 2 mod 8) (state_code s)
  else bm a.
Proof.
  intros Hf. destruct (addressable_slot f Hf) as [Hi Ho].
  unfold set_state. rewrite Hi, Ho. reflexivity.
Qed.

Lemma get_set_same bm f s :
  addressable f -> get_state (set_state bm f s) f = s.
Proof.
  intros Hf. rewrite get_state_slot, set_state_slot by exact Hf.
  rewrite Z.eqb_refl.
  destruct (byte_slots (bm (f * 2 / 8)) (f * 2 mod 8) (state_code s)) as [H _].
  - apply slot_offset_In. apply Hf.
  - apply state_code_In.
  - rewrite H. apply state_of_code_code.
Qed.

Lemma get_set_other bm f s g :
  addressable f -> addressable g -> g <> f ->
  get_state (set_state bm f s) g = get_state bm g.
Proof.
  intros Hf Hg Hne. rewrite !get_state_slot, set_state_slot by assumption.
  destruct (Z.eqb_spec (g * 2 / 8) (f * 2 / 8)) as [Heq | Hneq];
    [ | reflexivity ].
  rewrite Heq.
  destruct (byte_slots (bm (f * 2 / 8)) (f * 2 mod 8) (state_code s)) as [_ H].
  - apply slot_offset_In. apply Hf.
  - apply state_code_In.
  - rewrite H; [ reflexivity | apply slot_offset_In; apply Hg | ].
    destruct Hf as [Hf _]. destruct Hg as [Hg _].
    Z.div_mod_to_equations. lia.
Qed.

Lemma wf_addressable p f :
  pool_wf p -> 0 <= f < nframes p -> addressable f.
Proof.
  intros (Hb & Hn & Hw & H2 & H4 & Hfc) Hf. unfold addressable.
  repeat split; try lia. Z.div_mod_to_equations. lia.
Qed.

Lemma addressable_lt f : addressable f -> 0 <= f < ULONG_MOD.
Proof. intros (H0 & H1 & _). lia. Qed.

(** ** The loops of get_frames *)

Lemma sequence_is_free_spec bm start count :
  forall i,
    0 <= start + i -> start + i + Z.of_nat count <= ULONG_MOD ->
    (sequence_is_free bm start i count = true <->
     forall j, start + i <= j < start + i + Z.of_nat count ->
               get_state bm j = Free).
Proof.
  induction count as [ | count IH ]; intros i H0 Hle.
  - cbn [sequence_is_free]. split; [ intros _ j Hj; simpl in Hj; lia | reflexivity ].
  - cbn [sequence_is_free]. rewrite Nat2Z.inj_succ in *.
    rewrite to_ulong_small by lia.
    destruct (get_state bm (start + i)) eqn:E.
    + rewrite (IH (i + 1)) by lia. split; intros H j Hj.
      * destruct (Z.eq_dec j (start + i)) as [-> | Hne]; [ exact E | ].
        apply H. lia.
      * apply H. lia.
    + split; [ discriminate | ].
      intros H. rewrite H in E by lia. discriminate E.
    + split; [ discriminate | ].
      intros H. rewrite H in E by lia. discriminate E.
    + split; [ discriminate | ].
      intros H. rewrite H in E by lia. discriminate E.
Qed.

Lemma sequence_is_free_run bm start n :
  0 <= start -> 0 <= n -> start + n <= ULONG_MOD ->
  (sequence_is_free bm start 0 (Z.to_nat n) = true <-> run_free bm start n).
Proof.
  intros Hs Hn Hle. unfold run_free.
  rewrite sequence_is_free_spec by (rewrite ?Z2Nat.id; lia).
  rewrite Z2Nat.id, Z.add_0_r by lia. reflexivity.
Qed.

(** The scan returns the lowest start offset of a free run among its
    candidates, and nothing only when no candidate starts a free run. *)
Lemma find_sequence_spec bm n count :
  forall start,
    0 <= start -> 0 <= n -> start + Z.of_nat count + n <= ULONG_MOD + 1 ->
    match find_sequence bm n start count with
    | Some k =>
        start <= k < start + Z.of_nat count /\ run_free bm k n /\
        forall j, start <= j < k -> ~ run_free bm j n
    | None =>
        forall j, start <= j < start + Z.of_nat count -> ~ run_free bm j n
    end.
Proof.
  induction count as [ | count IH ]; intros start Hs Hn Hle.
  - cbn [find_sequence]. intros j Hj. simpl in Hj. lia.
  - cbn [find_sequence]. rewrite Nat2Z.inj_succ in *.
    destruct (sequence_is_free bm start 0 (Z.to_nat n)) eqn:E.
    + apply sequence_is_free_run in E; try lia.
      split; [ lia | ]. split; [ exact E | ]. intros j Hj. lia.
    + assert (Hnot : ~ run_free bm start n).
      { intros Hr. apply sequence_is_free_run in Hr; try lia. congruence. }
      specialize (IH (start + 1)).
      destruct (find_sequence bm n (start + 1) count) as [k | ].
      * destruct IH as (Hk & Hrun & Hmin); try lia.
        split; [ lia | ]. split; [ exact Hrun | ].
        intros j Hj. destruct (Z.eq_dec j start) as [-> | Hne];
          [ exact Hnot | apply Hmin; lia ].
      * intros j Hj. destruct (Z.eq_dec j start) as [-> | Hne];
          [ exact Hnot | apply IH; lia ].
Qed.

Lemma find_sequence_first bm n count k :
  0 <= n -> Z.of_nat count + n <= ULONG_MOD + 1 ->
  0 <= k < Z.of_nat count ->
  run_free bm k n ->
  (forall j, 0 <= j < k -> ~ run_free bm j n) ->
  find_sequence bm n 0 count = Some k.
Proof.
  intros Hn Hle Hk Hrun Hmin.
  pose proof (find_sequence_spec bm n count 0) as H.
  destruct (find_sequence bm n 0 count) as [k' | ].
  - destruct H as (Hk' & Hrun' & Hmin'); try lia.
    f_equal. destruct (Z.lt_trichotomy k' k) as [Hlt | [Heq | Hgt]].
    + exfalso. apply (Hmin k'); [ lia | exact Hrun' ].
    + exact Heq.
    + exfalso. apply (Hmin' k); [ lia | exact Hrun ].
  - exfalso. apply (H ltac:(lia) ltac:(lia) ltac:(lia) k); [ lia | exact Hrun ].
Qed.

(** Frame states after the marking loop. *)
Lemma mark_rest_get s first count :
  forall bm i g,
    (forall j, first + i <= j < first + i + Z.of_nat count -> addressable j) ->
    addressable g ->
    get_state (mark_rest bm first s i count) g =
    if (first + i <=? g) && (g <? first + i + Z.of_nat count)
    then s else get_state bm g.
Proof.
  induction count as [ | count IH ]; intros bm i g Hrun Hg.
  - cbn [mark_rest]. simpl Z.of_nat.
    destruct (Z.leb_spec (first + i) g), (Z.ltb_spec g (first + i + 0));
      try reflexivity; lia.
  - cbn [mark_rest]. rewrite Nat2Z.inj_succ in *.
    assert (Ha : addressable (first + i)) by (apply Hrun; lia).
    rewrite (to_ulong_small (first + i)) by (apply addressable_lt, Ha).
    rewrite IH; [ | intros j Hj; apply Hrun; lia | exact Hg ].
    replace (first + (i + 1)) with (first + i + 1) by lia.
    destruct (Z.eq_dec g (first + i)) as [-> | Hne].
    + rewrite get_set_same by exact Ha.
      destruct (Z.leb_spec (first + i + 1) (first + i)),
               (Z.leb_spec (first + i) (first + i)),
               (Z.ltb_spec (first + i) (first + i + Z.succ (Z.of_nat count)));
        simpl; try reflexivity; lia.
    + rewrite get_set_other by assumption.
      destruct (Z.leb_spec (first + i + 1) g),
               (Z.leb_spec (first + i) g),
               (Z.ltb_spec g (first + i + 1 + Z.of_nat count)),
               (Z.ltb_spec g (first + i + Z.succ (Z.of_nat count)));
        simpl; try reflexivity; lia.
Qed.

(** ** get_frames on a pool with a free run *)

Lemma get_frames_found p n k :
  pool_wf p -> 1 <= n <= nFreeFrames p ->
  0 <= k -> k + n <= nframes p ->
  run_free (bitmap p) k n ->
  (forall j, 0 <= j < k -> ~ run_free (bitmap p) j n) ->
  exists bm',
    get_frames p n =
    Returns (mkPool (base_frame_no p) (nframes p) (nFreeFrames p - n)
                    (info_frame_no p) bm',
             base_frame_no p + k) /\
    forall g, addressable g ->
      get_state bm' g =
      if g =? k then HoS
      else if (k <? g) && (g <? k + n) then Used
      else get_state (bitmap p) g.
Proof.
  intros Hwf Hn Hk Hkn Hrun Hmin.
  pose proof Hwf as (Hb & Hnf & Hw & H2 & H4 & Hfc).
  unfold get_frames; cbv zeta.
  destruct (Z.ltb_spec (nFreeFrames p) n) as [ Hlt | _ ]; [ lia | ].
  rewrite (to_ulong_small (nframes p - n)) by lia.
  rewrite (find_sequence_first (bitmap p) n _ k);
    try assumption; try (rewrite Z2Nat.id; lia); try lia.
  rewrite (to_ulong_small (nFreeFrames p - n)) by lia.
  rewrite (to_ulong_small (base_frame_no p + k)) by lia.
  eexists. split; [ reflexivity | ].
  intros g Hg.
  assert (Hak : addressable k) by (apply (wf_addressable p); [ exact Hwf | lia ]).
  rewrite mark_rest_get;
    [ | intros j Hj; apply (wf_addressable p);
        [ exact Hwf | rewrite Z2Nat.id in Hj; lia ]
      | exact Hg ].
  rewrite Z2Nat.id by lia.
  destruct (Z.eqb_spec g k) as [-> | Hne].
  - rewrite get_set_same by exact Hak.
    destruct (Z.leb_spec (k + 1) k); [ lia | reflexivity ].
  - rewrite get_set_other by assumption.
    destruct (Z.leb_spec (k + 1) g), (Z.ltb_spec k g),
             (Z.ltb_spec g (k + 1 + (n - 1))), (Z.ltb_spec g (k + n));
      simpl; try reflexivity; lia.
Qed.

(** C1. First fit: when the guard [nFreeFrames >= n] passes and [k] is the
    lowest start offset of a run of [n >= 1] free frames of the pool,
    [get_frames n] returns [base_frame_no + k], marks frame [k] [HoS] and
    frames [k+1 .. k+n-1] [Used], leaves every other frame as it was and
    takes [n] off [nFreeFrames]. *)
Theorem get_frames_first_fit p n k :
  pool_wf p -> 1 <= n -> n <= nFreeFrames p ->
  0 <= k -> k + n <= nframes p ->
  run_free (bitmap p) k n ->
  (forall j, 0 <= j < k -> ~ run_free (bitmap p) j n) ->
  exists p',
    get_frames p n = Returns (p', base_frame_no p + k) /\
    base_frame_no p' = base_frame_no p /\
    nframes p' = nframes p /\
    nFreeFrames p' = nFreeFrames p - n /\
    get_state (bitmap p') k = HoS /\
    (forall i, k < i < k + n -> get_state (bitmap p') i = Used) /\
    (forall g, addressable g -> ~ (k <= g < k + n) ->
               get_state (bitmap p') g = get_state (bitmap p) g).
Proof.
  intros Hwf Hn Hfc Hk Hkn Hrun Hmin.
  destruct (get_frames_found p n k) as (bm' & Hget & Hst);
    try assumption; try lia.
  eexists. split; [ exact Hget | ]. cbn [base_frame_no nframes nFreeFrames bitmap].
  repeat split.
  - rewrite Hst by (apply (wf_addressable p); [ exact Hwf | lia ]).
    rewrite Z.eqb_refl. reflexivity.
  - intros i Hi.
    rewrite Hst by (apply (wf_addressable p); [ exact Hwf | lia ]).
    destruct (Z.eqb_spec i k); [ lia | ].
    destruct (Z.ltb_spec k i), (Z.ltb_spec i (k + n)); simpl;
      try reflexivity; lia.
  - intros g Hg Hout. rewrite Hst by exact Hg.
    destruct (Z.eqb_spec g k); [ lia | ].
    destruct (Z.ltb_spec k g), (Z.ltb_spec g (k + n)); simpl;
      try reflexivity; lia.
Qed.

Lemma get_frames_guard p n :
  nFreeFrames p < n -> get_frames p n = Returns (p, 0).
Proof.
  intros Hlt. unfold get_frames.
  destruct (Z.ltb_spec (nFreeFrames p) n); [ reflexivity | lia ].
Qed.

Lemma get_frames_no_run p n :
  pool_wf p -> 1 <= n <= nframes p ->
  (forall k, 0 <= k -> k + n <= nframes p -> ~ run_free (bitmap p) k n) ->
  get_frames p n = Returns (p, 0).
Proof.
  intros Hwf Hn Hno.
  pose proof Hwf as (Hb & Hnf & Hw & H2 & H4 & Hfr).
  unfold get_frames; cbv zeta.
  destruct (Z.ltb_spec (nFreeFrames p) n) as [ Hlt | Hge ]; [ reflexivity | ].
  rewrite (to_ulong_small (nframes p - n)) by lia.
  pose proof (find_sequence_spec (bitmap p) n
                (Z.to_nat (nframes p - n + 1)) 0) as H.
  rewrite Z2Nat.id in H by lia.
  destruct (find_sequence (bitmap p) n 0 (Z.to_nat (nframes p - n + 1)))
    as [ k | ].
  - destruct H as (Hk & Hrun & _); try lia.
    exfalso. apply (Hno k); [ lia | lia | exact Hrun ].
  - unfold ULONG_MAX.
    destruct (Z.eqb_spec (nframes p - n) (ULONG_MOD - 1)); [ lia | reflexivity ].
Qed.

(** C3. Exhaustion: on a pool whose [nFreeFrames] does not exceed
    [nframes], a request for [n >= 1] frames with [nFreeFrames < n] or with
    no run of [n] free frames returns the sentinel 0 and the pool itself,
    bitmap and counter untouched. *)
Theorem get_frames_exhausted p n :
  pool_wf p -> nFreeFrames p <= nframes p -> 1 <= n ->
  (nFreeFrames p < n \/
   forall k, 0 <= k -> k + n <= nframes p -> ~ run_free (bitmap p) k n) ->
  get_frames p n = Returns (p, 0).
Proof.
  intros Hwf Hfc Hn Hno.
  destruct (Z.lt_ge_cases (nFreeFrames p) n) as [ Hlt | Hge ].
  - apply get_frames_guard. exact Hlt.
  - destruct Hno as [ Hlt | Hno ]; [ lia | ].
    apply get_frames_no_run; [ exact Hwf | lia | exact Hno ].
Qed.

Lemma addressable_0 : addressable 0.
Proof.
  pose proof UINT_MOD_ge. pose proof ULONG_MOD_ge.
  unfold addressable. change (0 * 2 / 8) with 0. change (0 * 2) with 0. lia.
Qed.

(** C10. A request for zero frames on a pool of at least one frame is
    served at start offset 0: frame 0 becomes [HoS] whatever it was, no
    other frame changes, [nFreeFrames] keeps its value and the call returns
    [base_frame_no]. *)
Theorem get_frames_zero p :
  fields_in_range p -> 1 <= nframes p ->
  exists p',
    get_frames p 0 = Returns (p', base_frame_no p) /\
    get_state (bitmap p') 0 = HoS /\
    nFreeFrames p' = nFreeFrames p /\
    base_frame_no p' = base_frame_no p /\
    nframes p' = nframes p /\
    (forall g, addressable g -> g <> 0 ->
               get_state (bitmap p') g = get_state (bitmap p) g).
Proof.
  intros (Hb & Hnf & Hfc) Hn.
  unfold get_frames; cbv zeta.
  destruct (Z.ltb_spec (nFreeFrames p) 0) as [ Hlt | _ ]; [ lia | ].
  rewrite (to_ulong_small (nframes p - 0)) by lia.
  destruct (Z.to_nat (nframes p - 0 + 1)) as [ | count ] eqn:E; [ lia | ].
  cbn [find_sequence Z.to_nat sequence_is_free].
  change (Z.to_nat (0 - 1)) with O. cbn [mark_rest].
  rewrite (to_ulong_small (nFreeFrames p - 0)) by lia.
  rewrite (to_ulong_small (base_frame_no p + 0)) by lia.
  rewrite Z.add_0_r, Z.sub_0_r.
  eexists. split; [ reflexivity | ].
  cbn [base_frame_no nframes nFreeFrames bitmap].
  split; [ apply get_set_same, addressable_0 | ].
  repeat split. intros g Hg Hne.
  apply get_set_other; [ apply addressable_0 | exact Hg | exact Hne ].
Qed.

(** ** The registry scan of release_frames *)

Lemma wf_fields p : pool_wf p -> fields_in_range p.
Proof. intros (Hb & Hn & Hw & _ & _ & Hfc). unfold fields_in_range. lia. Qed.

Lemma not_owned_test q f :
  fields_in_range q -> ~ owns q f ->
  (f >=? base_frame_no q)
  && (f <? to_ulong (base_frame_no q + nframes q)) = false.
Proof.
  intros (Hb & Hn & _) Hno. unfold owns in Hno.
  assert (Hle : to_ulong (base_frame_no q + nframes q)
                <= base_frame_no q + nframes q).
  { unfold to_ulong. apply Z.mod_le; [ lia | ].
    pose proof UINT_MOD_ge. pose proof ULONG_MOD_ge. lia. }
  destruct (Z.geb_spec f (base_frame_no q)); [ | reflexivity ].
  destruct (Z.ltb_spec f (to_ulong (base_frame_no q + nframes q)));
    [ lia | reflexivity ].
Qed.

Lemma owned_test p f :
  fields_in_range p -> base_frame_no p + nframes p < ULONG_MOD -> owns p f ->
  (f >=? base_frame_no p)
  && (f <? to_ulong (base_frame_no p + nframes p)) = true /\
  to_ulong (f - base_frame_no p) = f - base_frame_no p.
Proof.
  intros (Hb & Hn & _) Hw Ho. unfold owns in Ho.
  rewrite (to_ulong_small (base_frame_no p + nframes p)) by lia.
  rewrite (to_ulong_small (f - base_frame_no p)) by lia.
  split; [ | reflexivity ].
  destruct (Z.geb_spec f (base_frame_no p)); [ | lia ].
  destruct (Z.ltb_spec f (base_frame_no p + nframes p)); [ reflexivity | lia ].
Qed.

Lemma release_frames_skip before l f :
  (forall q, In q before -> fields_in_range q /\ ~ owns q f) ->
  release_frames (before ++ l) f =
  match release_frames l f with
  | Done l' => Done (before ++ l')
  | Fatal d l' => Fatal d (before ++ l')
  end.
Proof.
  induction before as [ | q before IH ]; intros H.
  - simpl. destruct (release_frames l f); reflexivity.
  - cbn [app release_frames].
    rewrite not_owned_test by (apply H; left; reflexivity).
    rewrite IH by (intros q' Hq'; apply H; right; exact Hq').
    destruct (release_frames l f); reflexivity.
Qed.

Lemma release_frames_not_found pools f :
  (forall q, In q pools -> fields_in_range q /\ ~ owns q f) ->
  release_frames pools f = Fatal msg_not_found pools.
Proof.
  intros H. rewrite <- (app_nil_r pools) at 1.
  rewrite release_frames_skip by exact H.
  cbn [release_frames]. rewrite app_nil_r. reflexivity.
Qed.

Lemma release_frames_not_head before p after f :
  (forall q, In q before -> fields_in_range q /\ ~ owns q f) ->
  fields_in_range p -> base_frame_no p + nframes p < ULONG_MOD ->
  owns p f ->
  get_state (bitmap p) (f - base_frame_no p) <> HoS ->
  release_frames (before ++ p :: after) f
  = Fatal msg_not_head (before ++ p :: after).
Proof.
  intros Hbefore Hp Hw Ho Hst.
  rewrite release_frames_skip by exact Hbefore.
  cbn [release_frames].
  destruct (owned_test p f Hp Hw Ho) as [Ht Hrel]. rewrite Ht, Hrel.
  destruct (get_state (bitmap p) (f - base_frame_no p));
    try reflexivity. contradiction.
Qed.

Lemma release_frames_head before p after f :
  (forall q, In q before -> fields_in_range q /\ ~ owns q f) ->
  fields_in_range p -> base_frame_no p + nframes p < ULONG_MOD ->
  owns p f ->
  get_state (bitmap p) (f - base_frame_no p) = HoS ->
  release_frames (before ++ p :: after) f
  = Done (before ++ release_sequence p (f - base_frame_no p) :: after).
Proof.
  intros Hbefore Hp Hw Ho Hst.
  rewrite release_frames_skip by exact Hbefore.
  cbn [release_frames].
  destruct (owned_test p f Hp Hw Ho) as [Ht Hrel]. rewrite Ht, Hrel, Hst.
  reflexivity.
Qed.

(** C5. Error contract of [release_frames]: a frame number in the range
    of no registered pool ends in the fatal "not found" path; a frame
    number whose (first) owning pool does not hold [HoS] for it ends in the
    fatal "not Head-of-Sequence" path; in both cases every registered pool,
    bitmap and counter included, is as before the call. *)
Theorem release_frames_error_contract pools f :
  (forall q, In q pools -> fields_in_range q) ->
  ((forall q, In q pools -> ~ owns q f) ->
   release_frames pools f = Fatal msg_not_found pools) /\
  (forall before p after,
     pools = before ++ p :: after ->
     (forall q, In q before -> ~ owns q f) ->
     base_frame_no p + nframes p < ULONG_MOD ->
     owns p f ->
     get_state (bitmap p) (f - base_frame_no p) <> HoS ->
     release_frames pools f = Fatal msg_not_head pools).
Proof.
  intros Hfields. split.
  - intros Hno. apply release_frames_not_found.
    intros q Hq. split; [ apply Hfields | apply Hno ]; exact Hq.
  - intros before p after -> Hno Hw Ho Hst.
    apply release_frames_not_head; try assumption.
    + intros q Hq. split; [ apply Hfields, in_or_app; left | apply Hno ];
        exact Hq.
    + apply Hfields, in_or_app. right. left. reflexivity.
Qed.

(** ** The constructor *)

(** C9. A pool constructed with [info_frame_no = 0] over at least one
    frame has frame 0 in state [Used] (not [HoS]) and one frame less than
    [nframes] counted free; once registered, releasing its first frame
    [base_frame_no] ends in the fatal "not Head-of-Sequence" path and
    leaves the registry as it was. *)
Theorem self_hosted_info_frame memory pools base n :
  0 <= base -> 1 <= n -> base + n < ULONG_MOD ->
  Z.of_nat (List.length pools) < Max_pools ->
  (forall q, In q pools -> fields_in_range q /\ ~ owns q base) ->
  let pool := fst (ContFramePool_new memory pools base n 0) in
  let pools' := snd (ContFramePool_new memory pools base n 0) in
  get_state (bitmap pool) 0 = Used /\
  get_state (bitmap pool) 0 <> HoS /\
  nFreeFrames pool = n - 1 /\
  base_frame_no pool = base /\
  nframes pool = n /\
  pools' = pools ++ [pool] /\
  release_frames pools' base = Fatal msg_not_head pools'.
Proof.
  intros Hb Hn Hw Hlen Hpools.
  unfold ContFramePool_new. cbn [fst snd Z.eqb].
  destruct (Z.ltb_spec (Z.of_nat (List.length pools)) Max_pools);
    [ | lia ].
  cbn [bitmap nFreeFrames base_frame_no nframes].
  assert (Hst : get_state (set_state (init_free memory 0 (Z.to_nat n)) 0 Used) 0
                = Used) by (apply get_set_same, addressable_0).
  split; [ exact Hst | ]. split; [ rewrite Hst; discriminate | ].
  split; [ apply to_ulong_small; lia | ].
  repeat split.
  apply release_frames_not_head.
  - exact Hpools.
  - unfold fields_in_range. cbn [bitmap nFreeFrames base_frame_no nframes].
    split; [ lia | ]. split; [ lia | ]. apply to_ulong_range.
  - cbn [base_frame_no nframes]. exact Hw.
  - unfold owns. cbn [base_frame_no nframes]. lia.
  - cbn [base_frame_no bitmap]. rewrite Z.sub_diag, Hst. discriminate.
Qed.

(** ** The release walk *)

Lemma to_ulong_add_l x y : to_ulong (to_ulong x + y) = to_ulong (x + y).
Proof. unfold to_ulong. apply Zplus_mod_idemp_l. Qed.

(** The walk over a stretch of [m] [Used] frames that ends at the pool
    end or at a frame that is not [Used]. *)
Lemma release_rest_run count :
  forall p c m,
    0 <= m <= Z.of_nat count ->
    0 <= nFreeFrames p < ULONG_MOD ->
    (forall j, c <= j < c + m ->
               addressable j /\ get_state (bitmap p) j = Used) ->
    (m = Z.of_nat count \/
     (addressable (c + m) /\ get_state (bitmap p) (c + m) <> Used)) ->
    base_frame_no (release_rest p c count) = base_frame_no p /\
    nframes (release_rest p c count) = nframes p /\
    info_frame_no (release_rest p c count) = info_frame_no p /\
    nFreeFrames (release_rest p c count) = to_ulong (nFreeFrames p + m) /\
    forall g, addressable g ->
      get_state (bitmap (release_rest p c count)) g =
      if (c <=? g) && (g <? c + m) then Free else get_state (bitmap p) g.
Proof.
  induction count as [ | count IH ]; intros p c m Hm Hfc Hused Hstop.
  - cbn [release_rest]. simpl in Hm. assert (m = 0) by lia. subst m.
    rewrite !Z.add_0_r, to_ulong_small by exact Hfc.
    repeat split. intros g _.
    destruct (Z.leb_spec c g), (Z.ltb_spec g c); simpl; try reflexivity; lia.
  - rewrite Nat2Z.inj_succ in *. cbn [release_rest].
    destruct (Z.eq_dec m 0) as [-> | Hm0].
    + destruct Hstop as [ Hstop | [_ Hstop] ]; [ lia | ].
      rewrite ?Z.add_0_r in *. rewrite to_ulong_small by exact Hfc.
      assert (Hret : match get_state (bitmap p) c with
                     | Used => release_rest (free_frame p c) (c + 1) count
                     | _ => p
                     end = p)
        by (destruct (get_state (bitmap p) c); try reflexivity; contradiction).
      rewrite Hret. repeat split. intros g _.
      destruct (Z.leb_spec c g), (Z.ltb_spec g c); simpl; try reflexivity; lia.
    + destruct (Hused c) as [Hac Hc]; [ lia | ]. rewrite Hc.
      destruct (IH (free_frame p c) (c + 1) (m - 1))
        as (Hb & Hn & Hi & Hf & Hg).
      * lia.
      * cbn [free_frame nFreeFrames]. apply to_ulong_range.
      * intros j Hj. destruct (Hused j) as [Haj Hj']; [ lia | ].
        split; [ exact Haj | ]. cbn [free_frame bitmap].
        rewrite get_set_other by (try assumption; lia). exact Hj'.
      * destruct Hstop as [ Hstop | [Ha Hstop] ]; [ left; lia | right ].
        replace (c + 1 + (m - 1)) with (c + m) by lia.
        split; [ exact Ha | ]. cbn [free_frame bitmap].
        rewrite get_set_other by (try assumption; lia). exact Hstop.
      * rewrite Hb, Hn, Hi, Hf. cbn [free_frame base_frame_no nframes
                                       info_frame_no nFreeFrames bitmap].
        repeat split.
        -- rewrite to_ulong_add_l. f_equal. lia.
        -- intros g Hag. rewrite Hg by exact Hag. cbn [free_frame bitmap].
           destruct (Z.eq_dec g c) as [-> | Hne].
           ++ rewrite get_set_same by exact Hac.
              destruct (Z.leb_spec (c + 1) c), (Z.leb_spec c c),
                       (Z.ltb_spec c (c + 1 + (m - 1))), (Z.ltb_spec c (c + m));
                simpl; try reflexivity; lia.
           ++ rewrite get_set_other by assumption.
              destruct (Z.leb_spec (c + 1) g), (Z.leb_spec c g),
                       (Z.ltb_spec g (c + 1 + (m - 1))), (Z.ltb_spec g (c + m));
                simpl; try reflexivity; lia.
Qed.

(** Every stretch of frames starts with a longest run of [Used] frames. *)
Lemma used_prefix bm count :
  forall c, exists m,
    0 <= m <= Z.of_nat count /\
    (forall j, c <= j < c + m -> get_state bm j = Used) /\
    (m = Z.of_nat count \/ get_state bm (c + m) <> Used).
Proof.
  induction count as [ | count IH ]; intros c.
  - exists 0. simpl. split; [ lia | ]. split; [ intros j Hj; lia | left; reflexivity ].
  - rewrite Nat2Z.inj_succ.
    destruct (get_state bm c) eqn:E;
      try (exists 0; split; [ lia | ]; split;
           [ intros j Hj; lia | right; rewrite Z.add_0_r, E; discriminate ]).
    destruct (IH (c + 1)) as (m & Hm & Hused & Hstop).
    exists (m + 1). split; [ lia | ]. split.
    + intros j Hj. destruct (Z.eq_dec j c) as [-> | Hne];
        [ exact E | apply Hused; lia ].
    + destruct Hstop as [ -> | Hstop ]; [ left; lia | right ].
      replace (c + (m + 1)) with (c + 1 + m) by lia. exact Hstop.
Qed.

(** [release_frames] on the head [r] of a run whose body is [m] frames
    long. *)
Lemma release_sequence_run p r m :
  pool_wf p -> 0 <= r < nframes p ->
  0 <= m -> r + 1 + m <= nframes p ->
  (forall j, r + 1 <= j < r + 1 + m -> get_state (bitmap p) j = Used) ->
  (r + 1 + m = nframes p \/ get_state (bitmap p) (r + 1 + m) <> Used) ->
  base_frame_no (release_sequence p r) = base_frame_no p /\
  nframes (release_sequence p r) = nframes p /\
  info_frame_no (release_sequence p r) = info_frame_no p /\
  nFreeFrames (release_sequence p r) = to_ulong (nFreeFrames p + (1 + m)) /\
  forall g, addressable g ->
    get_state (bitmap (release_sequence p r)) g =
    if (r <=? g) && (g <? r + 1 + m) then Free else get_state (bitmap p) g.
Proof.
  intros Hwf Hr Hm Hend Hused Hstop.
  pose proof Hwf as (Hb & Hnf & Hw & H2 & H4 & Hfc).
  assert (Har : addressable r) by (apply (wf_addressable p); assumption).
  unfold release_sequence; cbv zeta.
  rewrite (to_ulong_small (r + 1)) by lia.
  destruct (release_rest_run
              (Z.to_nat (nframes (free_frame p r) - (r + 1)))
              (free_frame p r) (r + 1) m) as (Hb' & Hn' & Hi' & Hf' & Hg').
  - cbn [free_frame nframes]. rewrite Z2Nat.id; lia.
  - cbn [free_frame nFreeFrames]. apply to_ulong_range.
  - intros j Hj. assert (Haj : addressable j)
      by (apply (wf_addressable p); [ exact Hwf | lia ]).
    split; [ exact Haj | ]. cbn [free_frame bitmap].
    rewrite get_set_other by (try assumption; lia). apply Hused. exact Hj.
  - cbn [free_frame nframes bitmap]. rewrite Z2Nat.id by lia.
    destruct (Z.eq_dec (r + 1 + m) (nframes p)) as [ Heq | Hneq ];
      [ left; lia | right ].
    destruct Hstop as [ Hstop | Hstop ]; [ lia | ].
    assert (Ha : addressable (r + 1 + m))
      by (apply (wf_addressable p); [ exact Hwf | lia ]).
    split; [ exact Ha | ].
    rewrite get_set_other by (try assumption; lia). exact Hstop.
  - rewrite Hb', Hn', Hi', Hf'.
    cbn [free_frame base_frame_no nframes info_frame_no nFreeFrames].
    repeat split.
    + rewrite to_ulong_add_l. f_equal. lia.
    + intros g Hg. rewrite Hg' by exact Hg. cbn [free_frame bitmap].
      destruct (Z.eq_dec g r) as [-> | Hne].
      * rewrite get_set_same by exact Har.
        destruct (Z.leb_spec (r + 1) r), (Z.leb_spec r r),
                 (Z.ltb_spec r (r + 1 + m)); simpl; try reflexivity; lia.
      * rewrite get_set_other by assumption.
        destruct (Z.leb_spec (r + 1) g), (Z.leb_spec r g),
                 (Z.ltb_spec g (r + 1 + m)); simpl; try reflexivity; lia.
Qed.

(** ** mark_inaccessible on a range of the pool *)

Lemma mark_inaccessible_marks p b n :
  pool_wf p -> base_frame_no p <= b -> b - base_frame_no p < nframes p ->
  0 <= n -> b - base_frame_no p + n <= nframes p ->
  exists bm',
    mark_inaccessible p b n =
    mkPool (base_frame_no p) (nframes p) (to_ulong (nFreeFrames p - n))
           (info_frame_no p) bm' /\
    forall g, addressable g ->
      get_state bm' g =
      if g =? b - base_frame_no p then HoS
      else if (b - base_frame_no p <? g) && (g <? b - base_frame_no p + n)
           then Reserved
           else get_state (bitmap p) g.
Proof.
  intros Hwf Hb Hr Hn Hend.
  pose proof Hwf as (Hb0 & Hnf & Hw & H2 & H4 & Hfc).
  unfold mark_inaccessible; cbv zeta.
  rewrite (to_ulong_small (b - base_frame_no p)) by lia.
  rewrite (to_ulong_small (b - base_frame_no p + n)) by lia.
  destruct (Z.geb_spec (b - base_frame_no p) (nframes p)); [ lia | ].
  destruct (Z.gtb_spec (b - base_frame_no p + n) (nframes p)); [ lia | ].
  cbn [orb]. eexists. split; [ reflexivity | ].
  intros g Hg. set (r := b - base_frame_no p) in *.
  assert (Har : addressable r) by (apply (wf_addressable p); [ exact Hwf | lia ]).
  rewrite mark_rest_get;
    [ | intros j Hj; apply (wf_addressable p); [ exact Hwf | lia ] | exact Hg ].
  destruct (Z.eqb_spec g r) as [-> | Hne].
  - rewrite get_set_same by exact Har.
    destruct (Z.leb_spec (r + 1) r); [ lia | reflexivity ].
  - rewrite get_set_other by assumption.
    destruct (Z.leb_spec (r + 1) g), (Z.ltb_spec r g),
             (Z.ltb_spec g (r + 1 + Z.of_nat (Z.to_nat (n - 1)))),
             (Z.ltb_spec g (r + n)); simpl; try reflexivity; lia.
Qed.

(** C4. After [mark_inaccessible b n] with [n > 1] on a range of the pool,
    [release_frames b] frees the head frame only: the head is [Free], the
    counter is one higher, and the frames [b+1 .. b+n-1] are [Reserved]
    before and after the release. *)
Theorem reserved_tail_not_reclaimed before p after b n :
  pool_wf p ->
  (forall q, In q before -> fields_in_range q /\ ~ owns q b) ->
  base_frame_no p <= b -> 1 < n -> b - base_frame_no p + n <= nframes p ->
  exists p2,
    release_frames (before ++ mark_inaccessible p b n :: after) b
    = Done (before ++ p2 :: after) /\
    get_state (bitmap (mark_inaccessible p b n)) (b - base_frame_no p) = HoS /\
    get_state (bitmap p2) (b - base_frame_no p) = Free /\
    (forall f, b < f < b + n ->
       get_state (bitmap (mark_inaccessible p b n)) (f - base_frame_no p)
       = Reserved /\
       get_state (bitmap p2) (f - base_frame_no p) = Reserved) /\
    (forall g, addressable g -> g <> b - base_frame_no p ->
       get_state (bitmap p2) g
       = get_state (bitmap (mark_inaccessible p b n)) g) /\
    nFreeFrames p2 = to_ulong (nFreeFrames (mark_inaccessible p b n) + 1) /\
    (nFreeFrames (mark_inaccessible p b n) < ULONG_MAX ->
     nFreeFrames p2 = nFreeFrames (mark_inaccessible p b n) + 1).
Proof.
  intros Hwf Hbefore Hb Hn Hend.
  pose proof Hwf as (Hb0 & Hnf & Hw & H2 & H4 & Hfc).
  destruct (mark_inaccessible_marks p b n) as (bm1 & Hmark & Hst);
    try assumption; try lia.
  rewrite Hmark.
  set (p1 := mkPool (base_frame_no p) (nframes p)
                    (to_ulong (nFreeFrames p - n)) (info_frame_no p) bm1).
  set (r := b - base_frame_no p) in *.
  assert (Hwf1 : pool_wf p1).
  { unfold pool_wf, p1. cbn [base_frame_no nframes nFreeFrames].
    repeat split; try lia; apply to_ulong_range. }
  assert (Har : addressable r) by (apply (wf_addressable p); [ exact Hwf | lia ]).
  assert (Hhead : get_state bm1 r = HoS)
    by (rewrite Hst by exact Har; rewrite Z.eqb_refl; reflexivity).
  assert (Htail : forall i, r < i < r + n -> get_state bm1 i = Reserved).
  { intros i Hi.
    rewrite Hst by (apply (wf_addressable p); [ exact Hwf | lia ]).
    destruct (Z.eqb_spec i r); [ lia | ].
    destruct (Z.ltb_spec r i), (Z.ltb_spec i (r + n)); simpl;
      try reflexivity; lia. }
  destruct (release_sequence_run p1 r 0) as (Hb2 & Hn2 & Hi2 & Hf2 & Hg2);
    try assumption.
  - cbn [p1 nframes]. lia.
  - lia.
  - cbn [p1 nframes]. lia.
  - intros j Hj. lia.
  - right. cbn [p1 bitmap]. rewrite Htail by lia. discriminate.
  - exists (release_sequence p1 r). split.
    + replace r with (b - base_frame_no p1) by reflexivity.
      apply release_frames_head.
      * exact Hbefore.
      * apply wf_fields, Hwf1.
      * cbn [p1 base_frame_no nframes]. lia.
      * unfold owns. cbn [p1 base_frame_no nframes]. lia.
      * exact Hhead.
    + cbn [p1 bitmap nFreeFrames] in *.
      split; [ exact Hhead | ].
      split.
      { rewrite Hg2 by exact Har.
        destruct (Z.leb_spec r r), (Z.ltb_spec r (r + 1 + 0)); simpl;
          try reflexivity; lia. }
      split.
      { intros f Hf. assert (Hi : r < f - base_frame_no p < r + n)
          by (unfold r; lia).
        split; [ apply Htail; exact Hi | ].
        rewrite Hg2 by (apply (wf_addressable p); [ exact Hwf | lia ]).
        destruct (Z.leb_spec r (f - base_frame_no p)),
                 (Z.ltb_spec (f - base_frame_no p) (r + 1 + 0)); simpl;
          try (apply Htail; exact Hi); lia. }
      split.
      { intros g Hg Hne. rewrite Hg2 by exact Hg.
        destruct (Z.leb_spec r g), (Z.ltb_spec g (r + 1 + 0)); simpl;
          try reflexivity; lia. }
      split; [ exact Hf2 | ].
      intros Hlt. rewrite Hf2. apply to_ulong_small.
      pose proof (to_ulong_range (nFreeFrames p - n)). unfold ULONG_MAX in Hlt.
      lia.
Qed.

(** ** Allocation followed by release *)

Lemma least_run bm n s :
  0 <= n -> 0 <= s -> s + n <= ULONG_MOD -> run_free bm s n ->
  exists k, 0 <= k <= s /\ run_free bm k n /\
            forall j, 0 <= j < k -> ~ run_free bm j n.
Proof.
  intros Hn Hs Hle Hrun.
  pose proof (find_sequence_spec bm n (Z.to_nat (s + 1)) 0) as H.
  rewrite Z2Nat.id in H by lia.
  destruct (find_sequence bm n 0 (Z.to_nat (s + 1))) as [ k | ].
  - destruct H as (Hk & Hrunk & Hmin); try lia.
    exists k. split; [ lia | ]. split; assumption.
  - exfalso. apply (H ltac:(lia) ltac:(lia) ltac:(lia) s); [ lia | exact Hrun ].
Qed.

(** C2. Round trip: on a pool in which no [Used] frame directly follows a
    [Free] one, and which is the first registered pool to own its frames,
    a request for [n] frames ([1 <= n <= nFreeFrames]) that some free run
    can serve succeeds, and releasing the frame number it returns makes
    every frame of the allocated range [Free] again and gives
    [nFreeFrames] its value from before the allocation; every frame of
    the pool is then in the state it had before. *)
Theorem get_release_round_trip before p after n s :
  pool_wf p -> used_continues_run p ->
  (forall q, In q before ->
     fields_in_range q /\ forall f, owns p f -> ~ owns q f) ->
  1 <= n -> n <= nFreeFrames p ->
  0 <= s -> s + n <= nframes p -> run_free (bitmap p) s n ->
  exists p' f p'',
    get_frames p n = Returns (p', f) /\
    release_frames (before ++ p' :: after) f = Done (before ++ p'' :: after) /\
    (forall g, f <= g < f + n ->
       get_state (bitmap p') (g - base_frame_no p) <> Free /\
       get_state (bitmap p'') (g - base_frame_no p) = Free) /\
    nFreeFrames p' = nFreeFrames p - n /\
    nFreeFrames p'' = nFreeFrames p /\
    same_frames p'' p.
Proof.
  intros Hwf Hinv Hbefore Hn Hfc Hs Hsn Hrun.
  pose proof Hwf as (Hb0 & Hnf & Hw & H2 & H4 & Hfr).
  destruct (least_run (bitmap p) n s) as (k & Hk & Hrunk & Hmin);
    try assumption; try lia.
  destruct (get_frames_found p n k) as (bm1 & Hget & Hst);
    try assumption; try lia.
  set (p1 := mkPool (base_frame_no p) (nframes p) (nFreeFrames p - n)
                    (info_frame_no p) bm1) in *.
  assert (Hwf1 : pool_wf p1).
  { unfold pool_wf, p1. cbn [base_frame_no nframes nFreeFrames].
    repeat split; lia. }
  assert (Hak : addressable k) by (apply (wf_addressable p); [ exact Hwf | lia ]).
  assert (Hhead : get_state bm1 k = HoS)
    by (rewrite Hst by exact Hak; rewrite Z.eqb_refl; reflexivity).
  assert (Hbody : forall i, k < i < k + n -> get_state bm1 i = Used).
  { intros i Hi.
    rewrite Hst by (apply (wf_addressable p); [ exact Hwf | lia ]).
    destruct (Z.eqb_spec i k); [ lia | ].
    destruct (Z.ltb_spec k i), (Z.ltb_spec i (k + n)); simpl;
      try reflexivity; lia. }
  destruct (release_sequence_run p1 k (n - 1)) as (Hb2 & Hn2 & Hi2 & Hf2 & Hg2);
    try assumption.
  - cbn [p1 nframes]. lia.
  - lia.
  - cbn [p1 nframes]. lia.
  - intros j Hj. cbn [p1 bitmap]. apply Hbody. lia.
  - cbn [p1 nframes bitmap].
    destruct (Z.eq_dec (k + 1 + (n - 1)) (nframes p)) as [ Heq | Hneq ];
      [ left; exact Heq | right ].
    rewrite Hst by (apply (wf_addressable p); [ exact Hwf | lia ]).
    destruct (Z.eqb_spec (k + 1 + (n - 1)) k); [ lia | ].
    destruct (Z.ltb_spec k (k + 1 + (n - 1))),
             (Z.ltb_spec (k + 1 + (n - 1)) (k + n)); simpl; try lia.
    replace (k + 1 + (n - 1)) with (k + n - 1 + 1) by lia.
    apply Hinv; [ lia | lia | ]. apply Hrunk. lia.
  - exists p1, (base_frame_no p + k), (release_sequence p1 k).
    split; [ exact Hget | ]. split.
    + replace k with (base_frame_no p + k - base_frame_no p1) at 2
        by (cbn [p1 base_frame_no]; lia).
      apply release_frames_head.
      * intros q Hq. destruct (Hbefore q Hq) as [Hfq Hno].
        split; [ exact Hfq | ]. apply Hno. unfold owns. lia.
      * apply wf_fields, Hwf1.
      * cbn [p1 base_frame_no nframes]. lia.
      * unfold owns. cbn [p1 base_frame_no nframes]. lia.
      * cbn [p1 base_frame_no bitmap].
        replace (base_frame_no p + k - base_frame_no p) with k by lia.
        exact Hhead.
    + cbn [p1 bitmap nFreeFrames base_frame_no nframes] in *.
      split.
      { intros g Hg.
        assert (Hi : k <= g - base_frame_no p < k + n) by lia.
        split.
        - destruct (Z.eq_dec (g - base_frame_no p) k) as [ -> | Hne ].
          + rewrite Hhead. discriminate.
          + rewrite Hbody by lia. discriminate.
        - rewrite Hg2 by (apply (wf_addressable p); [ exact Hwf | lia ]).
          destruct (Z.leb_spec k (g - base_frame_no p)),
                   (Z.ltb_spec (g - base_frame_no p) (k + 1 + (n - 1)));
            simpl; try reflexivity; lia. }
      assert (Hfc2 : nFreeFrames (release_sequence p1 k) = nFreeFrames p).
      { rewrite Hf2. replace (nFreeFrames p - n + (1 + (n - 1)))
          with (nFreeFrames p) by lia.
        apply to_ulong_small. exact Hfr. }
      split; [ reflexivity | ]. split; [ exact Hfc2 | ].
      unfold same_frames. split; [ exact Hb2 | ]. split; [ exact Hn2 | ].
      split; [ exact Hfc2 | ].
      intros g Hg. rewrite Hg2 by exact Hg.
      destruct (Z.leb_spec k g), (Z.ltb_spec g (k + 1 + (n - 1))); simpl.
      * symmetry. apply Hrunk. lia.
      * rewrite Hst by exact Hg. destruct (Z.eqb_spec g k); [ lia | ].
        destruct (Z.ltb_spec k g), (Z.ltb_spec g (k + n)); simpl;
          try reflexivity; lia.
      * rewrite Hst by exact Hg. destruct (Z.eqb_spec g k); [ lia | ].
        destruct (Z.ltb_spec k g), (Z.ltb_spec g (k + n)); simpl;
          try reflexivity; lia.
      * lia.
Qed.

(** ** needed_info_frames *)

(** [ceil_div a b] is the least [q] with [a <= q * b]. *)
Lemma ceil_div_least a b :
  0 < b -> a <= ceil_div a b * b /\ (ceil_div a b - 1) * b < a.
Proof using.
  clear.
  intros Hb. unfold ceil_div.
  pose proof (Z.div_mod (- a) b ltac:(lia)) as Hdm.
  pose proof (Z.mod_pos_bound (- a) b Hb) as Hr.
  nia.
Qed.

Lemma ceil_div_round_up a b : 0 < b -> ceil_div a b = (a + b - 1) / b.
Proof using.
  clear.
  intros Hb. destruct (ceil_div_least a b Hb) as [Hle Hlt].
  apply Z.div_unique_pos with (r := a + b - 1 - b * ceil_div a b); nia.
Qed.

(** C8 (amended). When [n * 2 + 7] and the byte count plus
    [FRAME_SIZE - 1] fit [unsigned long], [needed_info_frames n] is
    [ceil (ceil (n * 2 / 8) / FRAME_SIZE)] exactly. *)
Theorem needed_info_frames_exact n :
  0 <= n -> n * 2 + 7 < ULONG_MOD ->
  ceil_div (n * 2) 8 + FRAME_SIZE - 1 < ULONG_MOD ->
  needed_info_frames n = ceil_div (ceil_div (n * 2) 8) FRAME_SIZE.
Proof using FRAME_SIZE_pos.
  clear int_bits_min long_bits_min.
  intros Hn Hfit Hfit2. unfold needed_info_frames; cbv zeta.
  rewrite (ceil_div_round_up (n * 2) 8) in * by lia.
  rewrite (ceil_div_round_up _ FRAME_SIZE) by exact FRAME_SIZE_pos.
  rewrite (to_ulong_small (n * 2)) by lia.
  replace (n * 2 + 8 - 1) with (n * 2 + 7) in * by lia.
  rewrite (to_ulong_small (n * 2 + 7)) by lia.
  assert (H0 : 0 <= (n * 2 + 7) / 8) by (apply Z.div_pos; lia).
  replace (to_ulong (to_ulong ((n * 2 + 7) / 8 + FRAME_SIZE) - 1))
    with (to_ulong ((n * 2 + 7) / 8 + FRAME_SIZE - 1))
    by (unfold to_ulong; symmetry; apply Zminus_mod_idemp_l).
  rewrite to_ulong_small by lia.
  reflexivity.
Qed.

(** ** mark_inaccessible outside the pool *)

(** A range that is not inside the pool is rejected by the guard, as long
    as the sum [relative_base + _n_frames] does not wrap. *)
Lemma mark_inaccessible_out_of_range p b n :
  pool_wf p -> 0 <= b < ULONG_MOD -> 0 <= n ->
  b - base_frame_no p + n < ULONG_MOD ->
  ~ (base_frame_no p <= b /\ b - base_frame_no p + n <= nframes p) ->
  mark_inaccessible p b n = p.
Proof.
  intros Hwf Hb Hn Hsum Hout.
  pose proof Hwf as (Hb0 & Hnf & Hw & H2 & H4 & Hfc).
  unfold mark_inaccessible; cbv zeta.
  destruct (Z.lt_ge_cases b (base_frame_no p)) as [ Hlt | Hge ].
  - assert (Hrel : to_ulong (b - base_frame_no p)
                   = b - base_frame_no p + ULONG_MOD).
    { unfold to_ulong. symmetry.
      apply Z.mod_unique_pos with (q := -1); lia. }
    rewrite Hrel.
    destruct (Z.geb_spec (b - base_frame_no p + ULONG_MOD) (nframes p));
      [ reflexivity | lia ].
  - rewrite (to_ulong_small (b - base_frame_no p)) by lia.
    rewrite (to_ulong_small (b - base_frame_no p + n)) by lia.
    destruct (Z.geb_spec (b - base_frame_no p) (nframes p)); [ reflexivity | ].
    destruct (Z.gtb_spec (b - base_frame_no p + n) (nframes p));
      [ reflexivity | lia ].
Qed.

Lemma get_state_eq bm f :
  get_state bm f
  = state_of_code (byte_get (bm (slot_index f)) (slot_offset f)).
Proof. reflexivity. Qed.

Lemma set_state_eq bm f s a :
  set_state bm f s a =
  if a =? slot_index f
  then byte_set (bm (slot_index f)) (slot_offset f) (state_code s)
  else bm a.
Proof. reflexivity. Qed.

Lemma to_ulong_double_even f : to_ulong (f * 2) mod 2 = 0.
Proof.
  unfold to_ulong.
  rewrite Z.mod_mod_divide.
  - apply Z.mod_mul. lia.
  - exists (2 ^ (long_bits - 1)). rewrite ULONG_MOD_even. lia.
Qed.

Lemma slot_offset_bit f : In (slot_offset f) bit_offsets.
Proof.
  unfold slot_offset. pose proof (to_ulong_double_even f) as He.
  pose proof (to_ulong_range (f * 2)) as Hr. pose proof UINT_MOD_ge.
  rewrite to_uint_small by (Z.div_mod_to_equations; lia).
  unfold bit_offsets. simpl.
  assert (H8 : to_ulong (f * 2) mod 8 = 0 \/ to_ulong (f * 2) mod 8 = 2 \/
               to_ulong (f * 2) mod 8 = 4 \/ to_ulong (f * 2) mod 8 = 6)
    by (Z.div_mod_to_equations; lia).
  intuition auto.
Qed.

(** Reading after writing, for arbitrary frame numbers: frame numbers that
    wrap onto the same bitmap slot alias each other. *)
Lemma get_set_slot bm f s g :
  get_state (set_state bm f s) g
  = if same_slot f g then s else get_state bm g.
Proof.
  rewrite !get_state_eq, set_state_eq. unfold same_slot.
  rewrite (Z.eqb_sym (slot_index f) (slot_index g)).
  destruct (Z.eqb_spec (slot_index g) (slot_index f)) as [ Hi | Hi ];
    [ | reflexivity ].
  rewrite Hi. cbn [andb].
  destruct (byte_slots (bm (slot_index f)) (slot_offset f) (state_code s))
    as [Hsame Hother];
    [ apply slot_offset_bit | apply state_code_In | ].
  destruct (Z.eqb_spec (slot_offset f) (slot_offset g)) as [ Ho | Ho ].
  - rewrite <- Ho, Hsame. apply state_of_code_code.
  - rewrite Hother; [ reflexivity | apply slot_offset_bit | congruence ].
Qed.

Lemma same_slot_refl g : same_slot g g = true.
Proof. unfold same_slot. rewrite !Z.eqb_refl. reflexivity. Qed.

Lemma mark_rest_cases s first count :
  forall bm i g,
    get_state (mark_rest bm first s i count) g = s \/
    get_state (mark_rest bm first s i count) g = get_state bm g.
Proof.
  induction count as [ | count IH ]; intros bm i g.
  - right. reflexivity.
  - cbn [mark_rest].
    destruct (IH (set_state bm (to_ulong (first + i)) s) (i + 1) g)
      as [ H | H ]; [ left; exact H | ].
    rewrite H, get_set_slot.
    destruct (same_slot (to_ulong (first + i)) g); [ left | right ];
      reflexivity.
Qed.

(** A slot some iteration of the marking loop writes holds the marked
    state at the end. *)
Lemma mark_rest_written s first count :
  forall bm i g j,
    i <= j < i + Z.of_nat count ->
    same_slot (to_ulong (first + j)) g = true ->
    get_state (mark_rest bm first s i count) g = s.
Proof.
  induction count as [ | count IH ]; intros bm i g j Hj Hslot.
  - simpl in Hj. lia.
  - rewrite Nat2Z.inj_succ in Hj. cbn [mark_rest].
    destruct (Z.eq_dec j i) as [ -> | Hne ].
    + destruct (mark_rest_cases s first count
                  (set_state bm (to_ulong (first + i)) s) (i + 1) g)
        as [ H | H ]; [ exact H | ].
      rewrite H, get_set_slot, Hslot. reflexivity.
    + apply (IH _ _ _ j); [ lia | exact Hslot ].
Qed.

(** C6 (defect). When [relative_base + _n_frames] wraps, the guard of
    [mark_inaccessible] lets a range through that ends far behind the
    pool: the counter changes and every frame above the head, up to the
    largest frame number, is marked [Reserved]. *)
Theorem mark_inaccessible_sum_wraps p b n :
  pool_wf p -> base_frame_no p <= b -> b - base_frame_no p < nframes p ->
  0 < n < ULONG_MOD ->
  ULONG_MOD <= b - base_frame_no p + n ->
  b - base_frame_no p + n - ULONG_MOD <= nframes p ->
  ~ (b - base_frame_no p + n <= nframes p) /\
  nFreeFrames (mark_inaccessible p b n) = to_ulong (nFreeFrames p - n) /\
  nFreeFrames (mark_inaccessible p b n) <> nFreeFrames p /\
  forall g, b - base_frame_no p < g < ULONG_MOD ->
            get_state (bitmap (mark_inaccessible p b n)) g = Reserved.
Proof.
  intros Hwf Hb Hr Hn Hwrap Hend.
  pose proof Hwf as (Hb0 & Hnf & Hw & H2 & H4 & Hfc).
  split; [ lia | ].
  unfold mark_inaccessible; cbv zeta.
  rewrite (to_ulong_small (b - base_frame_no p)) by lia.
  assert (Hsum : to_ulong (b - base_frame_no p + n)
                 = b - base_frame_no p + n - ULONG_MOD).
  { unfold to_ulong. symmetry. apply Z.mod_unique_pos with (q := 1); lia. }
  rewrite Hsum.
  destruct (Z.geb_spec (b - base_frame_no p) (nframes p)); [ lia | ].
  destruct (Z.gtb_spec (b - base_frame_no p + n - ULONG_MOD) (nframes p));
    [ lia | ].
  cbn [orb nFreeFrames bitmap].
  split; [ reflexivity | ]. split.
  - unfold to_ulong. intros Heq.
    pose proof (Z.div_mod (nFreeFrames p - n) ULONG_MOD ltac:(lia)) as Hdm.
    rewrite Heq in Hdm.
    set (q := (nFreeFrames p - n) / ULONG_MOD) in *.
    destruct (Z.le_gt_cases q (-1)); nia.
  - intros g Hg.
    apply (mark_rest_written Reserved _ _ _ _ _ (g - (b - base_frame_no p))).
    + rewrite Z2Nat.id by lia. lia.
    + replace (b - base_frame_no p + (g - (b - base_frame_no p))) with g by lia.
      rewrite to_ulong_small by lia. apply same_slot_refl.
Qed.

(** ** Counting free frames *)

Lemma FrameState_eqb_Free s : FrameState_eqb s Free = true <-> s = Free.
Proof. destruct s; simpl; split; intros H; try reflexivity; discriminate H. Qed.

Lemma count_free_bounds bm k : 0 <= count_free bm k <= Z.of_nat k.
Proof.
  induction k as [ | k IH ]; [ simpl; lia | ].
  rewrite Nat2Z.inj_succ. cbn [count_free].
  destruct (FrameState_eqb (get_state bm (Z.of_nat k)) Free); lia.
Qed.

(** Two bitmaps that differ on the frames [a .. b-1] only, free in the
    first and not free in the second. *)
Lemma count_free_interval bm bm' a b k :
  0 <= a <= b ->
  (forall f, 0 <= f < Z.of_nat k -> a <= f < b ->
             get_state bm f = Free /\ get_state bm' f <> Free) ->
  (forall f, 0 <= f < Z.of_nat k -> ~ (a <= f < b) ->
             get_state bm' f = get_state bm f) ->
  count_free bm' k
  = count_free bm k - Z.max 0 (Z.min b (Z.of_nat k) - a).
Proof.
  intros Hab. induction k as [ | k IH ]; intros Hin Hout.
  - simpl. lia.
  - rewrite Nat2Z.inj_succ in *. cbn [count_free].
    rewrite IH;
      [ | intros f Hf Hfab; apply Hin; [ lia | exact Hfab ]
        | intros f Hf Hfab; apply Hout; [ lia | exact Hfab ] ].
    destruct (Z.lt_ge_cases (Z.of_nat k) a) as [ Hlt | Hge ];
      [ | destruct (Z.lt_ge_cases (Z.of_nat k) b) as [ Hltb | Hgeb ] ].
    + rewrite Hout by lia.
      destruct (FrameState_eqb (get_state bm (Z.of_nat k)) Free); lia.
    + destruct (Hin (Z.of_nat k)) as [Hf Hnf]; [ lia | lia | ].
      rewrite Hf. cbn [FrameState_eqb].
      destruct (FrameState_eqb (get_state bm' (Z.of_nat k)) Free) eqn:E;
        [ apply FrameState_eqb_Free in E; contradiction | lia ].
    + rewrite Hout by lia.
      destruct (FrameState_eqb (get_state bm (Z.of_nat k)) Free); lia.
Qed.

Lemma count_free_all_free bm k :
  (forall f, 0 <= f < Z.of_nat k -> get_state bm f = Free) ->
  count_free bm k = Z.of_nat k.
Proof.
  induction k as [ | k IH ]; intros H; [ reflexivity | ].
  rewrite Nat2Z.inj_succ in *. cbn [count_free].
  rewrite IH by (intros f Hf; apply H; lia).
  rewrite H by lia. simpl. lia.
Qed.

(** Frame states after the initialisation loop of the constructor. *)
Lemma init_free_get count :
  forall bm fno g,
    (forall j, fno <= j < fno + Z.of_nat count -> addressable j) ->
    addressable g ->
    get_state (init_free bm fno count) g =
    if (fno <=? g) && (g <? fno + Z.of_nat count)
    then Free else get_state bm g.
Proof.
  induction count as [ | count IH ]; intros bm fno g Hrun Hg.
  - cbn [init_free]. simpl Z.of_nat.
    destruct (Z.leb_spec fno g), (Z.ltb_spec g (fno + 0));
      try reflexivity; lia.
  - cbn [init_free]. rewrite Nat2Z.inj_succ in *.
    assert (Ha : addressable fno) by (apply Hrun; lia).
    rewrite IH; [ | intros j Hj; apply Hrun; lia | exact Hg ].
    destruct (Z.eq_dec g fno) as [-> | Hne].
    + rewrite get_set_same by exact Ha.
      destruct (Z.leb_spec (fno + 1) fno), (Z.leb_spec fno fno),
               (Z.ltb_spec fno (fno + Z.succ (Z.of_nat count)));
        simpl; try reflexivity; lia.
    + rewrite get_set_other by assumption.
      destruct (Z.leb_spec (fno + 1) g), (Z.leb_spec fno g),
               (Z.ltb_spec g (fno + 1 + Z.of_nat count)),
               (Z.ltb_spec g (fno + Z.succ (Z.of_nat count)));
        simpl; try reflexivity; lia.
Qed.

Lemma small_addressable n f :
  n * 2 <= ULONG_MOD -> n <= 4 * UINT_MOD -> 0 <= f < n -> addressable f.
Proof.
  intros H2 H4 Hf. unfold addressable.
  repeat split; try lia. Z.div_mod_to_equations. lia.
Qed.

(** ** Consistency of the free counter *)

Lemma constructor_consistent memory pools base n info :
  1 <= n -> n * 2 <= ULONG_MOD -> n <= 4 * UINT_MOD ->
  free_count_consistent (fst (ContFramePool_new memory pools base n info)).
Proof.
  intros Hn H2 H4. unfold ContFramePool_new. cbn [fst].
  set (bm0 := init_free memory 0 (Z.to_nat n)).
  assert (Hfree : forall f, 0 <= f < n -> get_state bm0 f = Free).
  { intros f Hf. unfold bm0. rewrite init_free_get.
    - rewrite Z2Nat.id by lia.
      destruct (Z.leb_spec 0 f), (Z.ltb_spec f (0 + n)); simpl;
        try reflexivity; lia.
    - intros j Hj. rewrite Z2Nat.id in Hj by lia.
      apply (small_addressable n); assumption || lia.
    - apply (small_addressable n); assumption || lia. }
  assert (Hcount : count_free bm0 (Z.to_nat n) = n).
  { rewrite count_free_all_free; [ apply Z2Nat.id; lia | ].
    intros f Hf. rewrite Z2Nat.id in Hf by lia. apply Hfree. exact Hf. }
  destruct (info =? 0); unfold free_count_consistent;
    cbn [nFreeFrames bitmap nframes]; [ | symmetry; exact Hcount ].
  pose proof ULONG_MOD_ge. pose proof UINT_MOD_ge.
  rewrite to_ulong_small by lia.
  rewrite (count_free_interval bm0 (set_state bm0 0 Used) 0 1).
  - rewrite Hcount, Z2Nat.id by lia. lia.
  - lia.
  - intros f Hf Hf1. assert (f = 0) by lia. subst f.
    split; [ apply Hfree; lia | ].
    rewrite get_set_same by apply addressable_0. discriminate.
  - intros f Hf Hf1. rewrite Z2Nat.id in Hf by lia.
    apply get_set_other;
      [ apply addressable_0 | apply (small_addressable n); assumption || lia
        | lia ].
Qed.

Lemma get_frames_consistent p n :
  pool_wf p -> free_count_consistent p -> 1 <= n ->
  exists p' f,
    get_frames p n = Returns (p', f) /\
    pool_wf p' /\ free_count_consistent p'.
Proof.
  intros Hwf Hc Hn.
  pose proof Hwf as (Hb & Hnf & Hw & H2 & H4 & Hfr).
  pose proof (count_free_bounds (bitmap p) (Z.to_nat (nframes p))) as Hcb.
  rewrite Z2Nat.id in Hcb by lia. unfold free_count_consistent in Hc.
  destruct (Z.lt_ge_cases (nFreeFrames p) n) as [ Hlt | Hge ].
  - exists p, 0. rewrite get_frames_guard by exact Hlt.
    split; [ reflexivity | split; [ exact Hwf | exact Hc ] ].
  - pose proof (find_sequence_spec (bitmap p) n
                  (Z.to_nat (nframes p - n + 1)) 0) as H.
    rewrite Z2Nat.id in H by lia.
    destruct (find_sequence (bitmap p) n 0 (Z.to_nat (nframes p - n + 1)))
      as [ k | ].
    + destruct H as (Hk & Hrun & Hmin); try lia.
      destruct (get_frames_found p n k) as (bm1 & Hget & Hst);
        try assumption; try lia.
      assert (Hcount : count_free bm1 (Z.to_nat (nframes p))
                       = nFreeFrames p - n).
      { rewrite (count_free_interval (bitmap p) bm1 k (k + n)).
        - rewrite <- Hc, Z2Nat.id by lia. lia.
        - lia.
        - intros f Hf Hfk. split; [ apply Hrun; exact Hfk | ].
          rewrite Hst by (apply (wf_addressable p); [ exact Hwf | lia ]).
          destruct (Z.eqb_spec f k); [ discriminate | ].
          destruct (Z.ltb_spec k f), (Z.ltb_spec f (k + n)); simpl;
            try discriminate; lia.
        - intros f Hf Hfk. rewrite Z2Nat.id in Hf by lia.
          rewrite Hst by (apply (wf_addressable p); [ exact Hwf | lia ]).
          destruct (Z.eqb_spec f k); [ lia | ].
          destruct (Z.ltb_spec k f), (Z.ltb_spec f (k + n)); simpl;
            try reflexivity; lia. }
      eexists. eexists. split; [ exact Hget | ].
      unfold pool_wf, free_count_consistent.
      cbn [base_frame_no nframes nFreeFrames bitmap].
      split; [ | symmetry; exact Hcount ].
      repeat split; lia.
    + exists p, 0. rewrite get_frames_no_run; try assumption; try lia.
      * split; [ reflexivity | split; [ exact Hwf | exact Hc ] ].
      * intros k Hk Hkn. apply H; lia.
Qed.

Lemma mark_inaccessible_consistent p b n :
  pool_wf p -> free_count_consistent p ->
  base_frame_no p <= b -> 1 <= n -> b - base_frame_no p + n <= nframes p ->
  run_free (bitmap p) (b - base_frame_no p) n ->
  pool_wf (mark_inaccessible p b n) /\
  free_count_consistent (mark_inaccessible p b n).
Proof.
  intros Hwf Hc Hb Hn Hend Hrun.
  pose proof Hwf as (Hb0 & Hnf & Hw & H2 & H4 & Hfr).
  destruct (mark_inaccessible_marks p b n) as (bm1 & Hmark & Hst);
    try assumption; try lia.
  rewrite Hmark. set (r := b - base_frame_no p) in *.
  unfold free_count_consistent in *.
  assert (Hcount : count_free bm1 (Z.to_nat (nframes p))
                   = nFreeFrames p - n).
  { rewrite (count_free_interval (bitmap p) bm1 r (r + n)).
    - rewrite <- Hc, Z2Nat.id by lia. lia.
    - lia.
    - intros f Hf Hfr'. split; [ apply Hrun; exact Hfr' | ].
      rewrite Hst by (apply (wf_addressable p); [ exact Hwf | lia ]).
      destruct (Z.eqb_spec f r); [ discriminate | ].
      destruct (Z.ltb_spec r f), (Z.ltb_spec f (r + n)); simpl;
        try discriminate; lia.
    - intros f Hf Hfr'. rewrite Z2Nat.id in Hf by lia.
      rewrite Hst by (apply (wf_addressable p); [ exact Hwf | lia ]).
      destruct (Z.eqb_spec f r); [ lia | ].
      destruct (Z.ltb_spec r f), (Z.ltb_spec f (r + n)); simpl;
        try reflexivity; lia. }
  pose proof (count_free_bounds bm1 (Z.to_nat (nframes p))) as Hcb.
  rewrite Z2Nat.id in Hcb by lia.
  unfold pool_wf. cbn [base_frame_no nframes nFreeFrames bitmap].
  rewrite to_ulong_small by lia.
  split; [ repeat split; lia | symmetry; exact Hcount ].
Qed.

Lemma release_sequence_consistent p r :
  pool_wf p -> free_count_consistent p ->
  0 <= r < nframes p -> get_state (bitmap p) r = HoS ->
  pool_wf (release_sequence p r) /\
  free_count_consistent (release_sequence p r).
Proof.
  intros Hwf Hc Hr Hhead.
  pose proof Hwf as (Hb0 & Hnf & Hw & H2 & H4 & Hfr).
  destruct (used_prefix (bitmap p) (Z.to_nat (nframes p - (r + 1))) (r + 1))
    as (m & Hm & Hused & Hstop).
  rewrite Z2Nat.id in Hm, Hstop by lia.
  destruct (release_sequence_run p r m) as (Hb2 & Hn2 & Hi2 & Hf2 & Hg2);
    try assumption; try lia.
  { destruct Hstop as [ -> | Hstop ]; [ left; lia | right; exact Hstop ]. }
  unfold free_count_consistent in *.
  assert (Hcount : count_free (bitmap p) (Z.to_nat (nframes p))
                   = count_free (bitmap (release_sequence p r))
                                (Z.to_nat (nframes p)) - (1 + m)).
  { rewrite (count_free_interval (bitmap (release_sequence p r)) (bitmap p)
               r (r + 1 + m)).
    - rewrite Z2Nat.id by lia. lia.
    - lia.
    - intros f Hf Hfr'. rewrite Z2Nat.id in Hf by lia. split.
      + rewrite Hg2 by (apply (wf_addressable p); [ exact Hwf | lia ]).
        destruct (Z.leb_spec r f), (Z.ltb_spec f (r + 1 + m)); simpl;
          try reflexivity; lia.
      + destruct (Z.eq_dec f r) as [ -> | Hne ].
        * rewrite Hhead. discriminate.
        * rewrite Hused by lia. discriminate.
    - intros f Hf Hfr'. rewrite Z2Nat.id in Hf by lia.
      rewrite Hg2 by (apply (wf_addressable p); [ exact Hwf | lia ]).
      destruct (Z.leb_spec r f), (Z.ltb_spec f (r + 1 + m)); simpl;
        try reflexivity; lia. }
  pose proof (count_free_bounds (bitmap (release_sequence p r))
                                (Z.to_nat (nframes p))) as Hcb.
  rewrite Z2Nat.id in Hcb by lia.
  rewrite Hn2, Hf2. unfold pool_wf. rewrite Hb2, Hn2, Hf2.
  rewrite to_ulong_small by lia.
  split; [ repeat split; lia | lia ].
Qed.

Lemma release_frames_consistent pools f :
  (forall q, In q pools -> pool_wf q /\ free_count_consistent q) ->
  forall q', In q' (outcome_pools (release_frames pools f)) ->
             pool_wf q' /\ free_count_consistent q'.
Proof.
  induction pools as [ | p rest IH ]; intros Hall q' Hq'.
  - simpl in Hq'. contradiction.
  - cbn [release_frames] in Hq'.
    destruct (Hall p (or_introl eq_refl)) as [Hwf Hc].
    pose proof Hwf as (Hb0 & Hnf & Hw & H2 & H4 & Hfr).
    rewrite (to_ulong_small (base_frame_no p + nframes p)) in Hq' by lia.
    destruct (Z.geb_spec f (base_frame_no p)) as [ Hge | Hlt ];
      [ destruct (Z.ltb_spec f (base_frame_no p + nframes p)) as [ Hin | Hout ] | ];
      cbn [andb] in Hq'.
    + rewrite (to_ulong_small (f - base_frame_no p)) in Hq' by lia.
      destruct (get_state (bitmap p) (f - base_frame_no p)) eqn:E;
        cbn [outcome_pools] in Hq';
        try (apply Hall; exact Hq').
      destruct Hq' as [ <- | Hq' ];
        [ | apply Hall; right; exact Hq' ].
      apply release_sequence_consistent; try assumption. lia.
    + destruct (release_frames rest f) eqn:E; cbn [outcome_pools] in *;
        (destruct Hq' as [ <- | Hq' ];
         [ apply Hall; left; reflexivity
         | apply IH; [ intros q Hq; apply Hall; right; exact Hq | exact Hq' ] ]).
    + destruct (release_frames rest f) eqn:E; cbn [outcome_pools] in *;
        (destruct Hq' as [ <- | Hq' ];
         [ apply Hall; left; reflexivity
         | apply IH; [ intros q Hq; apply Hall; right; exact Hq | exact Hq' ] ]).
Qed.

(** C7 (amended). The counter [nFreeFrames] equals the number of [Free]
    frames of the pool after construction over at least one frame, and
    this is kept by [get_frames n] for [n >= 1], by [mark_inaccessible b n]
    for [n >= 1] when [b - base_frame_no + n] does not wrap and the target,
    if inside the pool, is entirely [Free], and by [release_frames]. *)
Theorem free_count_consistency :
  (forall memory pools base n info,
     1 <= n -> n * 2 <= ULONG_MOD -> n <= 4 * UINT_MOD ->
     free_count_consistent
       (fst (ContFramePool_new memory pools base n info))) /\
  (forall p n,
     pool_wf p -> free_count_consistent p -> 1 <= n ->
     exists p' f,
       get_frames p n = Returns (p', f) /\ free_count_consistent p') /\
  (forall p b n,
     pool_wf p -> free_count_consistent p ->
     0 <= b < ULONG_MOD -> 1 <= n ->
     b - base_frame_no p + n < ULONG_MOD ->
     (base_frame_no p <= b -> b - base_frame_no p + n <= nframes p ->
      run_free (bitmap p) (b - base_frame_no p) n) ->
     free_count_consistent (mark_inaccessible p b n)) /\
  (forall pools f,
     (forall q, In q pools -> pool_wf q /\ free_count_consistent q) ->
     forall q', In q' (outcome_pools (release_frames pools f)) ->
                free_count_consistent q').
Proof.
  split; [ | split; [ | split ] ].
  - intros memory pools base n info. apply constructor_consistent.
  - intros p n Hwf Hc Hn.
    destruct (get_frames_consistent p n Hwf Hc Hn) as (p' & f & Hget & _ & Hc').
    exists p', f. split; assumption.
  - intros p b n Hwf Hc Hb Hn Hsum Hfree.
    destruct (Z.lt_ge_cases b (base_frame_no p)) as [ Hlt | Hge ];
      [ | destruct (Z.le_gt_cases (b - base_frame_no p + n) (nframes p))
            as [ Hin | Hout ] ].
    + rewrite mark_inaccessible_out_of_range; try assumption; lia.
    + apply mark_inaccessible_consistent; try assumption. apply Hfree; assumption.
    + rewrite mark_inaccessible_out_of_range; try assumption; lia.
  - intros pools f Hall q' Hq'.
    apply (release_frames_consistent pools f Hall q' Hq').
Qed.

(** ** Used frames continue a run

    The hypothesis of the round trip holds in every state the operations
    reach: the constructor establishes it and each operation keeps it. *)

Lemma constructor_used_continues_run memory pools base n info :
  1 <= n -> n * 2 <= ULONG_MOD -> n <= 4 * UINT_MOD ->
  used_continues_run (fst (ContFramePool_new memory pools base n info)).
Proof.
  intros Hn H2 H4. unfold ContFramePool_new. cbn [fst].
  set (bm0 := init_free memory 0 (Z.to_nat n)).
  assert (Hfree : forall f, 0 <= f < n -> get_state bm0 f = Free).
  { intros f Hf. unfold bm0. rewrite init_free_get.
    - rewrite Z2Nat.id by lia.
      destruct (Z.leb_spec 0 f), (Z.ltb_spec f (0 + n)); simpl;
        try reflexivity; lia.
    - intros j Hj. rewrite Z2Nat.id in Hj by lia.
      apply (small_addressable n); assumption || lia.
    - apply (small_addressable n); assumption || lia. }
  destruct (info =? 0); intros i Hi Hi1 _; cbn [bitmap nframes] in *.
  - rewrite get_set_other;
      [ | apply addressable_0 | apply (small_addressable n); assumption || lia
        | lia ].
    rewrite Hfree by lia. discriminate.
  - rewrite Hfree by lia. discriminate.
Qed.

Lemma get_frames_used_continues_run p n p' f :
  pool_wf p -> nFreeFrames p <= nframes p -> used_continues_run p ->
  1 <= n ->
  get_frames p n = Returns (p', f) ->
  used_continues_run p'.
Proof.
  intros Hwf Hfc Hinv Hn Hget.
  pose proof Hwf as (Hb & Hnf & Hw & H2 & H4 & Hfr).
  destruct (Z.lt_ge_cases (nFreeFrames p) n) as [ Hlt | Hge ].
  { rewrite get_frames_guard in Hget by exact Hlt.
    injection Hget as <- _. exact Hinv. }
  pose proof (find_sequence_spec (bitmap p) n
                (Z.to_nat (nframes p - n + 1)) 0) as H.
  rewrite Z2Nat.id in H by lia.
  destruct (find_sequence (bitmap p) n 0 (Z.to_nat (nframes p - n + 1)))
    as [ k | ] eqn:E.
  - destruct H as (Hk & Hrun & Hmin); try lia.
    destruct (get_frames_found p n k) as (bm1 & Hget' & Hst);
      try assumption; try lia.
    rewrite Hget' in Hget. injection Hget as <- _.
    intros i Hi Hi1 Hfree Hused. cbn [bitmap nframes] in *.
    rewrite Hst in Hfree by (apply (wf_addressable p); [ exact Hwf | lia ]).
    rewrite Hst in Hused by (apply (wf_addressable p); [ exact Hwf | lia ]).
    destruct (Z.eqb_spec i k); [ discriminate | ].
    destruct (Z.eqb_spec (i + 1) k); [ discriminate | ].
    destruct (Z.ltb_spec k i), (Z.ltb_spec i (k + n)),
             (Z.ltb_spec k (i + 1)), (Z.ltb_spec (i + 1) (k + n));
      simpl in *; try discriminate; try lia;
      apply (Hinv i); assumption.
  - rewrite get_frames_no_run in Hget; try assumption; try lia.
    + injection Hget as <- _. exact Hinv.
    + intros k Hk Hkn. apply H; lia.
Qed.

Lemma mark_inaccessible_used_continues_run p b n :
  pool_wf p -> used_continues_run p ->
  0 <= b < ULONG_MOD -> 1 <= n -> b - base_frame_no p + n < ULONG_MOD ->
  used_continues_run (mark_inaccessible p b n).
Proof.
  intros Hwf Hinv Hb Hn Hsum.
  pose proof Hwf as (Hb0 & Hnf & Hw & H2 & H4 & Hfr).
  destruct (Z.lt_ge_cases b (base_frame_no p)) as [ Hlt | Hge ];
    [ | destruct (Z.le_gt_cases (b - base_frame_no p + n) (nframes p))
          as [ Hin | Hout ] ].
  - rewrite mark_inaccessible_out_of_range; try assumption; lia.
  - destruct (mark_inaccessible_marks p b n) as (bm1 & Hmark & Hst);
      try assumption; try lia.
    rewrite Hmark. set (r := b - base_frame_no p) in *.
    intros i Hi Hi1 Hfree Hused. cbn [bitmap nframes] in *.
    rewrite Hst in Hfree by (apply (wf_addressable p); [ exact Hwf | lia ]).
    rewrite Hst in Hused by (apply (wf_addressable p); [ exact Hwf | lia ]).
    destruct (Z.eqb_spec i r); [ discriminate | ].
    destruct (Z.eqb_spec (i + 1) r); [ discriminate | ].
    destruct ((r <? i) && (i <? r + n)); [ discriminate | ].
    destruct ((r <? i + 1) && (i + 1 <? r + n)); [ discriminate | ].
    apply (Hinv i); assumption.
  - rewrite mark_inaccessible_out_of_range; try assumption; lia.
Qed.

Lemma release_sequence_used_continues_run p r :
  pool_wf p -> used_continues_run p -> 0 <= r < nframes p ->
  used_continues_run (release_sequence p r).
Proof.
  intros Hwf Hinv Hr.
  pose proof Hwf as (Hb0 & Hnf & Hw & H2 & H4 & Hfr).
  destruct (used_prefix (bitmap p) (Z.to_nat (nframes p - (r + 1))) (r + 1))
    as (m & Hm & Hused & Hstop).
  rewrite Z2Nat.id in Hm, Hstop by lia.
  destruct (release_sequence_run p r m) as (Hb2 & Hn2 & Hi2 & Hf2 & Hg2);
    try assumption; try lia.
  { destruct Hstop as [ -> | Hstop ]; [ left; lia | right; exact Hstop ]. }
  intros i Hi Hi1 Hfree Hu. rewrite Hn2 in Hi1.
  rewrite Hg2 in Hfree by (apply (wf_addressable p); [ exact Hwf | lia ]).
  rewrite Hg2 in Hu by (apply (wf_addressable p); [ exact Hwf | lia ]).
  destruct (Z.leb_spec r (i + 1)), (Z.ltb_spec (i + 1) (r + 1 + m));
    simpl in Hu; try discriminate;
    destruct (Z.leb_spec r i), (Z.ltb_spec i (r + 1 + m)); simpl in Hfree;
    try lia; try (apply (Hinv i); assumption).
  assert (Heq : r + 1 + m = i + 1) by lia.
  destruct Hstop as [ Hstop | Hstop ]; [ lia | ].
  rewrite Heq in Hstop. contradiction.
Qed.

(** * Further properties of the code *)

(** ** get_state and set_state *)

(** X1. Reading a frame right after writing it gives the state written,
    for every frame number and whatever the bitmap byte held before (also
    a value no [set_state] stores). *)
Theorem set_state_then_get_state bm f s :
  get_state (set_state bm f s) f = s.
Proof.
  rewrite get_set_slot, same_slot_refl. reflexivity.
Qed.

Lemma byte_set_range b off code : 0 <= byte_set b off code < 256.
Proof. unfold byte_set, to_uchar. apply Z.mod_pos_bound. lia. Qed.

(** X2. Writing the state of a frame changes one bitmap byte, stores a
    value of an [unsigned char] there, and leaves the state of every other
    frame (the three that share the byte included) as it was. *)
Theorem set_state_isolation bm f s :
  addressable f ->
  (forall a, a <> f * 2 / 8 -> set_state bm f s a = bm a) /\
  0 <= set_state bm f s (f * 2 / 8) < 256 /\
  (forall g, addressable g -> g <> f ->
             get_state (set_state bm f s) g = get_state bm g).
Proof.
  intros Hf. split; [ | split ].
  - intros a Ha. rewrite set_state_slot by exact Hf.
    destruct (Z.eqb_spec a (f * 2 / 8)); [ contradiction | reflexivity ].
  - rewrite set_state_slot by exact Hf. rewrite Z.eqb_refl.
    apply byte_set_range.
  - intros g Hg Hne. apply get_set_other; assumption.
Qed.

Lemma to_ulong_double_half f :
  to_ulong ((f + 2 ^ (long_bits - 1)) * 2) = to_ulong (f * 2).
Proof.
  unfold to_ulong.
  replace ((f + 2 ^ (long_bits - 1)) * 2) with (f * 2 + 1 * ULONG_MOD)
    by (rewrite ULONG_MOD_even; lia).
  apply Z_mod_plus_full.
Qed.

(** X3. [_frame_no * 2] is computed in [unsigned long]: a frame number in
    the upper half of the range shares its bitmap slot with the frame
    number [2 ^ (long_bits - 1)] below it, so it reads that frame's state
    and a write to it overwrites that frame. *)
Theorem set_state_upper_half_aliases bm f s :
  0 <= f < 2 ^ (long_bits - 1) ->
  0 <= f + 2 ^ (long_bits - 1) < ULONG_MOD /\
  get_state bm (f + 2 ^ (long_bits - 1)) = get_state bm f /\
  get_state (set_state bm (f + 2 ^ (long_bits - 1)) s) f = s.
Proof.
  intros Hf.
  assert (Hslot : same_slot (f + 2 ^ (long_bits - 1)) f = true).
  { unfold same_slot, slot_index, slot_offset.
    rewrite to_ulong_double_half, !Z.eqb_refl. reflexivity. }
  split; [ rewrite ULONG_MOD_even; lia | ]. split.
  - rewrite !get_state_eq. unfold slot_index, slot_offset.
    rewrite to_ulong_double_half. reflexivity.
  - rewrite get_set_slot, Hslot. reflexivity.
Qed.

(** ** The constructor *)

Lemma init_free_all_free memory n f :
  n * 2 <= ULONG_MOD -> n <= 4 * UINT_MOD -> 0 <= f < n ->
  get_state (init_free memory 0 (Z.to_nat n)) f = Free.
Proof.
  intros H2 H4 Hf. rewrite init_free_get.
  - rewrite Z2Nat.id by lia.
    destruct (Z.leb_spec 0 f), (Z.ltb_spec f (0 + n)); simpl;
      try reflexivity; lia.
  - intros j Hj. rewrite Z2Nat.id in Hj by lia.
    apply (small_addressable n); assumption || lia.
  - apply (small_addressable n); assumption || lia.
Qed.

(** X4. Whatever the memory at the bitmap pointer holds, the constructor
    leaves every frame of the pool [Free] and counts them all; with
    [info_frame_no = 0] frame 0 is [Used] instead, not counted, and the
    frames [1 .. n-1] are [Free]. *)
Theorem constructor_initialises memory pools base n info :
  1 <= n -> n * 2 <= ULONG_MOD -> n <= 4 * UINT_MOD ->
  base_frame_no (fst (ContFramePool_new memory pools base n info)) = base /\
  nframes (fst (ContFramePool_new memory pools base n info)) = n /\
  info_frame_no (fst (ContFramePool_new memory pools base n info)) = info /\
  (info <> 0 ->
   nFreeFrames (fst (ContFramePool_new memory pools base n info)) = n /\
   run_free (bitmap (fst (ContFramePool_new memory pools base n info))) 0 n) /\
  (info = 0 ->
   nFreeFrames (fst (ContFramePool_new memory pools base n info)) = n - 1 /\
   get_state (bitmap (fst (ContFramePool_new memory pools base n info))) 0
   = Used /\
   run_free (bitmap (fst (ContFramePool_new memory pools base n info)))
            1 (n - 1)).
Proof.
  intros Hn H2 H4. unfold ContFramePool_new. cbn [fst].
  pose proof ULONG_MOD_ge. pose proof UINT_MOD_ge.
  destruct (Z.eqb_spec info 0) as [ -> | Hne ];
    cbn [base_frame_no nframes info_frame_no nFreeFrames bitmap];
    (split; [ reflexivity | ]); (split; [ reflexivity | ]);
    (split; [ reflexivity | ]); split.
  - intros Hc. contradiction.
  - intros _. split; [ apply to_ulong_small; lia | ].
    split; [ apply get_set_same, addressable_0 | ].
    intros i Hi.
    rewrite get_set_other;
      [ | apply addressable_0 | apply (small_addressable n); assumption || lia
        | lia ].
    apply init_free_all_free; assumption || lia.
  - intros _. split; [ reflexivity | ].
    intros i Hi. apply init_free_all_free; assumption || lia.
  - intros Hc. contradiction.
Qed.

(** ** What get_frames returns *)

Lemma get_frames_cases p n :
  pool_wf p -> nFreeFrames p <= nframes p -> 1 <= n ->
  get_frames p n = Returns (p, 0) \/
  exists k bm1,
    0 <= k /\ k + n <= nframes p /\ n <= nFreeFrames p /\
    run_free (bitmap p) k n /\
    (forall j, 0 <= j < k -> ~ run_free (bitmap p) j n) /\
    get_frames p n =
    Returns (mkPool (base_frame_no p) (nframes p) (nFreeFrames p - n)
                    (info_frame_no p) bm1,
             base_frame_no p + k) /\
    forall g, addressable g ->
      get_state bm1 g =
      if g =? k then HoS
      else if (k <? g) && (g <? k + n) then Used
      else get_state (bitmap p) g.
Proof.
  intros Hwf Hfc Hn.
  pose proof Hwf as (Hb & Hnf & Hw & H2 & H4 & Hfr).
  destruct (Z.lt_ge_cases (nFreeFrames p) n) as [ Hlt | Hge ].
  { left. apply get_frames_guard. exact Hlt. }
  pose proof (find_sequence_spec (bitmap p) n
                (Z.to_nat (nframes p - n + 1)) 0) as H.
  rewrite Z2Nat.id in H by lia.
  destruct (find_sequence (bitmap p) n 0 (Z.to_nat (nframes p - n + 1)))
    as [ k | ].
  - right. destruct H as (Hk & Hrun & Hmin); try lia.
    destruct (get_frames_found p n k) as (bm1 & Hget & Hst);
      try assumption; try lia.
    exists k, bm1. repeat split; try assumption; lia.
  - left. apply get_frames_no_run; [ exact Hwf | lia | ].
    intros k Hk Hkn. apply H; lia.
Qed.

(** X5. On a pool whose counter does not exceed its size, a request for
    [n >= 1] frames always returns.  It either fails (value 0, pool
    untouched) or hands out [n] frames that lie inside the pool and were
    all [Free]; these are not [Free] afterwards, no frame that was not
    [Free] changes, and the counter drops by [n]. *)
Theorem get_frames_sound p n :
  pool_wf p -> nFreeFrames p <= nframes p -> 1 <= n ->
  exists p' f,
    get_frames p n = Returns (p', f) /\
    ((p' = p /\ f = 0) \/
     (p' <> p /\
      base_frame_no p <= f /\ f + n <= base_frame_no p + nframes p /\
      run_free (bitmap p) (f - base_frame_no p) n /\
      (forall g, f <= g < f + n ->
                 get_state (bitmap p') (g - base_frame_no p) <> Free) /\
      (forall g, addressable g -> get_state (bitmap p) g <> Free ->
                 get_state (bitmap p') g = get_state (bitmap p) g) /\
      nFreeFrames p' = nFreeFrames p - n /\
      base_frame_no p' = base_frame_no p /\
      nframes p' = nframes p)).
Proof.
  intros Hwf Hfc Hn.
  destruct (get_frames_cases p n Hwf Hfc Hn)
    as [ Hfail | (k & bm1 & Hk & Hkn & Hge & Hrun & _ & Hget & Hst) ].
  - exists p, 0. split; [ exact Hfail | left; split; reflexivity ].
  - eexists. eexists. split; [ exact Hget | right ].
    cbn [base_frame_no nframes nFreeFrames bitmap].
    replace (base_frame_no p + k - base_frame_no p) with k by lia.
    split.
    { intros Heq. apply (f_equal nFreeFrames) in Heq.
      cbn [nFreeFrames] in Heq. lia. }
    split; [ lia | ]. split; [ lia | ]. split; [ exact Hrun | ]. split.
    { intros g Hg.
      rewrite Hst by (apply (wf_addressable p); [ exact Hwf | lia ]).
      destruct (Z.eqb_spec (g - base_frame_no p) k); [ discriminate | ].
      destruct (Z.ltb_spec k (g - base_frame_no p)),
               (Z.ltb_spec (g - base_frame_no p) (k + n)); simpl;
        try discriminate; lia. }
    split; [ | repeat split ].
    intros g Hg Hbusy. rewrite Hst by exact Hg.
    destruct (Z.eqb_spec g k) as [ -> | Hne ].
    { exfalso. apply Hbusy. apply Hrun. lia. }
    destruct (Z.ltb_spec k g), (Z.ltb_spec g (k + n)); simpl;
      try reflexivity.
    exfalso. apply Hbusy. apply Hrun. lia.
Qed.

(** X6. No overlap: after a successful request, every later successful
    request on the pool returns frames inside the pool that are disjoint
    from the frames of the first. *)
Theorem get_frames_no_overlap p n1 s1 :
  pool_wf p -> nFreeFrames p <= nframes p ->
  1 <= n1 -> n1 <= nFreeFrames p ->
  0 <= s1 -> s1 + n1 <= nframes p -> run_free (bitmap p) s1 n1 ->
  exists p1 f1,
    get_frames p n1 = Returns (p1, f1) /\ p1 <> p /\
    base_frame_no p <= f1 /\ f1 + n1 <= base_frame_no p + nframes p /\
    forall n2 p2 f2,
      1 <= n2 -> get_frames p1 n2 = Returns (p2, f2) -> p2 <> p1 ->
      base_frame_no p <= f2 /\ f2 + n2 <= base_frame_no p + nframes p /\
      (f1 + n1 <= f2 \/ f2 + n2 <= f1).
Proof.
  intros Hwf Hfc Hn1 Hge1 Hs1 Hsn1 Hrun1.
  pose proof Hwf as (Hb & Hnf & Hw & H2 & H4 & Hfr).
  destruct (least_run (bitmap p) n1 s1) as (k1 & Hk1 & Hrunk & Hmin);
    try assumption; try lia.
  destruct (get_frames_found p n1 k1) as (bm1 & Hget & Hst);
    try assumption; try lia.
  set (p1 := mkPool (base_frame_no p) (nframes p) (nFreeFrames p - n1)
                    (info_frame_no p) bm1) in *.
  assert (Hwf1 : pool_wf p1).
  { unfold pool_wf, p1. cbn [base_frame_no nframes nFreeFrames].
    repeat split; lia. }
  exists p1, (base_frame_no p + k1). split; [ exact Hget | ].
  split.
  { intros Heq. apply (f_equal nFreeFrames) in Heq.
    cbn [p1 nFreeFrames] in Heq. lia. }
  split; [ lia | ]. split; [ lia | ].
  intros n2 p2 f2 Hn2 Hget2 Hne.
  destruct (get_frames_cases p1 n2 Hwf1) as
    [ Hfail | (k2 & bm2 & Hk2 & Hkn2 & Hge2 & Hrun2 & _ & Hget2' & _) ];
    try assumption.
  - cbn [p1 nFreeFrames nframes]. lia.
  - rewrite Hfail in Hget2. injection Hget2 as <- _. contradiction.
  - rewrite Hget2' in Hget2. injection Hget2 as _ <-.
    cbn [p1 base_frame_no nframes bitmap] in *.
    split; [ lia | ]. split; [ lia | ].
    destruct (Z.le_gt_cases (k1 + n1) k2) as [ Hle | Hgt ]; [ left; lia | ].
    destruct (Z.le_gt_cases (k2 + n2) k1) as [ Hle | Hgt' ]; [ right; lia | ].
    exfalso.
    assert (Hin : k1 <= Z.max k1 k2 < k1 + n1 /\ k2 <= Z.max k1 k2 < k2 + n2)
      by lia.
    destruct Hin as [Hin1 Hin2].
    pose proof (Hrun2 _ Hin2) as Hfree.
    rewrite Hst in Hfree by (apply (wf_addressable p); [ exact Hwf | lia ]).
    destruct (Z.eqb_spec (Z.max k1 k2) k1); [ discriminate | ].
    destruct (Z.ltb_spec k1 (Z.max k1 k2)),
             (Z.ltb_spec (Z.max k1 k2) (k1 + n1)); simpl in Hfree;
      try discriminate; lia.
Qed.

(** ** get_frames on a pool whose counter exceeds its size *)

Lemma find_sequence_all_busy bm n count :
  1 <= n ->
  (forall f, 0 <= f < ULONG_MOD -> get_state bm f <> Free) ->
  forall start, find_sequence bm n start count = None.
Proof.
  intros Hn Hbusy.
  induction count as [ | count IH ]; intros start; [ reflexivity | ].
  cbn [find_sequence].
  destruct (Z.to_nat n) as [ | m ] eqn:E; [ lia | ].
  cbn [sequence_is_free].
  pose proof (Hbusy _ (to_ulong_range (start + 0))) as Hb.
  destruct (get_state bm (to_ulong (start + 0)));
    [ contradiction | apply IH | apply IH | apply IH ].
Qed.

Lemma get_state_all_ones bm f :
  (forall a, bm a = 255) -> get_state bm f = Reserved.
Proof.
  intros Hbm. rewrite get_state_eq, Hbm.
  pose proof (slot_offset_bit f) as Hoff. unfold bit_offsets in Hoff.
  simpl in Hoff.
  destruct Hoff as [ <- | [ <- | [ <- | [ <- | [] ] ] ] ]; reflexivity.
Qed.

(** X7. A request for [nframes + 1] frames that passes the counter guard
    (the counter then exceeds the pool size) makes the scan bound
    [nframes - _n_frames] wrap to [ULONG_MAX]; when no frame number reads
    [Free] the scan never ends: the call does not return. *)
Theorem get_frames_diverges p n :
  fields_in_range p ->
  n = nframes p + 1 -> n <= nFreeFrames p ->
  (forall f, 0 <= f < ULONG_MOD -> get_state (bitmap p) f <> Free) ->
  get_frames p n = Diverges.
Proof.
  intros (Hb & Hnf & Hfc) -> Hge Hbusy.
  unfold get_frames; cbv zeta.
  destruct (Z.ltb_spec (nFreeFrames p) (nframes p + 1)); [ lia | ].
  rewrite find_sequence_all_busy; [ | lia | exact Hbusy ].
  assert (Hmax : to_ulong (nframes p - (nframes p + 1)) = ULONG_MAX).
  { unfold to_ulong, ULONG_MAX. symmetry.
    apply Z.mod_unique_pos with (q := -1); lia. }
  rewrite Hmax, Z.eqb_refl. reflexivity.
Qed.

(** X8. [get_frames] compares the request with the counter only, never
    with the pool size: a request larger than the pool that passes the
    counter guard and finds the slots from offset 0 on [Free] is served,
    and marks frames behind the end of the pool. *)
Theorem get_frames_beyond_pool p n :
  fields_in_range p ->
  nframes p < n -> n <= nFreeFrames p ->
  (forall j, 0 <= j < n -> addressable j) ->
  run_free (bitmap p) 0 n ->
  exists p',
    get_frames p n = Returns (p', base_frame_no p) /\
    nFreeFrames p' = nFreeFrames p - n /\
    get_state (bitmap p') 0 = HoS /\
    forall i, nframes p <= i < n -> 0 < i ->
              get_state (bitmap p') i = Used.
Proof.
  intros (Hb & Hnf & Hfc) Hlt Hge Haddr Hrun.
  assert (Hn : n <= ULONG_MOD).
  { destruct (Haddr (n - 1)) as (_ & Hd & _); lia. }
  unfold get_frames; cbv zeta.
  destruct (Z.ltb_spec (nFreeFrames p) n); [ lia | ].
  pose proof (to_ulong_range (nframes p - n)) as Hr.
  destruct (Z.to_nat (to_ulong (nframes p - n) + 1)) as [ | count ] eqn:E;
    [ lia | ].
  cbn [find_sequence].
  assert (Hseq : sequence_is_free (bitmap p) 0 0 (Z.to_nat n) = true)
    by (apply sequence_is_free_run; try lia; exact Hrun).
  rewrite Hseq.
  rewrite (to_ulong_small (nFreeFrames p - n)) by lia.
  rewrite (to_ulong_small (base_frame_no p + 0)) by lia.
  rewrite Z.add_0_r.
  eexists. split; [ reflexivity | ].
  cbn [nFreeFrames bitmap]. split; [ reflexivity | ].
  assert (Hst : forall g, 0 <= g < n ->
            get_state (mark_rest (set_state (bitmap p) 0 HoS) 0 Used 1
                                 (Z.to_nat (n - 1))) g
            = if g =? 0 then HoS else Used).
  { intros g Hg. rewrite mark_rest_get;
      [ | intros j Hj; apply Haddr; lia | apply Haddr; lia ].
    destruct (Z.eqb_spec g 0) as [ -> | Hne ].
    - simpl. apply get_set_same, addressable_0.
    - destruct (Z.leb_spec (0 + 1) g),
               (Z.ltb_spec g (0 + 1 + Z.of_nat (Z.to_nat (n - 1))));
        simpl; try reflexivity; lia. }
  split.
  - rewrite Hst by lia. reflexivity.
  - intros i Hi Hi0. rewrite Hst by lia.
    destruct (Z.eqb_spec i 0); [ lia | reflexivity ].
Qed.

(** ** mark_inaccessible *)

(** X9. On a range inside the pool [mark_inaccessible] looks at no frame:
    whatever the states were, the first frame becomes [HoS], the other
    [n - 1] frames [Reserved], every other frame keeps its state and [n]
    is taken off the counter (modulo the width of the counter).  For
    [n = 0] the frame at [b] still becomes [HoS]. *)
Theorem mark_inaccessible_in_range p b n :
  pool_wf p -> base_frame_no p <= b -> b - base_frame_no p < nframes p ->
  0 <= n -> b - base_frame_no p + n <= nframes p ->
  base_frame_no (mark_inaccessible p b n) = base_frame_no p /\
  nframes (mark_inaccessible p b n) = nframes p /\
  nFreeFrames (mark_inaccessible p b n) = to_ulong (nFreeFrames p - n) /\
  (n <= nFreeFrames p ->
   nFreeFrames (mark_inaccessible p b n) = nFreeFrames p - n) /\
  get_state (bitmap (mark_inaccessible p b n)) (b - base_frame_no p) = HoS /\
  (forall f, b < f < b + n ->
     get_state (bitmap (mark_inaccessible p b n)) (f - base_frame_no p)
     = Reserved) /\
  (forall g, addressable g ->
     ~ (b - base_frame_no p <= g < b - base_frame_no p + n) ->
     g <> b - base_frame_no p ->
     get_state (bitmap (mark_inaccessible p b n)) g = get_state (bitmap p) g).
Proof.
  intros Hwf Hb Hr Hn Hend.
  pose proof Hwf as (Hb0 & Hnf & Hw & H2 & H4 & Hfc).
  destruct (mark_inaccessible_marks p b n) as (bm1 & Hmark & Hst);
    try assumption.
  rewrite Hmark. cbn [base_frame_no nframes nFreeFrames bitmap].
  set (r := b - base_frame_no p) in *.
  split; [ reflexivity | ]. split; [ reflexivity | ].
  split; [ reflexivity | ].
  split; [ intros Hge; apply to_ulong_small; lia | ].
  split.
  { rewrite Hst by (apply (wf_addressable p); [ exact Hwf | lia ]).
    rewrite Z.eqb_refl. reflexivity. }
  split.
  - intros f Hf.
    rewrite Hst by (apply (wf_addressable p); [ exact Hwf | unfold r in *; lia ]).
    destruct (Z.eqb_spec (f - base_frame_no p) r); [ unfold r in *; lia | ].
    destruct (Z.ltb_spec r (f - base_frame_no p)),
             (Z.ltb_spec (f - base_frame_no p) (r + n)); simpl;
      try reflexivity; unfold r in *; lia.
  - intros g Hg Hout Hne. rewrite Hst by exact Hg.
    destruct (Z.eqb_spec g r); [ contradiction | ].
    destruct (Z.ltb_spec r g), (Z.ltb_spec g (r + n)); simpl;
      try reflexivity; lia.
Qed.

(** X10. A range that does not lie inside the pool is dropped without a
    trace (the pool is returned as it is), provided the end of the range,
    [b - base_frame_no + n], does not wrap; this covers a [b] below
    [base_frame_no], where the subtraction wraps. *)
Theorem mark_inaccessible_rejects p b n :
  pool_wf p -> 0 <= b < ULONG_MOD -> 0 <= n ->
  b - base_frame_no p + n < ULONG_MOD ->
  b < base_frame_no p \/ nframes p < b - base_frame_no p + n ->
  mark_inaccessible p b n = p.
Proof.
  intros Hwf Hb Hn Hsum Hout.
  apply mark_inaccessible_out_of_range; try assumption. lia.
Qed.

(** X11. Reservation accounting: after [mark_inaccessible b n] on a range
    of the pool, with [n >= 1] not above the counter, the counter is
    exactly [n] lower, and no later successful [get_frames] returns a
    frame of the range or changes the state of one. *)
Theorem reserved_frames_not_allocated p b n :
  pool_wf p -> nFreeFrames p <= nframes p ->
  base_frame_no p <= b -> 1 <= n -> n <= nFreeFrames p ->
  b - base_frame_no p + n <= nframes p ->
  nFreeFrames (mark_inaccessible p b n) = nFreeFrames p - n /\
  forall m p2 f,
    1 <= m ->
    get_frames (mark_inaccessible p b n) m = Returns (p2, f) ->
    (f + m <= b \/ b + n <= f \/ (p2 = mark_inaccessible p b n /\ f = 0)) /\
    forall g, b <= g < b + n ->
      get_state (bitmap p2) (g - base_frame_no p)
      = get_state (bitmap (mark_inaccessible p b n)) (g - base_frame_no p).
Proof.
  intros Hwf Hfc Hb Hn Hge Hend.
  pose proof Hwf as (Hb0 & Hnf & Hw & H2 & H4 & Hfr).
  destruct (mark_inaccessible_marks p b n) as (bm1 & Hmark & Hst);
    try assumption; try lia.
  rewrite Hmark. rewrite (to_ulong_small (nFreeFrames p - n)) by lia.
  set (p1 := mkPool (base_frame_no p) (nframes p) (nFreeFrames p - n)
                    (info_frame_no p) bm1).
  set (r := b - base_frame_no p) in *.
  assert (Hwf1 : pool_wf p1).
  { unfold pool_wf, p1. cbn [base_frame_no nframes nFreeFrames].
    repeat split; lia. }
  assert (Hbusy : forall i, r <= i < r + n -> get_state bm1 i <> Free).
  { intros i Hi.
    rewrite Hst by (apply (wf_addressable p); [ exact Hwf | lia ]).
    destruct (Z.eqb_spec i r); [ discriminate | ].
    destruct (Z.ltb_spec r i), (Z.ltb_spec i (r + n)); simpl;
      try discriminate; lia. }
  split; [ reflexivity | ].
  intros m p2 f Hm Hget.
  destruct (get_frames_cases p1 m Hwf1) as
    [ Hfail | (k & bm2 & Hk & Hkm & Hgem & Hrun & _ & Hget' & Hst2) ];
    try assumption.
  - cbn [p1 nFreeFrames nframes]. lia.
  - rewrite Hfail in Hget. injection Hget as <- <-.
    split; [ right; right; split; reflexivity | reflexivity ].
  - rewrite Hget' in Hget. injection Hget as <- <-.
    cbn [p1 base_frame_no nframes bitmap] in *.
    assert (Hdis : k + m <= r \/ r + n <= k).
    { destruct (Z.le_gt_cases (k + m) r) as [ Hle | Hgt ]; [ left; lia | ].
      destruct (Z.le_gt_cases (r + n) k) as [ Hle | Hgt' ]; [ right; lia | ].
      exfalso. apply (Hbusy (Z.max r k)); [ lia | ]. apply Hrun. lia. }
    split; [ unfold r in *; lia | ].
    intros g Hg.
    rewrite Hst2 by (apply (wf_addressable p); [ exact Hwf | unfold r in *; lia ]).
    destruct (Z.eqb_spec (g - base_frame_no p) k); [ unfold r in *; lia | ].
    destruct (Z.ltb_spec k (g - base_frame_no p)),
             (Z.ltb_spec (g - base_frame_no p) (k + m)); simpl;
      try reflexivity; unfold r in *; lia.
Qed.

(** ** release_frames *)




Lemma release_frames_run before p after f :
  (forall q, In q before -> fields_in_range q /\ ~ owns q f) ->
  pool_wf p -> owns p f ->
  get_state (bitmap p) (f - base_frame_no p) = HoS ->
  exists m,
    0 <= m /\ f - base_frame_no p + 1 + m <= nframes p /\
    (forall j, f - base_frame_no p + 1 <= j < f - base_frame_no p + 1 + m ->
               get_state (bitmap p) j = Used) /\
    (f - base_frame_no p + 1 + m = nframes p \/
     get_state (bitmap p) (f - base_frame_no p + 1 + m) <> Used) /\
    release_frames (before ++ p :: after) f
    = Done (before ++ release_sequence p (f - base_frame_no p) :: after) /\
    base_frame_no (release_sequence p (f - base_frame_no p))
    = base_frame_no p /\
    nframes (release_sequence p (f - base_frame_no p)) = nframes p /\
    nFreeFrames (release_sequence p (f - base_frame_no p))
    = to_ulong (nFreeFrames p + (1 + m)) /\
    forall g, addressable g ->
      get_state (bitmap (release_sequence p (f - base_frame_no p))) g =
      if (f - base_frame_no p <=? g) && (g <? f - base_frame_no p + 1 + m)
      then Free else get_state (bitmap p) g.
Proof.
  intros Hbefore Hwf Ho Hhead.
  pose proof Hwf as (Hb0 & Hnf & Hw & H2 & H4 & Hfr).
  unfold owns in Ho. set (r := f - base_frame_no p) in *.
  destruct (used_prefix (bitmap p) (Z.to_nat (nframes p - (r + 1))) (r + 1))
    as (m & Hm & Hused & Hstop).
  rewrite Z2Nat.id in Hm, Hstop by lia.
  assert (Hstop' : r + 1 + m = nframes p \/
                   get_state (bitmap p) (r + 1 + m) <> Used)
    by (destruct Hstop as [ -> | Hstop ]; [ left; lia | right; exact Hstop ]).
  destruct (release_sequence_run p r m) as (Hb2 & Hn2 & Hi2 & Hf2 & Hg2);
    try assumption; try lia.
  exists m. split; [ lia | ]. split; [ lia | ].
  split; [ exact Hused | ]. split; [ exact Hstop' | ].
  split.
  { apply release_frames_head; try assumption; try lia.
    apply wf_fields, Hwf. }
  repeat split; assumption.
Qed.

(** X13. Releasing the head of a run makes the head and the [Used] frames
    that directly follow it [Free], up to the first frame that is not
    [Used] or the end of the pool; every other frame of the pool keeps its
    state, the counter grows by the number of frames freed, and the other
    registered pools are untouched. *)
Theorem release_frames_frees_run before p after f :
  (forall q, In q before -> fields_in_range q /\ ~ owns q f) ->
  pool_wf p -> owns p f ->
  get_state (bitmap p) (f - base_frame_no p) = HoS ->
  exists m p',
    0 <= m /\ f + m < base_frame_no p + nframes p /\
    (forall g, f < g <= f + m ->
               get_state (bitmap p) (g - base_frame_no p) = Used) /\
    (f + m + 1 = base_frame_no p + nframes p \/
     get_state (bitmap p) (f + m + 1 - base_frame_no p) <> Used) /\
    release_frames (before ++ p :: after) f = Done (before ++ p' :: after) /\
    base_frame_no p' = base_frame_no p /\
    nframes p' = nframes p /\
    nFreeFrames p' = to_ulong (nFreeFrames p + (1 + m)) /\
    (forall g, f <= g <= f + m ->
               get_state (bitmap p') (g - base_frame_no p) = Free) /\
    (forall g, addressable g ->
               ~ (f - base_frame_no p <= g <= f - base_frame_no p + m) ->
               get_state (bitmap p') g = get_state (bitmap p) g).
Proof.
  intros Hbefore Hwf Ho Hhead.
  destruct (release_frames_run before p after f Hbefore Hwf Ho Hhead)
    as (m & Hm & Hend & Hused & Hstop & Hrel & Hb & Hn & Hfc & Hst).
  exists m, (release_sequence p (f - base_frame_no p)).
  split; [ exact Hm | ]. split; [ lia | ].
  split; [ intros g Hg; apply Hused; lia | ].
  split.
  { destruct Hstop as [ Hstop | Hstop ]; [ left; lia | right ].
    replace (f + m + 1 - base_frame_no p) with (f - base_frame_no p + 1 + m)
      by lia. exact Hstop. }
  split; [ exact Hrel | ]. split; [ exact Hb | ]. split; [ exact Hn | ].
  split; [ exact Hfc | ]. split.
  - intros g Hg. unfold owns in Ho.
    rewrite Hst by (apply (wf_addressable p); [ exact Hwf | lia ]).
    destruct (Z.leb_spec (f - base_frame_no p) (g - base_frame_no p)),
             (Z.ltb_spec (g - base_frame_no p) (f - base_frame_no p + 1 + m));
      simpl; try reflexivity; lia.
  - intros g Hg Hout. rewrite Hst by exact Hg.
    destruct (Z.leb_spec (f - base_frame_no p) g),
             (Z.ltb_spec g (f - base_frame_no p + 1 + m));
      simpl; try reflexivity; lia.
Qed.

(** X14. Double release: once a run has been released, releasing its
    head frame number again ends in the fatal "not Head-of-Sequence" path
    and changes nothing. *)
Theorem release_frames_twice before p after f :
  (forall q, In q before -> fields_in_range q /\ ~ owns q f) ->
  pool_wf p -> owns p f ->
  get_state (bitmap p) (f - base_frame_no p) = HoS ->
  exists p',
    release_frames (before ++ p :: after) f = Done (before ++ p' :: after) /\
    release_frames (before ++ p' :: after) f
    = Fatal msg_not_head (before ++ p' :: after).
Proof.
  intros Hbefore Hwf Ho Hhead.
  destruct (release_frames_run before p after f Hbefore Hwf Ho Hhead)
    as (m & Hm & Hend & Hused & Hstop & Hrel & Hb & Hn & Hfc & Hst).
  pose proof Hwf as (Hb0 & Hnf & Hw & H2 & H4 & Hfr).
  exists (release_sequence p (f - base_frame_no p)).
  split; [ exact Hrel | ]. unfold owns in Ho.
  apply release_frames_not_head.
  - exact Hbefore.
  - unfold fields_in_range. rewrite Hb, Hn, Hfc.
    split; [ lia | ]. split; [ lia | ]. apply to_ulong_range.
  - rewrite Hb, Hn. lia.
  - unfold owns. rewrite Hb, Hn. lia.
  - rewrite Hb.
    rewrite Hst by (apply (wf_addressable p); [ exact Hwf | lia ]).
    destruct (Z.leb_spec (f - base_frame_no p) (f - base_frame_no p)),
             (Z.ltb_spec (f - base_frame_no p) (f - base_frame_no p + 1 + m));
      simpl; try discriminate; lia.
Qed.

(** X15. Only the first frame of an allocation can be released: after a
    successful [get_frames n], [release_frames] on any other frame number
    of the allocation ends in the fatal "not Head-of-Sequence" path and
    changes nothing. *)
Theorem release_inside_allocation before p after n s :
  pool_wf p ->
  (forall q, In q before ->
     fields_in_range q /\ forall f, owns p f -> ~ owns q f) ->
  1 <= n -> n <= nFreeFrames p ->
  0 <= s -> s + n <= nframes p -> run_free (bitmap p) s n ->
  exists p' f,
    get_frames p n = Returns (p', f) /\
    forall i, 0 < i < n ->
      release_frames (before ++ p' :: after) (f + i)
      = Fatal msg_not_head (before ++ p' :: after).
Proof.
  intros Hwf Hbefore Hn Hfc Hs Hsn Hrun.
  pose proof Hwf as (Hb0 & Hnf & Hw & H2 & H4 & Hfr).
  destruct (least_run (bitmap p) n s) as (k & Hk & Hrunk & Hmin);
    try assumption; try lia.
  destruct (get_frames_found p n k) as (bm1 & Hget & Hst);
    try assumption; try lia.
  eexists. eexists. split; [ exact Hget | ].
  intros i Hi. apply release_frames_not_head;
    cbn [base_frame_no nframes nFreeFrames bitmap].
  - intros q Hq. destruct (Hbefore q Hq) as [Hfq Hno].
    split; [ exact Hfq | ]. apply Hno. unfold owns. lia.
  - unfold fields_in_range. cbn [base_frame_no nframes nFreeFrames]. lia.
  - lia.
  - unfold owns. cbn [base_frame_no nframes]. lia.
  - replace (base_frame_no p + k + i - base_frame_no p) with (k + i) by lia.
    rewrite Hst by (apply (wf_addressable p); [ exact Hwf | lia ]).
    destruct (Z.eqb_spec (k + i) k); [ lia | ].
    destruct (Z.ltb_spec k (k + i)), (Z.ltb_spec (k + i) (k + n)); simpl;
      try discriminate; lia.
Qed.

(** ** Two allocations *)

Ltac split_tests :=
  repeat match goal with
         | |- context [ ?a =? ?b ] => destruct (Z.eqb_spec a b)
         | |- context [ ?a <? ?b ] => destruct (Z.ltb_spec a b)
         | |- context [ ?a <=? ?b ] => destruct (Z.leb_spec a b)
         end;
  cbn [andb orb].

Ltac split_tests_in H :=
  repeat match type of H with
         | context [ ?a =? ?b ] => destruct (Z.eqb_spec a b)
         | context [ ?a <? ?b ] => destruct (Z.ltb_spec a b)
         | context [ ?a <=? ?b ] => destruct (Z.leb_spec a b)
         end;
  cbn [andb orb] in H.

(** X16. Two allocations of a pool are released independently: releasing
    the first frees exactly its frames and leaves the second (and every
    other frame) as it is, and releasing the second afterwards puts every
    frame and the counter back to where they were before both
    allocations. *)
Theorem allocations_released_independently before p after n1 s1 :
  pool_wf p -> nFreeFrames p <= nframes p -> used_continues_run p ->
  (forall q, In q before ->
     fields_in_range q /\ forall f, owns p f -> ~ owns q f) ->
  1 <= n1 -> n1 <= nFreeFrames p ->
  0 <= s1 -> s1 + n1 <= nframes p -> run_free (bitmap p) s1 n1 ->
  exists p1 f1,
    get_frames p n1 = Returns (p1, f1) /\
    forall n2 p2 f2,
      1 <= n2 -> get_frames p1 n2 = Returns (p2, f2) -> p2 <> p1 ->
      exists p3 p4,
        release_frames (before ++ p2 :: after) f1
        = Done (before ++ p3 :: after) /\
        (forall g, f1 <= g < f1 + n1 ->
           get_state (bitmap p3) (g - base_frame_no p) = Free) /\
        (forall g, addressable g ->
           ~ (f1 - base_frame_no p <= g < f1 - base_frame_no p + n1) ->
           get_state (bitmap p3) g = get_state (bitmap p2) g) /\
        nFreeFrames p3 = nFreeFrames p - n2 /\
        release_frames (before ++ p3 :: after) f2
        = Done (before ++ p4 :: after) /\
        same_frames p4 p.
Proof.
  intros Hwf Hfc Hinv Hbefore Hn1 Hge1 Hs1 Hsn1 Hrun1.
  pose proof Hwf as (Hb & Hnf & Hw & H2 & H4 & Hfr).
  assert (Ha : forall g, 0 <= g < nframes p -> addressable g)
    by (intros g Hg; apply (wf_addressable p); assumption).
  assert (Hnot : forall q f, In q before -> owns p f ->
                             fields_in_range q /\ ~ owns q f).
  { intros q f Hq Ho. destruct (Hbefore q Hq) as [Hfq Hno].
    split; [ exact Hfq | apply Hno; exact Ho ]. }
  destruct (least_run (bitmap p) n1 s1) as (k1 & Hk1 & Hrunk & Hmin);
    try assumption; try lia.
  destruct (get_frames_found p n1 k1) as (bm1 & Hget & Hst1);
    try assumption; try lia.
  set (p1 := mkPool (base_frame_no p) (nframes p) (nFreeFrames p - n1)
                    (info_frame_no p) bm1) in *.
  assert (Hwf1 : pool_wf p1).
  { unfold pool_wf, p1. cbn [base_frame_no nframes nFreeFrames].
    repeat split; lia. }
  exists p1, (base_frame_no p + k1). split; [ exact Hget | ].
  intros n2 p2 f2 Hn2 Hget2 Hne.
  destruct (get_frames_cases p1 n2 Hwf1) as
    [ Hfail | (k2 & bm2 & Hk2 & Hkn2 & Hge2 & Hrun2 & _ & Hget2' & Hst2) ];
    try assumption.
  { cbn [p1 nFreeFrames nframes]. lia. }
  { rewrite Hfail in Hget2. injection Hget2 as <- _. contradiction. }
  rewrite Hget2' in Hget2. injection Hget2 as <- <-.
  cbn [p1 base_frame_no nframes nFreeFrames info_frame_no bitmap] in *.
  set (p2 := mkPool (base_frame_no p) (nframes p) (nFreeFrames p - n1 - n2)
                    (info_frame_no p) bm2) in *.
  (* the two runs are disjoint *)
  assert (Hbusy1 : forall i, k1 <= i < k1 + n1 -> get_state bm1 i <> Free).
  { intros i Hi. rewrite Hst1 by (apply Ha; lia).
    split_tests; try discriminate; lia. }
  assert (Hdis : k1 + n1 <= k2 \/ k2 + n2 <= k1).
  { destruct (Z.le_gt_cases (k1 + n1) k2) as [ Hle | Hgt ]; [ left; lia | ].
    destruct (Z.le_gt_cases (k2 + n2) k1) as [ Hle | Hgt' ]; [ right; lia | ].
    exfalso. apply (Hbusy1 (Z.max k1 k2)); [ lia | ]. apply Hrun2. lia. }
  assert (Hfree2 : forall i, k2 <= i < k2 + n2 ->
                             get_state (bitmap p) i = Free).
  { intros i Hi. pose proof (Hrun2 i Hi) as Hf.
    rewrite Hst1 in Hf by (apply Ha; lia).
    split_tests_in Hf; try discriminate; try lia; exact Hf. }
  assert (Hwf2 : pool_wf p2).
  { unfold pool_wf, p2. cbn [base_frame_no nframes nFreeFrames].
    repeat split; lia. }
  (* release of the first allocation *)
  destruct (release_sequence_run p2 k1 (n1 - 1))
    as (Hb3 & Hn3 & Hi3 & Hf3 & Hg3); try assumption.
  { cbn [p2 nframes]. lia. }
  { lia. }
  { cbn [p2 nframes]. lia. }
  { intros j Hj. cbn [p2 bitmap].
    rewrite Hst2, Hst1 by (apply Ha; lia).
    split_tests; try reflexivity; lia. }
  { cbn [p2 nframes bitmap].
    destruct (Z.eq_dec (k1 + 1 + (n1 - 1)) (nframes p)) as [ Heq | Hneq ];
      [ left; exact Heq | right ].
    rewrite Hst2, Hst1 by (apply Ha; lia).
    split_tests; try discriminate; try lia;
      (replace (k1 + 1 + (n1 - 1)) with (k1 + n1 - 1 + 1) by lia);
      (apply Hinv; [ lia | lia | apply Hrunk; lia ]). }
  cbn [p2 base_frame_no nframes nFreeFrames info_frame_no bitmap] in *.
  set (p3 := release_sequence p2 k1) in *.
  assert (Hfc3 : nFreeFrames p3 = nFreeFrames p - n2).
  { rewrite Hf3.
    replace (nFreeFrames p - n1 - n2 + (1 + (n1 - 1)))
      with (nFreeFrames p - n2) by lia.
    apply to_ulong_small. lia. }
  assert (Hwf3 : pool_wf p3).
  { unfold pool_wf. rewrite Hb3, Hn3, Hfc3. repeat split; lia. }
  (* release of the second allocation *)
  destruct (release_sequence_run p3 k2 (n2 - 1))
    as (Hb4 & Hn4 & Hi4 & Hf4 & Hg4); try assumption.
  { rewrite Hn3. lia. }
  { lia. }
  { rewrite Hn3. lia. }
  { intros j Hj. rewrite Hg3, Hst2 by (apply Ha; lia).
    split_tests; try reflexivity; lia. }
  { rewrite Hn3.
    destruct (Z.eq_dec (k2 + 1 + (n2 - 1)) (nframes p)) as [ Heq | Hneq ];
      [ left; exact Heq | right ].
    rewrite Hg3, Hst2, Hst1 by (apply Ha; lia).
    split_tests; try discriminate; try lia;
      (replace (k2 + 1 + (n2 - 1)) with (k2 + n2 - 1 + 1) by lia);
      (apply Hinv; [ lia | lia | apply Hfree2; lia ]). }
  exists p3, (release_sequence p3 k2).
  split.
  { assert (Hrel : release_frames (before ++ p2 :: after)
                                  (base_frame_no p + k1)
                     = Done (before
                             ++ release_sequence p2
                                  (base_frame_no p + k1 - base_frame_no p2)
                             :: after));
      [ | replace (base_frame_no p + k1 - base_frame_no p2) with k1 in Hrel
            by (cbn [p2 base_frame_no]; lia);
          exact Hrel ].
    apply release_frames_head.
    - intros q Hq. apply Hnot; [ exact Hq | unfold owns; lia ].
    - apply wf_fields, Hwf2.
    - cbn [p2 base_frame_no nframes]. lia.
    - unfold owns. cbn [p2 base_frame_no nframes]. lia.
    - cbn [p2 base_frame_no bitmap].
      replace (base_frame_no p + k1 - base_frame_no p) with k1 by lia.
      rewrite Hst2, Hst1 by (apply Ha; lia).
      split_tests; try reflexivity; lia. }
  split.
  { intros g Hg. rewrite Hg3 by (apply Ha; lia).
    split_tests; try reflexivity; lia. }
  split.
  { intros g Hg Hout. rewrite Hg3 by exact Hg.
    split_tests; try reflexivity; lia. }
  split; [ exact Hfc3 | ].
  split.
  { assert (Hrel : release_frames (before ++ p3 :: after)
                                  (base_frame_no p + k2)
                     = Done (before
                             ++ release_sequence p3
                                  (base_frame_no p + k2 - base_frame_no p3)
                             :: after));
      [ | replace (base_frame_no p + k2 - base_frame_no p3) with k2 in Hrel
            by (rewrite Hb3; lia);
          exact Hrel ].
    apply release_frames_head.
    - intros q Hq. apply Hnot; [ exact Hq | unfold owns; lia ].
    - apply wf_fields, Hwf3.
    - rewrite Hb3, Hn3. lia.
    - unfold owns. rewrite Hb3, Hn3. lia.
    - rewrite Hb3.
      replace (base_frame_no p + k2 - base_frame_no p) with k2 by lia.
      rewrite Hg3, Hst2 by (apply Ha; lia).
      split_tests; try reflexivity; lia. }
  assert (Hfc4 : nFreeFrames (release_sequence p3 k2) = nFreeFrames p).
  { rewrite Hf4, Hfc3.
    replace (nFreeFrames p - n2 + (1 + (n2 - 1))) with (nFreeFrames p) by lia.
    apply to_ulong_small. lia. }
  unfold same_frames. rewrite Hb4, Hn4, Hb3, Hn3.
  split; [ reflexivity | ]. split; [ reflexivity | ].
  split; [ exact Hfc4 | ].
  intros g Hg. rewrite Hg4, Hg3, Hst2, Hst1 by exact Hg.
  split_tests; try reflexivity; try lia; symmetry;
    first [ apply Hfree2; lia | apply Hrunk; lia ].
Qed.

(** ** The run structure of the bitmap *)

Lemma release_frames_used_continues_run pools f :
  (forall q, In q pools -> pool_wf q /\ used_continues_run q) ->
  forall q', In q' (outcome_pools (release_frames pools f)) ->
             used_continues_run q'.
Proof.
  induction pools as [ | p rest IH ]; intros Hall q' Hq'.
  - simpl in Hq'. contradiction.
  - cbn [release_frames] in Hq'.
    destruct (Hall p (or_introl eq_refl)) as [Hwf Hc].
    pose proof Hwf as (Hb0 & Hnf & Hw & H2 & H4 & Hfr).
    rewrite (to_ulong_small (base_frame_no p + nframes p)) in Hq' by lia.
    destruct (Z.geb_spec f (base_frame_no p)) as [ Hge | Hlt ];
      [ destruct (Z.ltb_spec f (base_frame_no p + nframes p)) as [ Hin | Hout ] | ];
      cbn [andb] in Hq'.
    + rewrite (to_ulong_small (f - base_frame_no p)) in Hq' by lia.
      destruct (get_state (bitmap p) (f - base_frame_no p)) eqn:E;
        cbn [outcome_pools] in Hq';
        try (apply Hall; exact Hq').
      destruct Hq' as [ <- | Hq' ];
        [ | apply Hall; right; exact Hq' ].
      apply release_sequence_used_continues_run; try assumption. lia.
    + destruct (release_frames rest f) eqn:E; cbn [outcome_pools] in *;
        (destruct Hq' as [ <- | Hq' ];
         [ apply Hall; left; reflexivity
         | apply IH; [ intros q Hq; apply Hall; right; exact Hq | exact Hq' ] ]).
    + destruct (release_frames rest f) eqn:E; cbn [outcome_pools] in *;
        (destruct Hq' as [ <- | Hq' ];
         [ apply Hall; left; reflexivity
         | apply IH; [ intros q Hq; apply Hall; right; exact Hq | exact Hq' ] ]).
Qed.

(** X17. In every state the operations reach, a [Used] frame directly
    follows a [HoS], [Used] or [Reserved] frame, never a [Free] one: the
    constructor establishes this, and [get_frames], [mark_inaccessible]
    and [release_frames] keep it. *)
Theorem used_frames_continue_a_run :
  (forall memory pools base n info,
     1 <= n -> n * 2 <= ULONG_MOD -> n <= 4 * UINT_MOD ->
     used_continues_run
       (fst (ContFramePool_new memory pools base n info))) /\
  (forall p n,
     pool_wf p -> nFreeFrames p <= nframes p -> used_continues_run p ->
     1 <= n ->
     exists p' f,
       get_frames p n = Returns (p', f) /\ used_continues_run p') /\
  (forall p b n,
     pool_wf p -> used_continues_run p ->
     0 <= b < ULONG_MOD -> 1 <= n ->
     b - base_frame_no p + n < ULONG_MOD ->
     used_continues_run (mark_inaccessible p b n)) /\
  (forall pools f,
     (forall q, In q pools -> pool_wf q /\ used_continues_run q) ->
     forall q', In q' (outcome_pools (release_frames pools f)) ->
                used_continues_run q').
Proof.
  split; [ | split; [ | split ] ].
  - intros memory pools base n info.
    apply constructor_used_continues_run.
  - intros p n Hwf Hfc Hinv Hn.
    assert (Hex : exists p' f, get_frames p n = Returns (p', f)).
    { destruct (get_frames_cases p n Hwf Hfc Hn)
        as [ Hfail | (k & bm1 & _ & _ & _ & _ & _ & Hget & _) ];
        eexists; eexists; eassumption. }
    destruct Hex as (p' & f & Hget). exists p', f.
    split; [ exact Hget | ].
    apply (get_frames_used_continues_run p n p' f); assumption.
  - intros p b n. apply mark_inaccessible_used_continues_run.
  - intros pools f. apply release_frames_used_continues_run.
Qed.

(** ** A full registry *)

Lemma constructor_external_wf memory pools base n info :
  info <> 0 -> 0 <= base -> 1 <= n -> base + n < ULONG_MOD ->
  n * 2 <= ULONG_MOD -> n <= 4 * UINT_MOD ->
  fst (ContFramePool_new memory pools base n info)
  = mkPool base n n info (init_free memory 0 (Z.to_nat n)) /\
  pool_wf (fst (ContFramePool_new memory pools base n info)) /\
  run_free (bitmap (fst (ContFramePool_new memory pools base n info))) 0 n.
Proof.
  intros Hinfo Hb Hn Hw H2 H4. unfold ContFramePool_new. cbn [fst].
  destruct (Z.eqb_spec info 0) as [ He | _ ]; [ contradiction | ].
  split; [ reflexivity | ]. split.
  - unfold pool_wf. cbn [base_frame_no nframes nFreeFrames].
    repeat split; lia.
  - intros i Hi. cbn [bitmap]. apply init_free_all_free; assumption || lia.
Qed.

(** X18. Once [Max_pools] pools are registered, the constructor registers
    no further pool.  Such a pool still serves requests, but the frames it
    hands out cannot be released: [release_frames] ends in the fatal
    "not found" path. *)
Theorem unregistered_pool_cannot_release memory pools base n info m :
  Max_pools <= Z.of_nat (List.length pools) ->
  info <> 0 -> 0 <= base -> 1 <= m -> m <= n -> base + n < ULONG_MOD ->
  n * 2 <= ULONG_MOD -> n <= 4 * UINT_MOD ->
  (forall q, In q pools -> fields_in_range q /\ ~ owns q base) ->
  snd (ContFramePool_new memory pools base n info) = pools /\
  exists p',
    get_frames (fst (ContFramePool_new memory pools base n info)) m
    = Returns (p', base) /\
    get_state (bitmap p') 0 = HoS /\
    release_frames (snd (ContFramePool_new memory pools base n info)) base
    = Fatal msg_not_found pools.
Proof.
  intros Hfull Hinfo Hb Hm Hmn Hw H2 H4 Hpools.
  destruct (constructor_external_wf memory pools base n info)
    as (Hpool & Hwf & Hfree); try assumption; try lia.
  assert (Hreg : snd (ContFramePool_new memory pools base n info) = pools).
  { unfold ContFramePool_new. cbn [snd].
    destruct (Z.ltb_spec (Z.of_nat (List.length pools)) Max_pools);
      [ lia | reflexivity ]. }
  split; [ exact Hreg | ].
  destruct (get_frames_found
              (fst (ContFramePool_new memory pools base n info)) m 0)
    as (bm1 & Hget & Hst); try assumption.
  - rewrite Hpool. cbn [nFreeFrames]. lia.
  - lia.
  - rewrite Hpool. cbn [nframes]. lia.
  - intros i Hi. apply Hfree. lia.
  - intros j Hj. lia.
  - rewrite Hpool in Hget. cbn [base_frame_no nframes nFreeFrames
                                 info_frame_no] in Hget.
    rewrite Z.add_0_r in Hget. rewrite Hpool.
    eexists. split; [ exact Hget | ]. cbn [bitmap].
    split.
    + rewrite Hst by apply addressable_0. reflexivity.
    + rewrite Hreg. apply release_frames_not_found. exact Hpools.
Qed.

(** ** needed_info_frames and the bitmap *)

Lemma needed_info_frames_value n :
  0 <= n -> n * 2 + 7 < ULONG_MOD ->
  (n * 2 + 7) / 8 + FRAME_SIZE - 1 < ULONG_MOD ->
  needed_info_frames n = ((n * 2 + 7) / 8 + FRAME_SIZE - 1) / FRAME_SIZE.
Proof using FRAME_SIZE_pos.
  clear int_bits_min long_bits_min.
  intros Hn Hfit Hfit2. unfold needed_info_frames; cbv zeta.
  rewrite (to_ulong_small (n * 2)) by lia.
  rewrite (to_ulong_small (n * 2 + 7)) by lia.
  assert (H0 : 0 <= (n * 2 + 7) / 8) by (apply Z.div_pos; lia).
  replace (to_ulong (to_ulong ((n * 2 + 7) / 8 + FRAME_SIZE) - 1))
    with (to_ulong ((n * 2 + 7) / 8 + FRAME_SIZE - 1))
    by (unfold to_ulong; symmetry; apply Zminus_mod_idemp_l).
  rewrite to_ulong_small by lia.
  reflexivity.
Qed.

Lemma round_up_bounds x F :
  0 < F -> x <= (x + F - 1) / F * F /\ ((x + F - 1) / F - 1) * F < x.
Proof using.
  clear. intros HF.
  pose proof (Z.div_mod (x + F - 1) F ltac:(lia)) as Hdm.
  pose proof (Z.mod_pos_bound (x + F - 1) F HF) as Hr.
  nia.
Qed.

(** X19. The frames [needed_info_frames n] asks for hold the bitmap of a
    pool of [n] frames and not one frame could be spared: every bitmap
    byte [get_state] and [set_state] touch for the frames [0 .. n-1] lies
    in the first [needed_info_frames n * FRAME_SIZE] bytes, and the byte
    of the last frame lies in the last of these frames. *)
Theorem needed_info_frames_hold_bitmap n :
  1 <= n -> n * 2 + 7 < ULONG_MOD ->
  (n * 2 + 7) / 8 + FRAME_SIZE - 1 < ULONG_MOD ->
  n <= 4 * UINT_MOD ->
  (forall f, 0 <= f < n ->
     0 <= to_uint (to_ulong (f * 2) / 8)
       < needed_info_frames n * FRAME_SIZE) /\
  (needed_info_frames n - 1) * FRAME_SIZE
  <= to_uint (to_ulong ((n - 1) * 2) / 8).
Proof.
  intros Hn Hfit Hfit2 H4.
  rewrite needed_info_frames_value by lia.
  destruct (round_up_bounds ((n * 2 + 7) / 8) FRAME_SIZE FRAME_SIZE_pos)
    as [Hle Hlt].
  assert (Hslot : forall f, 0 <= f < n ->
            to_uint (to_ulong (f * 2) / 8) = f * 2 / 8).
  { intros f Hf. apply addressable_slot.
    apply (small_addressable n); lia. }
  split.
  - intros f Hf. rewrite Hslot by exact Hf.
    assert (0 <= f * 2 / 8 < (n * 2 + 7) / 8)
      by (Z.div_mod_to_equations; lia).
    lia.
  - rewrite Hslot by lia.
    assert ((n - 1) * 2 / 8 = (n * 2 + 7) / 8 - 1)
      by (Z.div_mod_to_equations; lia).
    lia.
Qed.

(** X20. [needed_info_frames] is monotone as long as its arithmetic does
    not wrap: a pool of more frames never needs fewer info frames. *)
Theorem needed_info_frames_monotone n m :
  0 <= n -> n <= m -> m * 2 + 7 < ULONG_MOD ->
  (m * 2 + 7) / 8 + FRAME_SIZE - 1 < ULONG_MOD ->
  needed_info_frames n <= needed_info_frames m.
Proof using FRAME_SIZE_pos.
  clear int_bits_min long_bits_min.
  intros Hn Hnm Hfit Hfit2.
  assert (Hdiv : (n * 2 + 7) / 8 <= (m * 2 + 7) / 8)
    by (apply Z.div_le_mono; lia).
  rewrite !needed_info_frames_value by lia.
  apply Z.div_le_mono; lia.
Qed.

(** X21. A pool that hosts its own bitmap sets aside its first frame only,
    however long the bitmap is: for more than [4 * FRAME_SIZE] frames
    [needed_info_frames] asks for at least two frames, yet the first
    request for one frame is served with frame [base_frame_no + 1]. *)
Theorem self_hosted_reserves_one_frame memory pools base n :
  0 <= base -> 4 * FRAME_SIZE < n -> base + n < ULONG_MOD ->
  n * 2 + 7 < ULONG_MOD -> (n * 2 + 7) / 8 + FRAME_SIZE - 1 < ULONG_MOD ->
  n <= 4 * UINT_MOD ->
  2 <= needed_info_frames n /\
  exists p',
    get_frames (fst (ContFramePool_new memory pools base n 0)) 1
    = Returns (p', base + 1) /\
    get_state (bitmap p') 0 = Used /\
    get_state (bitmap p') 1 = HoS.
Proof.
  intros Hb Hbig Hw Hfit Hfit2 H4. split.
  - rewrite needed_info_frames_value by lia.
    assert (Hbytes : FRAME_SIZE + 1 <= (n * 2 + 7) / 8)
      by (Z.div_mod_to_equations; lia).
    apply Z.div_le_lower_bound; lia.
  - assert (Hpool : fst (ContFramePool_new memory pools base n 0)
                    = mkPool base n (n - 1) 0
                        (set_state (init_free memory 0 (Z.to_nat n)) 0 Used)).
    { unfold ContFramePool_new. cbn [fst Z.eqb].
      rewrite to_ulong_small by lia. reflexivity. }
    rewrite Hpool.
    set (bm0 := set_state (init_free memory 0 (Z.to_nat n)) 0 Used).
    assert (H0 : get_state bm0 0 = Used)
      by (apply get_set_same, addressable_0).
    assert (H1 : get_state bm0 1 = Free).
    { unfold bm0. rewrite get_set_other;
        [ | apply addressable_0 | apply (small_addressable n); lia | lia ].
      apply init_free_all_free; lia. }
    destruct (get_frames_found (mkPool base n (n - 1) 0 bm0) 1 1)
      as (bm1 & Hget & Hst).
    + unfold pool_wf. cbn [base_frame_no nframes nFreeFrames].
      repeat split; lia.
    + cbn [nFreeFrames]. lia.
    + lia.
    + cbn [nframes]. lia.
    + intros i Hi. cbn [bitmap]. assert (i = 1) by lia. subst i. exact H1.
    + intros j Hj Hr. cbn [bitmap] in Hr. assert (j = 0) by lia. subst j.
      rewrite (Hr 0) in H0 by lia. discriminate H0.
    + cbn [base_frame_no nframes nFreeFrames info_frame_no bitmap] in *.
      eexists. split; [ exact Hget | ]. cbn [bitmap]. split.
      * rewrite Hst by apply addressable_0. simpl. exact H0.
      * rewrite Hst by (apply (small_addressable n); lia). reflexivity.
Qed.

(** X22. A fresh pool with an external bitmap can be handed out as a
    whole: the request for all its frames returns [base_frame_no] and
    leaves the counter at 0, every further request fails, and releasing
    [base_frame_no] gives back the pool as it was constructed. *)
Theorem fresh_pool_whole_cycle memory base n info :
  info <> 0 -> 0 <= base -> 1 <= n -> base + n < ULONG_MOD ->
  n * 2 <= ULONG_MOD -> n <= 4 * UINT_MOD ->
  snd (ContFramePool_new memory [] base n info)
  = [fst (ContFramePool_new memory [] base n info)] /\
  exists p1 p2,
    get_frames (fst (ContFramePool_new memory [] base n info)) n
    = Returns (p1, base) /\
    nFreeFrames p1 = 0 /\
    (forall m, 1 <= m -> get_frames p1 m = Returns (p1, 0)) /\
    release_frames [p1] base = Done [p2] /\
    same_frames p2 (fst (ContFramePool_new memory [] base n info)).
Proof.
  intros Hinfo Hb Hn Hw H2 H4.
  destruct (constructor_external_wf memory [] base n info)
    as (Hpool & Hwf & Hfree); try assumption.
  split; [ reflexivity | ].
  set (pool := fst (ContFramePool_new memory [] base n info)) in *.
  assert (Hbase : base_frame_no pool = base) by (rewrite Hpool; reflexivity).
  assert (Hnf : nframes pool = n) by (rewrite Hpool; reflexivity).
  assert (Hfc : nFreeFrames pool = n) by (rewrite Hpool; reflexivity).
  assert (Ha : forall g, 0 <= g < n -> addressable g)
    by (intros g Hg; apply (small_addressable n); assumption).
  destruct (get_frames_found pool n 0) as (bm1 & Hget & Hst);
    try assumption; try lia.
  rewrite Hbase, Hnf, Hfc, Z.add_0_r, Z.sub_diag in Hget.
  set (p1 := mkPool base n 0 (info_frame_no pool) bm1) in *.
  assert (Hwf1 : pool_wf p1).
  { unfold pool_wf, p1. cbn [base_frame_no nframes nFreeFrames].
    pose proof ULONG_MOD_ge. pose proof UINT_MOD_ge. repeat split; lia. }
  destruct (release_sequence_run p1 0 (n - 1))
    as (Hb2 & Hn2 & Hi2 & Hf2 & Hg2); try assumption.
  { cbn [p1 nframes]. lia. }
  { lia. }
  { cbn [p1 nframes]. lia. }
  { intros j Hj. cbn [p1 bitmap]. rewrite Hst by (apply Ha; lia).
    split_tests; try reflexivity; lia. }
  { left. cbn [p1 nframes]. lia. }
  exists p1, (release_sequence p1 0).
  split; [ exact Hget | ]. split; [ reflexivity | ]. split.
  { intros m Hm. apply get_frames_guard. cbn [p1 nFreeFrames]. lia. }
  split.
  { assert (Hrel : release_frames ([] ++ p1 :: []) base
                   = Done ([] ++ release_sequence p1 (base - base_frame_no p1)
                           :: []));
      [ | cbn [p1 base_frame_no] in Hrel; rewrite Z.sub_diag in Hrel;
          exact Hrel ].
    apply release_frames_head.
    - intros q [].
    - apply wf_fields, Hwf1.
    - cbn [p1 base_frame_no nframes]. lia.
    - unfold owns. cbn [p1 base_frame_no nframes]. lia.
    - cbn [p1 base_frame_no bitmap]. rewrite Z.sub_diag.
      rewrite Hst by apply addressable_0. reflexivity. }
  unfold same_frames. rewrite Hb2, Hn2, Hf2, Hbase, Hnf, Hfc.
  cbn [p1 base_frame_no nframes nFreeFrames].
  split; [ reflexivity | ]. split; [ reflexivity | ].
  split.
  { replace (0 + (1 + (n - 1))) with n by lia.
    pose proof ULONG_MOD_ge. pose proof UINT_MOD_ge.
    apply to_ulong_small. lia. }
  intros g Hg. rewrite Hg2 by exact Hg. cbn [p1 bitmap].
  split_tests.
  - symmetry. apply Hfree. lia.
  - rewrite Hst by exact Hg. split_tests; try reflexivity; lia.
  - rewrite Hst by exact Hg. split_tests; try reflexivity; lia.
  - rewrite Hst by exact Hg. split_tests; try reflexivity; lia.
Qed.

(** ** Sequences of calls *)

Lemma consistent_counter_le p :
  pool_wf p -> free_count_consistent p -> nFreeFrames p <= nframes p.
Proof.
  intros (_ & Hnf & _) Hc. unfold free_count_consistent in Hc.
  pose proof (count_free_bounds (bitmap p) (Z.to_nat (nframes p))) as Hcb.
  rewrite Z2Nat.id in Hcb by lia. lia.
Qed.

Lemma pool_step_sound p q :
  pool_step p q ->
  pool_wf p -> free_count_consistent p -> used_continues_run p ->
  pool_wf q /\ free_count_consistent q /\ used_continues_run q /\
  base_frame_no q = base_frame_no p /\ nframes q = nframes p /\
  (get_state (bitmap p) 0 = Used -> get_state (bitmap q) 0 = Used).
Proof.
  intros Hstep Hwf Hc Hinv.
  pose proof (consistent_counter_le p Hwf Hc) as Hle.
  pose proof Hwf as (Hb0 & Hnf & Hw & H2 & H4 & Hfr).
  destruct Hstep as [ p n Hn | p b n Hn Hb Hend Hrun | p f Ho Hhead ].
  - unfold pool_after_get_frames.
    destruct (get_frames_cases p n Hwf Hle Hn)
      as [ Hfail | (k & bm1 & Hk & Hkn & Hge & Hrun & Hmin & Hget & Hst) ].
    + rewrite Hfail. split; [ exact Hwf | ]. split; [ exact Hc | ].
      split; [ exact Hinv | ]. split; [ reflexivity | ].
      split; [ reflexivity | intros H; exact H ].
    + destruct (get_frames_consistent p n Hwf Hc Hn)
        as (p' & f & Hget' & Hwf' & Hc').
      pose proof (get_frames_used_continues_run p n p' f Hwf Hle Hinv Hn Hget')
        as Hinv'.
      rewrite Hget' in Hget. injection Hget as Hp _.
      rewrite Hget'. split; [ exact Hwf' | ]. split; [ exact Hc' | ].
      split; [ exact Hinv' | ]. rewrite Hp.
      cbn [base_frame_no nframes bitmap].
      split; [ reflexivity | ]. split; [ reflexivity | ].
      intros H0. rewrite Hst by apply addressable_0.
      destruct (Z.eqb_spec 0 k) as [ <- | Hne ].
      { rewrite (Hrun 0) in H0 by lia. discriminate H0. }
      destruct (Z.ltb_spec k 0); [ lia | ]. exact H0.
  - destruct (mark_inaccessible_consistent p b n) as [Hwf' Hc'];
      try assumption.
    split; [ exact Hwf' | ]. split; [ exact Hc' | ].
    split; [ apply mark_inaccessible_used_continues_run; try assumption; lia | ].
    destruct (mark_inaccessible_marks p b n) as (bm1 & Hmark & Hst);
      try assumption; try lia.
    rewrite Hmark. cbn [base_frame_no nframes bitmap].
    split; [ reflexivity | ]. split; [ reflexivity | ].
    intros H0. rewrite Hst by apply addressable_0.
    destruct (Z.eqb_spec 0 (b - base_frame_no p)) as [ He | Hne ].
    { rewrite (Hrun 0) in H0 by lia. discriminate H0. }
    destruct (Z.ltb_spec (b - base_frame_no p) 0); [ lia | ]. exact H0.
  - unfold owns in Ho.
    destruct (release_sequence_consistent p (f - base_frame_no p))
      as [Hwf' Hc']; try assumption; try lia.
    split; [ exact Hwf' | ]. split; [ exact Hc' | ].
    split; [ apply release_sequence_used_continues_run; try assumption; lia | ].
    destruct (release_frames_run [] p [] f) as
      (m & Hm & Hend & Hused & Hstop & _ & Hb & Hn & _ & Hst);
      try assumption.
    { intros q []. }
    split; [ exact Hb | ]. split; [ exact Hn | ].
    intros H0. rewrite Hst by apply addressable_0.
    destruct (Z.leb_spec (f - base_frame_no p) 0); [ | exact H0 ].
    assert (He : f - base_frame_no p = 0) by lia.
    rewrite He, H0 in Hhead. discriminate Hhead.
Qed.

Lemma pool_reachable_sound start p :
  pool_reachable start p ->
  pool_wf start -> free_count_consistent start -> used_continues_run start ->
  pool_wf p /\ free_count_consistent p /\ used_continues_run p /\
  base_frame_no p = base_frame_no start /\ nframes p = nframes start /\
  (get_state (bitmap start) 0 = Used -> get_state (bitmap p) 0 = Used).
Proof.
  intros Hreach Hwf Hc Hinv.
  induction Hreach as [ | p q Hreach IH Hstep ].
  - split; [ exact Hwf | ]. split; [ exact Hc | ].
    split; [ exact Hinv | ]. split; [ reflexivity | ].
    split; [ reflexivity | intros H; exact H ].
  - destruct IH as (Hwfp & Hcp & Hinvp & Hbp & Hnp & H0p).
    destruct (pool_step_sound p q Hstep Hwfp Hcp Hinvp)
      as (Hwfq & Hcq & Hinvq & Hbq & Hnq & H0q).
    split; [ exact Hwfq | ]. split; [ exact Hcq | ].
    split; [ exact Hinvq | ]. split; [ congruence | ].
    split; [ congruence | ]. intros H0. apply H0q, H0p, H0.
Qed.

(** X23. Through any sequence of requests for at least one frame,
    reservations of free frames of the pool and releases of run heads,
    the counter equals the number of [Free] frames (so it never exceeds
    the pool size), no [Used] frame follows a [Free] one, and the range
    of the pool is the one it was constructed with; in such a state every
    request for at least one frame returns. *)
Theorem reachable_pools_stay_consistent start p :
  pool_wf start -> free_count_consistent start -> used_continues_run start ->
  pool_reachable start p ->
  pool_wf p /\ free_count_consistent p /\ used_continues_run p /\
  nFreeFrames p <= nframes p /\
  base_frame_no p = base_frame_no start /\ nframes p = nframes start /\
  forall n, 1 <= n -> exists p' f, get_frames p n = Returns (p', f).
Proof.
  intros Hwf Hc Hinv Hreach.
  destruct (pool_reachable_sound start p Hreach Hwf Hc Hinv)
    as (Hwfp & Hcp & Hinvp & Hbp & Hnp & _).
  pose proof (consistent_counter_le p Hwfp Hcp) as Hle.
  split; [ exact Hwfp | ]. split; [ exact Hcp | ].
  split; [ exact Hinvp | ]. split; [ exact Hle | ].
  split; [ exact Hbp | ]. split; [ exact Hnp | ].
  intros n Hn.
  destruct (get_frames_cases p n Hwfp Hle Hn)
    as [ Hfail | (k & bm1 & _ & _ & _ & _ & _ & Hget & _) ];
    eexists; eexists; eassumption.
Qed.

(** X24. The info frame of a pool that hosts its own bitmap is never
    handed out: in every state reached from the constructed pool through
    requests for at least one frame, reservations of free frames and
    releases of run heads, frame 0 is [Used], and a successful request
    returns a frame number above [base_frame_no]. *)
Theorem info_frame_never_handed_out memory pools base n p :
  0 <= base -> 1 <= n -> base + n < ULONG_MOD ->
  n * 2 <= ULONG_MOD -> n <= 4 * UINT_MOD ->
  pool_reachable (fst (ContFramePool_new memory pools base n 0)) p ->
  get_state (bitmap p) 0 = Used /\
  forall m p' f,
    1 <= m -> get_frames p m = Returns (p', f) -> p' <> p -> base < f.
Proof.
  intros Hb Hn Hw H2 H4 Hreach.
  set (start := fst (ContFramePool_new memory pools base n 0)) in *.
  assert (Hstart : start
                   = mkPool base n (n - 1) 0
                       (set_state (init_free memory 0 (Z.to_nat n)) 0 Used)).
  { unfold start, ContFramePool_new. cbn [fst Z.eqb].
    pose proof ULONG_MOD_ge. pose proof UINT_MOD_ge.
    rewrite to_ulong_small by lia. reflexivity. }
  assert (Hwf : pool_wf start).
  { rewrite Hstart. unfold pool_wf. cbn [base_frame_no nframes nFreeFrames].
    repeat split; lia. }
  assert (H0 : get_state (bitmap start) 0 = Used).
  { rewrite Hstart. cbn [bitmap]. apply get_set_same, addressable_0. }
  destruct (pool_reachable_sound start p Hreach Hwf)
    as (Hwfp & Hcp & Hinvp & Hbp & Hnp & H0p).
  { apply constructor_consistent; assumption. }
  { apply constructor_used_continues_run; assumption. }
  split; [ apply H0p, H0 | ].
  intros m p' f Hm Hget Hne.
  pose proof (consistent_counter_le p Hwfp Hcp) as Hle.
  destruct (get_frames_cases p m Hwfp Hle Hm)
    as [ Hfail | (k & bm1 & Hk & Hkm & Hge & Hrun & _ & Hget' & _) ].
  - rewrite Hfail in Hget. injection Hget as <- _. contradiction.
  - rewrite Hget' in Hget. injection Hget as _ <-.
    rewrite Hbp, Hstart. cbn [base_frame_no].
    destruct (Z.eq_dec k 0) as [ -> | Hk0 ]; [ | lia ].
    rewrite (Hrun 0) in H0p by lia. specialize (H0p H0). discriminate H0p.
Qed.

(** X25. Released frames are handed out again: when a request is served,
    its frames released and the same request repeated, the second call
    returns the same frame number as the first. *)
Theorem released_frames_are_reused before p after n s :
  pool_wf p -> used_continues_run p ->
  (forall q, In q before ->
     fields_in_range q /\ forall f, owns p f -> ~ owns q f) ->
  1 <= n -> n <= nFreeFrames p ->
  0 <= s -> s + n <= nframes p -> run_free (bitmap p) s n ->
  exists p1 f p2 p3,
    get_frames p n = Returns (p1, f) /\
    release_frames (before ++ p1 :: after) f = Done (before ++ p2 :: after) /\
    get_frames p2 n = Returns (p3, f) /\
    forall g, f <= g < f + n ->
      get_state (bitmap p3) (g - base_frame_no p)
      = get_state (bitmap p1) (g - base_frame_no p).
Proof.
  intros Hwf Hinv Hbefore Hn Hfc Hs Hsn Hrun.
  pose proof Hwf as (Hb0 & Hnf & Hw & H2 & H4 & Hfr).
  assert (Ha : forall g, 0 <= g < nframes p -> addressable g)
    by (intros g Hg; apply (wf_addressable p); assumption).
  destruct (least_run (bitmap p) n s) as (k & Hk & Hrunk & Hmin);
    try assumption; try lia.
  destruct (get_frames_found p n k) as (bm1 & Hget & Hst);
    try assumption; try lia.
  set (p1 := mkPool (base_frame_no p) (nframes p) (nFreeFrames p - n)
                    (info_frame_no p) bm1) in *.
  assert (Hwf1 : pool_wf p1).
  { unfold pool_wf, p1. cbn [base_frame_no nframes nFreeFrames].
    repeat split; lia. }
  destruct (release_sequence_run p1 k (n - 1)) as (Hb2 & Hn2 & Hi2 & Hf2 & Hg2);
    try assumption.
  { cbn [p1 nframes]. lia. }
  { lia. }
  { cbn [p1 nframes]. lia. }
  { intros j Hj. cbn [p1 bitmap]. rewrite Hst by (apply Ha; lia).
    split_tests; try reflexivity; lia. }
  { cbn [p1 nframes bitmap].
    destruct (Z.eq_dec (k + 1 + (n - 1)) (nframes p)) as [ Heq | Hneq ];
      [ left; exact Heq | right ].
    rewrite Hst by (apply Ha; lia).
    split_tests; try discriminate; try lia;
      (replace (k + 1 + (n - 1)) with (k + n - 1 + 1) by lia);
      (apply Hinv; [ lia | lia | apply Hrunk; lia ]). }
  cbn [p1 base_frame_no nframes nFreeFrames info_frame_no bitmap] in *.
  set (p2 := release_sequence p1 k) in *.
  assert (Hfc2 : nFreeFrames p2 = nFreeFrames p).
  { rewrite Hf2. replace (nFreeFrames p - n + (1 + (n - 1)))
      with (nFreeFrames p) by lia.
    apply to_ulong_small. exact Hfr. }
  assert (Hwf2 : pool_wf p2).
  { unfold pool_wf. rewrite Hb2, Hn2, Hfc2. repeat split; lia. }
  assert (Hsame : forall g, 0 <= g < nframes p ->
                    get_state (bitmap p2) g = get_state (bitmap p) g).
  { intros g Hg. rewrite Hg2, Hst by (apply Ha; lia).
    split_tests; try reflexivity; try lia; symmetry; apply Hrunk; lia. }
  destruct (get_frames_found p2 n k) as (bm3 & Hget3 & Hst3);
    try assumption; try lia.
  { intros i Hi. rewrite Hsame by lia. apply Hrunk. exact Hi. }
  { intros j Hj Hr. apply (Hmin j Hj). intros i Hi.
    rewrite <- Hsame by lia. apply Hr. exact Hi. }
  rewrite Hb2 in Hget3.
  eexists. eexists. exists p2. eexists.
  split; [ exact Hget | ]. split.
  { assert (Hrel : release_frames (before ++ p1 :: after)
                                  (base_frame_no p + k)
                   = Done (before
                           ++ release_sequence p1
                                (base_frame_no p + k - base_frame_no p1)
                           :: after));
      [ | replace (base_frame_no p + k - base_frame_no p1) with k in Hrel
            by (cbn [p1 base_frame_no]; lia);
          exact Hrel ].
    apply release_frames_head.
    - intros q Hq. destruct (Hbefore q Hq) as [Hfq Hno].
      split; [ exact Hfq | ]. apply Hno. unfold owns. lia.
    - apply wf_fields, Hwf1.
    - cbn [p1 base_frame_no nframes]. lia.
    - unfold owns. cbn [p1 base_frame_no nframes]. lia.
    - cbn [p1 base_frame_no bitmap].
      replace (base_frame_no p + k - base_frame_no p) with k by lia.
      rewrite Hst by (apply Ha; lia). split_tests; try reflexivity; lia. }
  split; [ exact Hget3 | ].
  intros g Hg. cbn [p1 bitmap].
  rewrite Hst3, Hst by (apply Ha; lia).
  split_tests; try reflexivity; lia.
Qed.

Lemma get_state_all_zeros bm f :
  (forall a, bm a = 0) -> get_state bm f = Free.
Proof.
  intros Hbm. rewrite get_state_eq, Hbm.
  pose proof (slot_offset_bit f) as Hoff. unfold bit_offsets in Hoff.
  simpl in Hoff.
  destruct Hoff as [ <- | [ <- | [ <- | [ <- | [] ] ] ] ]; reflexivity.
Qed.

End Machine.

(** * The theorems on concrete pools (32-bit [unsigned int] and
      [unsigned long], [FRAME_SIZE = 4096]) *)

Ltac solve_wf :=
  unfold pool_wf, fields_in_range, owns, ULONG_MOD, UINT_MOD, ULONG_MAX,
         Max_pools, all_free_pool, fragmented_pool, second_pool;
  cbn; lia.

Ltac widths H :=
  repeat match type of H with
         | (_ <= _) -> _ => specialize (H ltac:(lia))
         | (_ < _) -> _ => specialize (H ltac:(lia))
         end.

Ltac by_state H :=
  first [ vm_compute in H; discriminate H | vm_compute; congruence ].

Lemma fragmented_run_at_4 : run_free 32 32 (bitmap fragmented_pool) 4 2.
Proof.
  intros i Hi. assert (Hc : i = 4 \/ i = 5) by lia.
  destruct Hc as [ -> | -> ]; vm_compute; reflexivity.
Defined.

Lemma fragmented_no_run_before_4 :
  forall j, 0 <= j < 4 -> ~ run_free 32 32 (bitmap fragmented_pool) j 2.
Proof.
  intros j Hj Hr.
  assert (Hc : j = 0 \/ j = 1 \/ j = 2 \/ j = 3) by lia.
  destruct Hc as [ -> | [ -> | [ -> | -> ] ] ];
    [ specialize (Hr 0 ltac:(lia)) | specialize (Hr 1 ltac:(lia))
    | specialize (Hr 3 ltac:(lia)) | specialize (Hr 3 ltac:(lia)) ];
    vm_compute in Hr; discriminate Hr.
Defined.

Lemma fragmented_used_continues_run : used_continues_run 32 32 fragmented_pool.
Proof.
  intros i H0 H1 Hf. change (nframes fragmented_pool) with 10 in H1.
  assert (Hc : i = 0 \/ i = 1 \/ i = 2 \/ i = 3 \/ i = 4 \/ i = 5 \/
               i = 6 \/ i = 7 \/ i = 8) by lia.
  destruct Hc as [ -> | [ -> | [ -> | [ -> | [ -> | [ -> | [ -> | [ -> | -> ] ] ] ] ] ] ] ];
    by_state Hf.
Defined.

Lemma get_frames_first_fit_witness :
  exists p',
    get_frames 32 32 fragmented_pool 2
    = Returns (p', base_frame_no fragmented_pool + 4) /\
    base_frame_no p' = base_frame_no fragmented_pool /\
    nframes p' = nframes fragmented_pool /\
    nFreeFrames p' = nFreeFrames fragmented_pool - 2 /\
    get_state 32 32 (bitmap p') 4 = HoS /\
    (forall i, 4 < i < 4 + 2 -> get_state 32 32 (bitmap p') i = Used) /\
    (forall g, addressable 32 32 g -> ~ (4 <= g < 4 + 2) ->
               get_state 32 32 (bitmap p') g
               = get_state 32 32 (bitmap fragmented_pool) g).
Proof.
  apply get_frames_first_fit; try lia; try solve_wf.
  - exact fragmented_run_at_4.
  - exact fragmented_no_run_before_4.
Defined.

Lemma get_release_round_trip_witness :
  exists p' f p'',
    get_frames 32 32 fragmented_pool 2 = Returns (p', f) /\
    release_frames 32 32 ([second_pool] ++ p' :: []) f
    = Done ([second_pool] ++ p'' :: []) /\
    (forall g, f <= g < f + 2 ->
       get_state 32 32 (bitmap p') (g - base_frame_no fragmented_pool) <> Free /\
       get_state 32 32 (bitmap p'') (g - base_frame_no fragmented_pool) = Free) /\
    nFreeFrames p' = nFreeFrames fragmented_pool - 2 /\
    nFreeFrames p'' = nFreeFrames fragmented_pool /\
    same_frames 32 32 p'' fragmented_pool.
Proof.
  apply (get_release_round_trip 32 32) with (s := 5);
    try lia; try solve_wf.
  - exact fragmented_used_continues_run.
  - intros q [ <- | [] ]. split; [ solve_wf | ].
    intros f. solve_wf.
  - intros i Hi. assert (Hc : i = 5 \/ i = 6) by lia.
    destruct Hc as [ -> | -> ]; vm_compute; reflexivity.
Defined.

Lemma get_frames_exhausted_witness :
  get_frames 32 32 fragmented_pool 7 = Returns (fragmented_pool, 0).
Proof.
  apply get_frames_exhausted; try lia; try solve_wf.
  right. intros k Hk Hkn Hr. change (nframes fragmented_pool) with 10 in Hkn.
    specialize (Hr 3 ltac:(lia)). vm_compute in Hr. discriminate Hr.
Defined.

Lemma reserved_tail_not_reclaimed_witness :
  exists p2,
    release_frames 32 32
      ([second_pool] ++ mark_inaccessible 32 32 all_free_pool 102 3 :: []) 102
    = Done ([second_pool] ++ p2 :: []) /\
    get_state 32 32 (bitmap (mark_inaccessible 32 32 all_free_pool 102 3))
              (102 - base_frame_no all_free_pool) = HoS /\
    get_state 32 32 (bitmap p2) (102 - base_frame_no all_free_pool) = Free /\
    (forall f, 102 < f < 102 + 3 ->
       get_state 32 32 (bitmap (mark_inaccessible 32 32 all_free_pool 102 3))
                 (f - base_frame_no all_free_pool) = Reserved /\
       get_state 32 32 (bitmap p2) (f - base_frame_no all_free_pool)
       = Reserved) /\
    (forall g, addressable 32 32 g -> g <> 102 - base_frame_no all_free_pool ->
       get_state 32 32 (bitmap p2) g
       = get_state 32 32
           (bitmap (mark_inaccessible 32 32 all_free_pool 102 3)) g) /\
    nFreeFrames p2
    = to_ulong 32 (nFreeFrames (mark_inaccessible 32 32 all_free_pool 102 3) + 1) /\
    (nFreeFrames (mark_inaccessible 32 32 all_free_pool 102 3) < ULONG_MAX 32 ->
     nFreeFrames p2
     = nFreeFrames (mark_inaccessible 32 32 all_free_pool 102 3) + 1).
Proof.
  apply reserved_tail_not_reclaimed; try lia; try solve_wf.
  intros q [ <- | [] ]. split; solve_wf.
Defined.

Lemma release_frames_error_contract_witness :
  release_frames 32 32 [second_pool; fragmented_pool] 50
  = Fatal msg_not_found [second_pool; fragmented_pool] /\
  release_frames 32 32 [second_pool; fragmented_pool] 101
  = Fatal msg_not_head [second_pool; fragmented_pool].
Proof.
  assert (Hfields : forall q, In q [second_pool; fragmented_pool] ->
                              fields_in_range 32 q)
    by (intros q [ <- | [ <- | [] ] ]; solve_wf).
  pose proof (release_frames_error_contract 32 32) as H. widths H.
  split.
  - apply (proj1 (H [second_pool; fragmented_pool] 50 Hfields)).
    intros q [ <- | [ <- | [] ] ]; solve_wf.
  - apply (proj2 (H [second_pool; fragmented_pool] 101 Hfields)
                 [second_pool] fragmented_pool []).
    + reflexivity.
    + intros q [ <- | [] ]. solve_wf.
    + solve_wf.
    + solve_wf.
    + vm_compute. discriminate.
Defined.

(** The failing call of C6 on the 32-bit target: the range [1, 2^32) of a
    ten-frame pool is not rejected; the counter goes from 10 to 11 and the
    free frames 102 .. 109 of the pool become [Reserved]. *)
Lemma mark_inaccessible_sum_wraps_32 :
  nFreeFrames all_free_pool = 10 /\
  nFreeFrames (mark_inaccessible 32 32 all_free_pool 101 4294967295) = 11 /\
  forall f, 102 <= f <= 109 ->
    get_state 32 32 (bitmap all_free_pool) (f - 100) = Free /\
    get_state 32 32
      (bitmap (mark_inaccessible 32 32 all_free_pool 101 4294967295)) (f - 100)
    = Reserved.
Proof.
  destruct (mark_inaccessible_sum_wraps 32 32 ltac:(lia) ltac:(lia)
              all_free_pool 101 4294967295)
    as (_ & Hfc & _ & Hst); try solve_wf.
  split; [ reflexivity | ]. split.
  - rewrite Hfc. vm_compute. reflexivity.
  - intros f Hf. split.
    + assert (Hc : f = 102 \/ f = 103 \/ f = 104 \/ f = 105 \/ f = 106 \/
                   f = 107 \/ f = 108 \/ f = 109) by lia.
      destruct Hc as [ -> | [ -> | [ -> | [ -> | [ -> | [ -> | [ -> | -> ] ] ] ] ] ] ];
        vm_compute; reflexivity.
    + apply Hst. change (base_frame_no all_free_pool) with 100.
      unfold ULONG_MOD. change (2 ^ 32) with 4294967296. lia.
Defined.

Lemma free_count_consistency_witness :
  free_count_consistent 32 32
    (fst (ContFramePool_new 32 32 (fun _ => 255) [] 100 10 0)) /\
  (exists p' f,
     get_frames 32 32 fragmented_pool 2 = Returns (p', f) /\
     free_count_consistent 32 32 p') /\
  free_count_consistent 32 32 (mark_inaccessible 32 32 all_free_pool 102 3) /\
  (forall q',
     In q' (outcome_pools (release_frames 32 32 [fragmented_pool] 100)) ->
     free_count_consistent 32 32 q').
Proof.
  pose proof (free_count_consistency 32 32) as H. widths H.
  destruct H as (Hnew & Hget & Hmark & Hrel).
  split; [ | split; [ | split ] ].
  - apply Hnew; solve_wf.
  - apply Hget; [ solve_wf | vm_compute; reflexivity | lia ].
  - apply Hmark.
    + solve_wf.
    + vm_compute. reflexivity.
    + solve_wf.
    + lia.
    + solve_wf.
    + intros _ _ i Hi. change (base_frame_no all_free_pool) with 100 in Hi.
      assert (Hc : i = 2 \/ i = 3 \/ i = 4) by lia.
      destruct Hc as [ -> | [ -> | -> ] ]; vm_compute; reflexivity.
  - apply Hrel. intros q [ <- | [] ].
    split; [ solve_wf | vm_compute; reflexivity ].
Defined.

(** C7 (counterexample).  Marking the same three frames inaccessible twice
    takes them off the counter twice, and a request for zero frames turns
    a free frame into a head without touching the counter: in both cases
    [nFreeFrames] no longer equals the number of [Free] frames. *)
Lemma free_count_not_invariant :
  let p0 := fst (ContFramePool_new 32 32 (fun _ => 0) [] 100 10 5) in
  let p1 := mark_inaccessible 32 32 p0 100 3 in
  let p2 := mark_inaccessible 32 32 p1 100 3 in
  free_count_consistent 32 32 p0 /\
  free_count_consistent 32 32 p1 /\
  nFreeFrames p2 = 4 /\
  count_free 32 32 (bitmap p2) (Z.to_nat (nframes p2)) = 7 /\
  ~ free_count_consistent 32 32 p2 /\
  exists p3,
    get_frames 32 32 p0 0 = Returns (p3, 100) /\
    nFreeFrames p3 = 10 /\
    count_free 32 32 (bitmap p3) (Z.to_nat (nframes p3)) = 9 /\
    ~ free_count_consistent 32 32 p3.
Proof.
  cbv zeta. unfold free_count_consistent.
  split; [ vm_compute; reflexivity | ].
  split; [ vm_compute; reflexivity | ].
  split; [ vm_compute; reflexivity | ].
  split; [ vm_compute; reflexivity | ].
  split; [ vm_compute; discriminate | ].
  eexists. split; [ vm_compute; reflexivity | ].
  split; [ vm_compute; reflexivity | ].
  split; [ vm_compute; reflexivity | ].
  vm_compute. discriminate.
Qed.

Lemma needed_info_frames_exact_witness :
  needed_info_frames 32 4096 16385
  = ceil_div (ceil_div (16385 * 2) 8) 4096.
Proof.
  apply needed_info_frames_exact; try lia; vm_compute; reflexivity.
Defined.

(** C8 (counterexample).  For [2^31] frames the product [n * 2] wraps to 0
    in a 32-bit [unsigned long] (for [2^63] frames in a 64-bit one): the
    function returns 0 where the bitmap needs [2^17] (resp. [2^49])
    frames. *)
Lemma needed_info_frames_wraps :
  needed_info_frames 32 4096 2147483648 = 0 /\
  ceil_div (ceil_div (2147483648 * 2) 8) 4096 = 131072 /\
  needed_info_frames 32 4096 2147483648
  <> ceil_div (ceil_div (2147483648 * 2) 8) 4096 /\
  needed_info_frames 64 4096 (2 ^ 63)
  <> ceil_div (ceil_div (2 ^ 63 * 2) 8) 4096.
Proof.
  split; [ vm_compute; reflexivity | ].
  split; [ vm_compute; reflexivity | ].
  split; vm_compute; discriminate.
Qed.

Lemma self_hosted_info_frame_witness :
  let pool := fst (ContFramePool_new 32 32 (fun _ => 255) [second_pool] 100 10 0) in
  let pools' := snd (ContFramePool_new 32 32 (fun _ => 255) [second_pool] 100 10 0) in
  get_state 32 32 (bitmap pool) 0 = Used /\
  get_state 32 32 (bitmap pool) 0 <> HoS /\
  nFreeFrames pool = 10 - 1 /\
  base_frame_no pool = 100 /\
  nframes pool = 10 /\
  pools' = [second_pool] ++ [pool] /\
  release_frames 32 32 pools' 100 = Fatal msg_not_head pools'.
Proof.
  apply self_hosted_info_frame; try lia; try solve_wf.
  intros q [ <- | [] ]. split; solve_wf.
Defined.

Lemma get_frames_zero_witness :
  exists p',
    get_frames 32 32 all_free_pool 0
    = Returns (p', base_frame_no all_free_pool) /\
    get_state 32 32 (bitmap p') 0 = HoS /\
    nFreeFrames p' = nFreeFrames all_free_pool /\
    base_frame_no p' = base_frame_no all_free_pool /\
    nframes p' = nframes all_free_pool /\
    (forall g, addressable 32 32 g -> g <> 0 ->
               get_state 32 32 (bitmap p') g
               = get_state 32 32 (bitmap all_free_pool) g).
Proof.
  apply get_frames_zero; try lia; solve_wf.
Defined.

(** * The further properties on concrete pools *)

Ltac solve_ex :=
  unfold pool_wf, fields_in_range, owns, ULONG_MOD, UINT_MOD, ULONG_MAX,
         Max_pools, all_free_pool, fragmented_pool, second_pool, stuck_pool,
         overcounted_pool;
  cbn; lia.

Ltac solve_addr :=
  unfold addressable, ULONG_MOD, UINT_MOD;
  change (2 ^ 32) with 4294967296;
  repeat split; try lia; Z.div_mod_to_equations; lia.

Ltac solve_arith :=
  first [ lia | vm_compute; first [ reflexivity | discriminate ] ].

Lemma set_state_then_get_state_witness :
  get_state 32 32 (set_state 32 32 (fun _ => 173) 4294967295 HoS) 4294967295
  = HoS.
Proof.
  apply set_state_then_get_state; lia.
Defined.

(** Frame 6 of the fragmented pool is set to [Reserved] *)
Lemma set_state_isolation_witness :
  ((forall a : Z,
    a <> 6 * 2 / 8 ->
    set_state 32 32 (bitmap fragmented_pool) 6 Reserved a =
    bitmap fragmented_pool a) /\
   0 <= set_state 32 32 (bitmap fragmented_pool) 6 Reserved (6 * 2 / 8) < 256 /\
   (forall g : Z,
    addressable 32 32 g ->
    g <> 6 ->
    get_state 32 32 (set_state 32 32 (bitmap fragmented_pool) 6 Reserved) g =
    get_state 32 32 (bitmap fragmented_pool) g)).
Proof.
  pose proof (set_state_isolation 32 32) as H. widths H.
  apply (H (bitmap fragmented_pool) 6 Reserved).
  - solve_addr.
Defined.

(** Frame numbers 1 and 2^31 + 1 *)
Lemma set_state_upper_half_aliases_witness :
  (0 <= 1 + 2 ^ (32 - 1) < ULONG_MOD 32 /\
   get_state 32 32 (bitmap fragmented_pool) (1 + 2 ^ (32 - 1)) =
   get_state 32 32 (bitmap fragmented_pool) 1 /\
   get_state 32 32
     (set_state 32 32 (bitmap fragmented_pool) (1 + 2 ^ (32 - 1)) Reserved) 1 =
   Reserved).
Proof.
  pose proof (set_state_upper_half_aliases 32 32) as H. widths H.
  apply (H (bitmap fragmented_pool) 1 Reserved).
  - change (2 ^ (32 - 1)) with 2147483648; lia.
Defined.

(** A pool of ten frames over memory filled with 0xFF *)
Lemma constructor_initialises_witness :
  (base_frame_no (fst (ContFramePool_new 32 32 (fun _ : Z => 255) [] 100 10 5)) =
   100 /\
   nframes (fst (ContFramePool_new 32 32 (fun _ : Z => 255) [] 100 10 5)) = 10 /\
   info_frame_no (fst (ContFramePool_new 32 32 (fun _ : Z => 255) [] 100 10 5)) =
   5 /\
   (5 <> 0 ->
    nFreeFrames (fst (ContFramePool_new 32 32 (fun _ : Z => 255) [] 100 10 5)) =
    10 /\
    run_free 32 32
      (bitmap (fst (ContFramePool_new 32 32 (fun _ : Z => 255) [] 100 10 5))) 0
      10) /\
   (5 = 0 ->
    nFreeFrames (fst (ContFramePool_new 32 32 (fun _ : Z => 255) [] 100 10 5)) =
    10 - 1 /\
    get_state 32 32
      (bitmap (fst (ContFramePool_new 32 32 (fun _ : Z => 255) [] 100 10 5))) 0 =
    Used /\
    run_free 32 32
      (bitmap (fst (ContFramePool_new 32 32 (fun _ : Z => 255) [] 100 10 5))) 1
      (10 - 1))).
Proof.
  pose proof (constructor_initialises 32 32) as H. widths H.
  apply (H (fun _ => 255) [] 100 10 5).
  - lia.
  - solve_ex.
  - solve_ex.
Defined.

(** Two frames from the fragmented pool *)
Lemma get_frames_sound_witness :
  (exists (p' : ContFramePool) (f : Z),
     get_frames 32 32 fragmented_pool 2 = Returns (p', f) /\
     (p' = fragmented_pool /\ f = 0 \/
      p' <> fragmented_pool /\
      base_frame_no fragmented_pool <= f /\
      f + 2 <= base_frame_no fragmented_pool + nframes fragmented_pool /\
      run_free 32 32 (bitmap fragmented_pool)
        (f - base_frame_no fragmented_pool) 2 /\
      (forall g : Z,
       f <= g < f + 2 ->
       get_state 32 32 (bitmap p') (g - base_frame_no fragmented_pool) <> Free) /\
      (forall g : Z,
       addressable 32 32 g ->
       get_state 32 32 (bitmap fragmented_pool) g <> Free ->
       get_state 32 32 (bitmap p') g =
       get_state 32 32 (bitmap fragmented_pool) g) /\
      nFreeFrames p' = nFreeFrames fragmented_pool - 2 /\
      base_frame_no p' = base_frame_no fragmented_pool /\
      nframes p' = nframes fragmented_pool)).
Proof.
  pose proof (get_frames_sound 32 32) as H. widths H.
  apply (H fragmented_pool 2).
  - solve_ex.
  - solve_ex.
  - lia.
Defined.

(** Two frames from the fragmented pool, then any request *)
Lemma get_frames_no_overlap_witness :
  (exists (p1 : ContFramePool) (f1 : Z),
     get_frames 32 32 fragmented_pool 2 = Returns (p1, f1) /\
     p1 <> fragmented_pool /\
     base_frame_no fragmented_pool <= f1 /\
     f1 + 2 <= base_frame_no fragmented_pool + nframes fragmented_pool /\
     (forall (n2 : Z) (p2 : ContFramePool) (f2 : Z),
      1 <= n2 ->
      get_frames 32 32 p1 n2 = Returns (p2, f2) ->
      p2 <> p1 ->
      base_frame_no fragmented_pool <= f2 /\
      f2 + n2 <= base_frame_no fragmented_pool + nframes fragmented_pool /\
      (f1 + 2 <= f2 \/ f2 + n2 <= f1))).
Proof.
  pose proof (get_frames_no_overlap 32 32) as H. widths H.
  apply (H fragmented_pool 2 4).
  - solve_ex.
  - solve_ex.
  - lia.
  - solve_ex.
  - lia.
  - solve_ex.
  - exact fragmented_run_at_4.
Defined.

(** Eleven frames from the ten-frame pool with counter 11 *)
Lemma get_frames_diverges_witness :
  (get_frames 32 32 stuck_pool 11 = Diverges).
Proof.
  pose proof (get_frames_diverges 32 32) as H. widths H.
  apply (H stuck_pool 11).
  - solve_ex.
  - reflexivity.
  - solve_ex.
  - intros f _; pose proof (get_state_all_ones 32 32) as Ho; widths Ho;
    rewrite (Ho (bitmap stuck_pool) f) by (intros a; reflexivity);
    discriminate.
Defined.

(** Twelve frames from the ten-frame pool with counter 12 *)
Lemma get_frames_beyond_pool_witness :
  (exists p' : ContFramePool,
     get_frames 32 32 overcounted_pool 12 =
     Returns (p', base_frame_no overcounted_pool) /\
     nFreeFrames p' = nFreeFrames overcounted_pool - 12 /\
     get_state 32 32 (bitmap p') 0 = HoS /\
     (forall i : Z,
      nframes overcounted_pool <= i < 12 ->
      0 < i -> get_state 32 32 (bitmap p') i = Used)).
Proof.
  pose proof (get_frames_beyond_pool 32 32) as H. widths H.
  apply (H overcounted_pool 12).
  - solve_ex.
  - solve_ex.
  - solve_ex.
  - intros j Hj; solve_addr.
  - intros i _; pose proof (get_state_all_zeros 32 32) as Hz; widths Hz;
    apply Hz; intros a; reflexivity.
Defined.

(** Frames 100 .. 102, two of them allocated, are marked inaccessible *)
Lemma mark_inaccessible_in_range_witness :
  (base_frame_no (mark_inaccessible 32 32 fragmented_pool 100 3) =
   base_frame_no fragmented_pool /\
   nframes (mark_inaccessible 32 32 fragmented_pool 100 3) =
   nframes fragmented_pool /\
   nFreeFrames (mark_inaccessible 32 32 fragmented_pool 100 3) =
   to_ulong 32 (nFreeFrames fragmented_pool - 3) /\
   (3 <= nFreeFrames fragmented_pool ->
    nFreeFrames (mark_inaccessible 32 32 fragmented_pool 100 3) =
    nFreeFrames fragmented_pool - 3) /\
   get_state 32 32 (bitmap (mark_inaccessible 32 32 fragmented_pool 100 3))
     (100 - base_frame_no fragmented_pool) =
   HoS /\
   (forall f : Z,
    100 < f < 100 + 3 ->
    get_state 32 32 (bitmap (mark_inaccessible 32 32 fragmented_pool 100 3))
      (f - base_frame_no fragmented_pool) =
    Reserved) /\
   (forall g : Z,
    addressable 32 32 g ->
    ~
    100 - base_frame_no fragmented_pool <= g <
    100 - base_frame_no fragmented_pool + 3 ->
    g <> 100 - base_frame_no fragmented_pool ->
    get_state 32 32 (bitmap (mark_inaccessible 32 32 fragmented_pool 100 3)) g =
    get_state 32 32 (bitmap fragmented_pool) g)).
Proof.
  pose proof (mark_inaccessible_in_range 32 32) as H. widths H.
  apply (H fragmented_pool 100 3).
  - solve_ex.
  - solve_ex.
  - solve_ex.
  - solve_ex.
  - solve_ex.
Defined.

(** A range below the pool *)
Lemma mark_inaccessible_rejects_witness :
  (mark_inaccessible 32 32 all_free_pool 95 2 = all_free_pool).
Proof.
  pose proof (mark_inaccessible_rejects 32 32) as H. widths H.
  apply (H all_free_pool 95 2).
  - solve_ex.
  - solve_ex.
  - lia.
  - solve_ex.
  - left; solve_ex.
Defined.

(** Frames 102 .. 104 reserved, then any request *)
Lemma reserved_frames_not_allocated_witness :
  (nFreeFrames (mark_inaccessible 32 32 all_free_pool 102 3) =
   nFreeFrames all_free_pool - 3 /\
   (forall (m : Z) (p2 : ContFramePool) (f : Z),
    1 <= m ->
    get_frames 32 32 (mark_inaccessible 32 32 all_free_pool 102 3) m =
    Returns (p2, f) ->
    (f + m <= 102 \/
     102 + 3 <= f \/ p2 = mark_inaccessible 32 32 all_free_pool 102 3 /\ f = 0) /\
    (forall g : Z,
     102 <= g < 102 + 3 ->
     get_state 32 32 (bitmap p2) (g - base_frame_no all_free_pool) =
     get_state 32 32 (bitmap (mark_inaccessible 32 32 all_free_pool 102 3))
       (g - base_frame_no all_free_pool)))).
Proof.
  pose proof (reserved_frames_not_allocated 32 32) as H. widths H.
  apply (H all_free_pool 102 3).
  - solve_ex.
  - solve_ex.
  - solve_ex.
  - lia.
  - solve_ex.
  - solve_ex.
Defined.

(** Release of frame 100 of the fragmented pool *)
Lemma release_frames_frees_run_witness :
  (exists (m : Z) (p' : ContFramePool),
     0 <= m /\
     100 + m < base_frame_no fragmented_pool + nframes fragmented_pool /\
     (forall g : Z,
      100 < g <= 100 + m ->
      get_state 32 32 (bitmap fragmented_pool)
        (g - base_frame_no fragmented_pool) =
      Used) /\
     (100 + m + 1 = base_frame_no fragmented_pool + nframes fragmented_pool \/
      get_state 32 32 (bitmap fragmented_pool)
        (100 + m + 1 - base_frame_no fragmented_pool) <>
      Used) /\
     release_frames 32 32 ([second_pool] ++ [fragmented_pool]) 100 =
     Done ([second_pool] ++ [p']) /\
     base_frame_no p' = base_frame_no fragmented_pool /\
     nframes p' = nframes fragmented_pool /\
     nFreeFrames p' = to_ulong 32 (nFreeFrames fragmented_pool + (1 + m)) /\
     (forall g : Z,
      100 <= g <= 100 + m ->
      get_state 32 32 (bitmap p') (g - base_frame_no fragmented_pool) = Free) /\
     (forall g : Z,
      addressable 32 32 g ->
      ~
      100 - base_frame_no fragmented_pool <= g <=
      100 - base_frame_no fragmented_pool + m ->
      get_state 32 32 (bitmap p') g =
      get_state 32 32 (bitmap fragmented_pool) g)).
Proof.
  pose proof (release_frames_frees_run 32 32) as H. widths H.
  apply (H [second_pool] fragmented_pool [] 100).
  - intros q [ <- | [] ]; split; solve_ex.
  - solve_ex.
  - solve_ex.
  - vm_compute; reflexivity.
Defined.

(** Frame 100 of the fragmented pool released twice *)
Lemma release_frames_twice_witness :
  (exists p' : ContFramePool,
     release_frames 32 32 ([second_pool] ++ [fragmented_pool]) 100 =
     Done ([second_pool] ++ [p']) /\
     release_frames 32 32 ([second_pool] ++ [p']) 100 =
     Fatal msg_not_head ([second_pool] ++ [p'])).
Proof.
  pose proof (release_frames_twice 32 32) as H. widths H.
  apply (H [second_pool] fragmented_pool [] 100).
  - intros q [ <- | [] ]; split; solve_ex.
  - solve_ex.
  - solve_ex.
  - vm_compute; reflexivity.
Defined.

(** The second frame of a two-frame allocation *)
Lemma release_inside_allocation_witness :
  (exists (p' : ContFramePool) (f : Z),
     get_frames 32 32 fragmented_pool 2 = Returns (p', f) /\
     (forall i : Z,
      0 < i < 2 ->
      release_frames 32 32 ([second_pool] ++ [p']) (f + i) =
      Fatal msg_not_head ([second_pool] ++ [p']))).
Proof.
  pose proof (release_inside_allocation 32 32) as H. widths H.
  apply (H [second_pool] fragmented_pool [] 2 4).
  - solve_ex.
  - intros q [ <- | [] ]; split; [ solve_ex | intros f; solve_ex ].
  - lia.
  - solve_ex.
  - lia.
  - solve_ex.
  - exact fragmented_run_at_4.
Defined.

(** Two frames from the fragmented pool, then any request *)
Lemma allocations_released_independently_witness :
  (exists (p1 : ContFramePool) (f1 : Z),
     get_frames 32 32 fragmented_pool 2 = Returns (p1, f1) /\
     (forall (n2 : Z) (p2 : ContFramePool) (f2 : Z),
      1 <= n2 ->
      get_frames 32 32 p1 n2 = Returns (p2, f2) ->
      p2 <> p1 ->
      exists p3 p4 : ContFramePool,
        release_frames 32 32 ([second_pool] ++ [p2]) f1 =
        Done ([second_pool] ++ [p3]) /\
        (forall g : Z,
         f1 <= g < f1 + 2 ->
         get_state 32 32 (bitmap p3) (g - base_frame_no fragmented_pool) = Free) /\
        (forall g : Z,
         addressable 32 32 g ->
         ~
         f1 - base_frame_no fragmented_pool <= g <
         f1 - base_frame_no fragmented_pool + 2 ->
         get_state 32 32 (bitmap p3) g = get_state 32 32 (bitmap p2) g) /\
        nFreeFrames p3 = nFreeFrames fragmented_pool - n2 /\
        release_frames 32 32 ([second_pool] ++ [p3]) f2 =
        Done ([second_pool] ++ [p4]) /\ same_frames 32 32 p4 fragmented_pool)).
Proof.
  pose proof (allocations_released_independently 32 32) as H. widths H.
  apply (H [second_pool] fragmented_pool [] 2 4).
  - solve_ex.
  - solve_ex.
  - exact fragmented_used_continues_run.
  - intros q [ <- | [] ]; split; [ solve_ex | intros f; solve_ex ].
  - lia.
  - solve_ex.
  - lia.
  - solve_ex.
  - exact fragmented_run_at_4.
Defined.

(** An eleventh pool, frames 100 .. 109 *)
Lemma unregistered_pool_cannot_release_witness :
  (snd (ContFramePool_new 32 32 (fun _ : Z => 255) full_registry 100 10 5) =
   full_registry /\
   exists p' : ContFramePool,
     get_frames 32 32
       (fst (ContFramePool_new 32 32 (fun _ : Z => 255) full_registry 100 10 5))
       3 =
     Returns (p', 100) /\
     get_state 32 32 (bitmap p') 0 = HoS /\
     release_frames 32 32
       (snd (ContFramePool_new 32 32 (fun _ : Z => 255) full_registry 100 10 5))
       100 =
     Fatal msg_not_found full_registry).
Proof.
  pose proof (unregistered_pool_cannot_release 32 32) as H. widths H.
  apply (H (fun _ => 255) full_registry 100 10 5 3).
  - unfold Max_pools, full_registry; simpl; lia.
  - lia.
  - lia.
  - lia.
  - lia.
  - solve_ex.
  - solve_ex.
  - solve_ex.
  - intros q Hq; unfold full_registry in Hq; simpl in Hq;
    repeat (destruct Hq as [ <- | Hq ]; [ split; solve_ex | ]);
    contradiction.
Defined.

(** 16385 frames need two info frames of 4096 bytes *)
Lemma needed_info_frames_hold_bitmap_witness :
  ((forall f : Z,
    0 <= f < 16385 ->
    0 <= to_uint 32 (to_ulong 32 (f * 2) / 8) <
    needed_info_frames 32 4096 16385 * 4096) /\
   (needed_info_frames 32 4096 16385 - 1) * 4096 <=
   to_uint 32 (to_ulong 32 ((16385 - 1) * 2) / 8)).
Proof.
  pose proof (needed_info_frames_hold_bitmap 32 32) as H. widths H. specialize (H 4096). widths H.
  apply (H 16385).
  - solve_arith.
  - solve_arith.
  - solve_arith.
  - solve_arith.
Defined.

(** 100 and 20000 frames *)
Lemma needed_info_frames_monotone_witness :
  (needed_info_frames 32 4096 100 <= needed_info_frames 32 4096 20000).
Proof.
  pose proof (needed_info_frames_monotone 32 4096) as H. widths H.
  apply (H 100 20000).
  - solve_arith.
  - solve_arith.
  - solve_arith.
  - solve_arith.
Defined.

(** A self-hosted pool of 20000 frames *)
Lemma self_hosted_reserves_one_frame_witness :
  (2 <= needed_info_frames 32 4096 20000 /\
   exists p' : ContFramePool,
     get_frames 32 32
       (fst (ContFramePool_new 32 32 (fun _ : Z => 255) [] 100 20000 0)) 1 =
     Returns (p', 100 + 1) /\
     get_state 32 32 (bitmap p') 0 = Used /\
     get_state 32 32 (bitmap p') 1 = HoS).
Proof.
  pose proof (self_hosted_reserves_one_frame 32 32) as H. widths H. specialize (H 4096). widths H.
  apply (H (fun _ => 255) [] 100 20000).
  - solve_arith.
  - solve_arith.
  - solve_arith.
  - solve_arith.
  - solve_arith.
  - solve_arith.
Defined.

(** A fresh pool of ten frames *)
Lemma fresh_pool_whole_cycle_witness :
  (snd (ContFramePool_new 32 32 (fun _ : Z => 255) [] 100 10 5) =
   [fst (ContFramePool_new 32 32 (fun _ : Z => 255) [] 100 10 5)] /\
   exists p1 p2 : ContFramePool,
     get_frames 32 32
       (fst (ContFramePool_new 32 32 (fun _ : Z => 255) [] 100 10 5)) 10 =
     Returns (p1, 100) /\
     nFreeFrames p1 = 0 /\
     (forall m : Z, 1 <= m -> get_frames 32 32 p1 m = Returns (p1, 0)) /\
     release_frames 32 32 [p1] 100 = Done [p2] /\
     same_frames 32 32 p2
       (fst (ContFramePool_new 32 32 (fun _ : Z => 255) [] 100 10 5))).
Proof.
  pose proof (fresh_pool_whole_cycle 32 32) as H. widths H.
  apply (H (fun _ => 255) 100 10 5).
  - lia.
  - lia.
  - lia.
  - solve_ex.
  - solve_ex.
  - solve_ex.
Defined.

(** The fragmented pool after the release of frame 100 *)
Lemma reachable_pools_stay_consistent_witness :
  (pool_wf 32 32
     (release_sequence 32 32 fragmented_pool
        (100 - base_frame_no fragmented_pool)) /\
   free_count_consistent 32 32
     (release_sequence 32 32 fragmented_pool
        (100 - base_frame_no fragmented_pool)) /\
   used_continues_run 32 32
     (release_sequence 32 32 fragmented_pool
        (100 - base_frame_no fragmented_pool)) /\
   nFreeFrames
     (release_sequence 32 32 fragmented_pool
        (100 - base_frame_no fragmented_pool)) <=
   nframes
     (release_sequence 32 32 fragmented_pool
        (100 - base_frame_no fragmented_pool)) /\
   base_frame_no
     (release_sequence 32 32 fragmented_pool
        (100 - base_frame_no fragmented_pool)) =
   base_frame_no fragmented_pool /\
   nframes
     (release_sequence 32 32 fragmented_pool
        (100 - base_frame_no fragmented_pool)) =
   nframes fragmented_pool /\
   (forall n : Z,
    1 <= n ->
    exists (p' : ContFramePool) (f : Z),
      get_frames 32 32
        (release_sequence 32 32 fragmented_pool
           (100 - base_frame_no fragmented_pool))
        n =
      Returns (p', f))).
Proof.
  pose proof (reachable_pools_stay_consistent 32 32) as H. widths H.
  apply (H fragmented_pool
             (release_sequence 32 32 fragmented_pool
                (100 - base_frame_no fragmented_pool))).
  - solve_ex.
  - vm_compute; reflexivity.
  - exact fragmented_used_continues_run.
  - eapply reach_step;
    [ apply reach_start
    | apply step_release_frames; [ solve_ex | vm_compute; reflexivity ] ].
Defined.

(** A self-hosted pool of ten frames after a request for two frames *)
Lemma info_frame_never_handed_out_witness :
  (get_state 32 32
     (bitmap
        (pool_after_get_frames 32 32
           (fst (ContFramePool_new 32 32 (fun _ : Z => 255) [] 100 10 0)) 2))
     0 =
   Used /\
   (forall (m : Z) (p' : ContFramePool) (f : Z),
    1 <= m ->
    get_frames 32 32
      (pool_after_get_frames 32 32
         (fst (ContFramePool_new 32 32 (fun _ : Z => 255) [] 100 10 0)) 2)
      m =
    Returns (p', f) ->
    p' <>
    pool_after_get_frames 32 32
      (fst (ContFramePool_new 32 32 (fun _ : Z => 255) [] 100 10 0)) 2 ->
    100 < f)).
Proof.
  pose proof (info_frame_never_handed_out 32 32) as H. widths H.
  apply (H (fun _ => 255) [] 100 10
             (pool_after_get_frames 32 32
                (fst (ContFramePool_new 32 32 (fun _ => 255) [] 100 10 0)) 2)).
  - lia.
  - lia.
  - solve_ex.
  - solve_ex.
  - solve_ex.
  - eapply reach_step; [ apply reach_start | apply step_get_frames; lia ].
Defined.

(** Two frames from the fragmented pool, released and requested again *)
Lemma released_frames_are_reused_witness :
  (exists (p1 : ContFramePool) (f : Z) (p2 p3 : ContFramePool),
     get_frames 32 32 fragmented_pool 2 = Returns (p1, f) /\
     release_frames 32 32 ([second_pool] ++ [p1]) f =
     Done ([second_pool] ++ [p2]) /\
     get_frames 32 32 p2 2 = Returns (p3, f) /\
     (forall g : Z,
      f <= g < f + 2 ->
      get_state 32 32 (bitmap p3) (g - base_frame_no fragmented_pool) =
      get_state 32 32 (bitmap p1) (g - base_frame_no fragmented_pool))).
Proof.
  pose proof (released_frames_are_reused 32 32) as H. widths H.
  apply (H [second_pool] fragmented_pool [] 2 4).
  - solve_ex.
  - exact fragmented_used_continues_run.
  - intros q [ <- | [] ]; split; [ solve_ex | intros f; solve_ex ].
  - lia.
  - solve_ex.
  - lia.
  - solve_ex.
  - exact fragmented_run_at_4.
Defined.

(** The four parts on a self-hosted pool and on the fragmented pool *)
Lemma used_frames_continue_a_run_witness :
  used_continues_run 32 32
    (fst (ContFramePool_new 32 32 (fun _ => 255) [] 100 10 0)) /\
  (exists p' f,
     get_frames 32 32 fragmented_pool 2 = Returns (p', f) /\
     used_continues_run 32 32 p') /\
  used_continues_run 32 32 (mark_inaccessible 32 32 fragmented_pool 104 3) /\
  (forall q',
     In q' (outcome_pools (release_frames 32 32 [fragmented_pool] 100)) ->
     used_continues_run 32 32 q').
Proof.
  pose proof (used_frames_continue_a_run 32 32) as H. widths H.
  destruct H as (Hnew & Hget & Hmark & Hrel).
  split; [ | split; [ | split ] ].
  - apply Hnew; solve_ex.
  - apply Hget.
    + solve_ex.
    + solve_ex.
    + exact fragmented_used_continues_run.
    + lia.
  - apply Hmark.
    + solve_ex.
    + exact fragmented_used_continues_run.
    + solve_ex.
    + lia.
    + solve_ex.
  - apply Hrel. intros q [ <- | [] ].
    split; [ solve_ex | exact fragmented_used_continues_run ].
Defined.
